(** * dewpoint: a shallow embedding of [dewpoint.cc]

    The program reads a temperature and a relative humidity from the
    command line and prints the dew point, rounded to an integer.  The
    embedding follows the source function by function:

    - [LocaleUsesFahrenheit], [ReadFloat], [DewPoint],
      [DewPointFahrenheit] and [main] are the functions of the source;
    - [CxxString], [Binary32], [Strtof] and [Getopt] model the parts of
      the C and C++ libraries the source calls ([std::string_view],
      IEEE 754 single precision, [strtof], [getopt_long]).

    [float] is IEEE 754 binary32, with every operation rounded to
    nearest-even on its own (no fused multiply-add, no wider
    intermediate format).  The library function [logf] is a parameter of
    the model. *)

From Stdlib Require Import ZArith List Bool Ascii String Lia.
From Stdlib Require Import QArith Reals Lra SpecFloat DecimalString.
Import ListNotations.

Local Open Scope string_scope.
Local Open Scope Z_scope.

(** ** Characters and strings *)

Module CxxString.

(** The character [34], the double quote of the diagnostics. *)
Definition dquote : string := String (ascii_of_nat 34) EmptyString.

(** The character [10], which ends every line the program prints. *)
Definition newline : string := String (ascii_of_nat 10) EmptyString.

(** A character as the integer it is in C. *)
Definition code (c : ascii) : Z := Z.of_nat (nat_of_ascii c).

(** [size_t] is 64 bits wide and [int] 32 bits wide. *)
Definition size_t_modulus : Z := 2 ^ 64.
Definition npos : Z := size_t_modulus - 1.

(** Conversion to [size_t]: reduction modulo [2^64]. *)
Definition to_size_t (z : Z) : Z := z mod size_t_modulus.

(** Conversion to [int]: reduction modulo [2^32] into [-2^31 .. 2^31-1]. *)
Definition to_int (z : Z) : Z := (z + 2 ^ 31) mod 2 ^ 32 - 2 ^ 31.

(** Position of the first [c] in [s], counted from [0]. *)
Fixpoint index_of (c : ascii) (s : string) : option nat :=
  match s with
  | EmptyString => None
  | String a s' =>
      if Ascii.eqb a c then Some O
      else match index_of c s' with
           | Some i => Some (S i)
           | None => None
           end
  end.

(** [std::string_view::find(char)]: the position, or [npos]. *)
Definition find (c : ascii) (s : string) : Z :=
  match index_of c s with
  | Some i => Z.of_nat i
  | None => npos
  end.

(** [std::string_view::substr(pos, count)]: the characters
    [pos .. pos+count-1], fewer when the string ends before.  The
    standard throws [std::out_of_range] when [pos] exceeds the size of
    the string; the one call of the source passes the position after an
    underscore it has found, which is at most the size as long as
    positions fit [int]. *)
Definition substr (s : string) (pos count : Z) : string :=
  String.substring (Z.to_nat pos) (Z.to_nat count) s.

(** Whether [c] occurs in [s]. *)
Fixpoint has_char (c : ascii) (s : string) : bool :=
  match s with
  | EmptyString => false
  | String a s' => Ascii.eqb a c || has_char c s'
  end.

(** What follows the first [c] of [s]; [None] when [s] has no [c]. *)
Fixpoint after_first (c : ascii) (s : string) : option string :=
  match s with
  | EmptyString => None
  | String a s' => if Ascii.eqb a c then Some s' else after_first c s'
  end.

(** What precedes the first [c] of [s]; [None] when [s] has no [c]. *)
Fixpoint before_first (c : ascii) (s : string) : option string :=
  match s with
  | EmptyString => None
  | String a s' =>
      if Ascii.eqb a c then Some EmptyString
      else match before_first c s' with
           | Some p => Some (String a p)
           | None => None
           end
  end.

End CxxString.

Import CxxString.

(** ** The locale inspector *)

(** The territories whose locales default to Fahrenheit. *)
Definition fahrenheit_territories : list string :=
  ["US"; "LR"; "FM"; "KY"; "MH"; "PW"].

(** [LocaleUsesFahrenheit] of the source.  [find] returns a [size_t]
    that the source stores in an [int]; the comparison with [npos]
    converts the [int] back to [size_t], and the arguments of [substr]
    are [int] expressions converted to [size_t]. *)
Definition LocaleUsesFahrenheit (locale : string) : bool :=
  let underscore := to_int (find "_" locale) in
  let dot := to_int (find "." locale) in
  if (to_size_t underscore =? npos) || (to_size_t dot =? npos)
     || (dot <=? underscore)
  then false
  else
    let territory :=
      substr locale (to_size_t (underscore + 1))
             (to_size_t (dot - underscore - 1)) in
    String.eqb territory "US" || String.eqb territory "LR"
    || String.eqb territory "FM" || String.eqb territory "KY"
    || String.eqb territory "MH" || String.eqb territory "PW".

(** The territory as the specification words it: the text strictly
    between the first underscore and the first dot that follows that
    underscore. *)
Definition territory_after_underscore (locale : string) : option string :=
  match after_first "_" locale with
  | Some rest => before_first "." rest
  | None => None
  end.

(** The locale test as the specification words it. *)
Definition uses_fahrenheit_by_territory (locale : string) : bool :=
  match territory_after_underscore locale with
  | Some t => existsb (String.eqb t) fahrenheit_territories
  | None => false
  end.

(** ** IEEE 754 single precision *)

Module Binary32.

(** [float] of the source: binary32, in the representation of the
    standard library's [SpecFloat] (sign, mantissa, exponent; both
    zeros, both infinities, one NaN). *)
Definition float : Type := spec_float.

Definition prec : Z := 24.
Definition emax : Z := 128.

(** The format of [double], which the unsuffixed literals of the source
    pass through. *)
Definition double_prec : Z := 53.
Definition double_emax : Z := 1024.

Definition plus_zero : float := S754_zero false.
Definition nan : float := S754_nan.
Definition infinity : float := S754_infinity false.

Definition add (x y : float) : float := SFadd prec emax x y.
Definition sub (x y : float) : float := SFsub prec emax x y.
Definition mul (x y : float) : float := SFmul prec emax x y.
Definition div (x y : float) : float := SFdiv prec emax x y.

(** [x <= y] of C: false as soon as one side is NaN. *)
Definition le (x y : float) : bool := SFleb x y.

(** The float of precision [p] nearest to the rational [q], ties to
    even: the quotient of numerator by denominator, rounded once. *)
Definition round_Q (p emx : Z) (q : Q) : spec_float :=
  match Qnum q with
  | Z0 => S754_zero false
  | Zpos n =>
      SFdiv p emx (S754_finite false n 0) (S754_finite false (Qden q) 0)
  | Zneg n =>
      SFdiv p emx (S754_finite true n 0) (S754_finite false (Qden q) 0)
  end.

(** Conversion of a [double] to [float]. *)
Definition narrow (x : spec_float) : float :=
  match x with
  | S754_finite s m e => binary_round prec emax s m e
  | _ => x
  end.

(** A literal with the suffix [f], such as [0.01f]. *)
Definition float_literal (q : Q) : float := round_Q prec emax q.

(** A literal without suffix that initialises a [float], such as
    [17.625]: a [double] first, then narrowed. *)
Definition double_literal (q : Q) : float :=
  narrow (round_Q double_prec double_emax q).

(** The integer nearest to [m / 2^k], ties to even. *)
Definition round_half_even (m k : Z) : Z :=
  let q := m / 2 ^ k in
  let r := m mod 2 ^ k in
  match 2 * r ?= 2 ^ k with
  | Lt => q
  | Gt => q + 1
  | Eq => if Z.even q then q else q + 1
  end.

(** [rintf] in the default rounding mode: the nearest integral value,
    ties to even, with the sign of the argument. *)
Definition rintf (x : float) : float :=
  match x with
  | S754_finite s m e =>
      if 0 <=? e then x
      else binary_normalize prec emax
             (cond_Zopp s (round_half_even (Zpos m) (- e))) 0 s
  | _ => x
  end.

(** [static_cast<int>]: truncation toward zero.  The conversion is
    undefined for NaN, the infinities and values outside the range of
    [int]: [None]. *)
Definition to_int (x : float) : option Z :=
  match x with
  | S754_zero _ => Some 0
  | S754_finite s m e =>
      let a := if 0 <=? e then Zpos m * 2 ^ e else Zpos m / 2 ^ (- e) in
      let v := cond_Zopp s a in
      if (- 2 ^ 31 <=? v) && (v <=? 2 ^ 31 - 1) then Some v else None
  | _ => None
  end.

(** The rational value of a finite float. *)
Definition to_Q (x : float) : option Q :=
  match x with
  | S754_zero _ => Some 0%Q
  | S754_finite s m e =>
      let a := if 0 <=? e then inject_Z (Zpos m * 2 ^ e)
               else Qmake (Zpos m) (Z.to_pos (2 ^ (- e))) in
      Some (if s then Qopp a else a)
  | _ => None
  end.

End Binary32.

(** ** The dew point calculator *)

(** The arithmetic the calculator is written in: the four operations,
    the logarithm and the two kinds of literal.  The program runs it on
    [float]. *)
Class Arithmetic (F : Type) : Type := {
  add : F -> F -> F;
  sub : F -> F -> F;
  mul : F -> F -> F;
  div : F -> F -> F;
  log : F -> F;
  float_literal : Q -> F;
  double_literal : Q -> F
}.

Declare Scope arith_scope.
Delimit Scope arith_scope with arith.
Notation "x + y" := (add x y) : arith_scope.
Notation "x - y" := (sub x y) : arith_scope.
Notation "x * y" := (mul x y) : arith_scope.
Notation "x / y" := (div x y) : arith_scope.

(** Single precision, over a given [logf]. *)
Definition binary32_arithmetic (logf : Binary32.float -> Binary32.float)
  : Arithmetic Binary32.float := {|
  add := Binary32.add;
  sub := Binary32.sub;
  mul := Binary32.mul;
  div := Binary32.div;
  log := logf;
  float_literal := Binary32.float_literal;
  double_literal := Binary32.double_literal
|}.

Section Calculator.

Context {F : Type} {arithmetic : Arithmetic F}.

Local Open Scope arith_scope.

Definition kA : F := double_literal 17.625.
Definition kB : F := double_literal 243.04.

(** [DewPoint] of the source: the Magnus formula. *)
Definition DewPoint (celsius humidity : F) : F :=
  let x := log (humidity * float_literal 0.01)
           + kA * celsius / (kB + celsius) in
  kB * x / (kA - x).

(** [DewPointFahrenheit] of the source. *)
Definition DewPointFahrenheit (fahrenheit humidity : F) : F :=
  float_literal 9 / float_literal 5
  * DewPoint (float_literal 5 / float_literal 9
              * (fahrenheit - float_literal 32)) humidity
  + float_literal 32.

End Calculator.

(** ** [strtof] *)

Module Strtof.

Import Binary32.

(** [isspace] in the C locale: space and the controls [\t] to [\r]. *)
Definition isspace (c : ascii) : bool :=
  (code c =? 32) || ((9 <=? code c) && (code c <=? 13)).

Definition tolower (c : ascii) : ascii :=
  if (65 <=? code c) && (code c <=? 90)
  then ascii_of_nat (nat_of_ascii c + 32)
  else c.

Definition digit_value (c : ascii) : option Z :=
  if (48 <=? code c) && (code c <=? 57) then Some (code c - 48) else None.

Definition hex_value (c : ascii) : option Z :=
  if (48 <=? code c) && (code c <=? 57) then Some (code c - 48)
  else if (97 <=? code c) && (code c <=? 102) then Some (code c - 87)
  else if (65 <=? code c) && (code c <=? 70) then Some (code c - 55)
  else None.

(** A character of the sequence allowed between the parentheses of
    [nan(...)]: a digit, a letter or an underscore. *)
Definition is_nchar (c : ascii) : bool :=
  ((48 <=? code c) && (code c <=? 57))
  || ((65 <=? code c) && (code c <=? 90))
  || ((97 <=? code c) && (code c <=? 122))
  || (code c =? 95).

Fixpoint skip_spaces (s : string) : string :=
  match s with
  | String c s' => if isspace c then skip_spaces s' else s
  | EmptyString => s
  end.

Fixpoint skip_nchars (s : string) : string :=
  match s with
  | String c s' => if is_nchar c then skip_nchars s' else s
  | EmptyString => s
  end.

(** Removes the prefix [p] (lower case) from [s], compared without
    regard to case. *)
Fixpoint strip_prefix_ci (p s : string) : option string :=
  match p with
  | EmptyString => Some s
  | String a p' =>
      match s with
      | String b s' =>
          if Ascii.eqb (tolower b) a then strip_prefix_ci p' s' else None
      | EmptyString => None
      end
  end.

(** The longest run of digits at the head of [s]: the number they
    write after [acc], how many they are, and what follows. *)
Fixpoint read_digits (value : ascii -> option Z) (base acc : Z)
    (count : nat) (s : string) : Z * nat * string :=
  match s with
  | String c s' =>
      match value c with
      | Some d => read_digits value base (acc * base + d) (S count) s'
      | None => (acc, count, s)
      end
  | EmptyString => (acc, count, s)
  end.

(** A nonempty sequence of digits that may contain one radix
    character: the digits read as one integer, the number of digits
    after the radix character, and what follows. *)
Definition read_mantissa (value : ascii -> option Z) (base : Z)
    (radix : ascii) (s : string) : option (Z * nat * string) :=
  let '(m1, n1, s1) := read_digits value base 0 O s in
  match s1 with
  | String c s2 =>
      if Ascii.eqb c radix then
        let '(m2, n2, s3) := read_digits value base m1 O s2 in
        if Nat.eqb (n1 + n2) O then None else Some (m2, n2, s3)
      else if Nat.eqb n1 O then None else Some (m1, O, s1)
  | EmptyString => if Nat.eqb n1 O then None else Some (m1, O, s1)
  end.

(** An optional exponent part: the marker ([e] or [p], in either
    case), an optional sign and at least one decimal digit.  Without a
    digit nothing is consumed. *)
Definition read_exponent (marker : ascii) (s : string) : Z * string :=
  match s with
  | String c s1 =>
      if Ascii.eqb (tolower c) marker then
        let '(neg, s2) :=
          match s1 with
          | String "-" t => (true, t)
          | String "+" t => (false, t)
          | _ => (false, s1)
          end in
        let '(e, n, s3) := read_digits digit_value 10 0 O s2 in
        if Nat.eqb n O then (0, s) else (if neg then - e else e, s3)
      else (0, s)
  | EmptyString => (0, s)
  end.

(** The float nearest to [m * 10^k], with the sign [neg]. *)
Definition decimal_value (neg : bool) (m k : Z) : float :=
  match m with
  | Zpos p =>
      if 0 <=? k
      then binary_round prec emax neg (Z.to_pos (Zpos p * 10 ^ k)) 0
      else SFdiv prec emax (S754_finite neg p 0)
             (S754_finite false (Z.to_pos (10 ^ (- k))) 0)
  | _ => S754_zero neg
  end.

(** The float nearest to [m * 2^e], with the sign [neg]. *)
Definition binary_value (neg : bool) (m e : Z) : float :=
  match m with
  | Zpos p => binary_round prec emax neg p e
  | _ => S754_zero neg
  end.

Definition read_decimal (radix : ascii) (neg : bool) (s : string)
  : option (float * string) :=
  match read_mantissa digit_value 10 radix s with
  | Some (m, frac, s1) =>
      let '(e, s2) := read_exponent "e" s1 in
      Some (decimal_value neg m (e - Z.of_nat frac), s2)
  | None => None
  end.

(** A hexadecimal number, after its prefix [0x]. *)
Definition read_hex (radix : ascii) (neg : bool) (s : string)
  : option (float * string) :=
  match read_mantissa hex_value 16 radix s with
  | Some (m, frac, s1) =>
      let '(e, s2) := read_exponent "p" s1 in
      Some (binary_value neg m (e - 4 * Z.of_nat frac), s2)
  | None => None
  end.

(** [inf] or [infinity], in any case. *)
Definition read_inf (neg : bool) (s : string) : option (float * string) :=
  match strip_prefix_ci "inf" s with
  | Some s1 =>
      match strip_prefix_ci "inity" s1 with
      | Some s2 => Some (S754_infinity neg, s2)
      | None => Some (S754_infinity neg, s1)
      end
  | None => None
  end.

(** [nan], in any case, with an optional parenthesised sequence. *)
Definition read_nan (s : string) : option (float * string) :=
  match strip_prefix_ci "nan" s with
  | Some s1 =>
      match s1 with
      | String "(" s2 =>
          match skip_nchars s2 with
          | String ")" s3 => Some (nan, s3)
          | _ => Some (nan, s1)
          end
      | _ => Some (nan, s1)
      end
  | None => None
  end.

(** The subject sequence after the sign: a hexadecimal number, a
    decimal number, an infinity or a NaN.  A prefix [0x] that no
    hexadecimal digit follows leaves the [0] as a decimal number. *)
Definition read_unsigned (radix : ascii) (neg : bool) (s : string)
  : option (float * string) :=
  let hex :=
    match s with
    | String "0" (String x s1) =>
        if Ascii.eqb (tolower x) "x" then read_hex radix neg s1 else None
    | _ => None
    end in
  match hex with
  | Some r => Some r
  | None =>
      match read_decimal radix neg s with
      | Some r => Some r
      | None =>
          match read_inf neg s with
          | Some r => Some r
          | None => read_nan s
          end
      end
  end.

(** [strtof(s, &end)]: the value and what [end] points to.  Leading
    white space and one sign are skipped; when no number follows, the
    value is zero and [end] is [s] itself.  [radix] is the decimal
    point of the numeric locale. *)
Definition strtof (radix : ascii) (s : string) : float * string :=
  let s1 := skip_spaces s in
  let '(neg, s2) :=
    match s1 with
    | String "-" t => (true, t)
    | String "+" t => (false, t)
    | _ => (false, s1)
    end in
  match read_unsigned radix neg s2 with
  | Some r => r
  | None => (plus_zero, s)
  end.

(** [*p] for a pointer into a C string: the character at the head, and
    the terminating zero at the end. *)
Definition deref (s : string) : ascii :=
  match s with
  | String c _ => c
  | EmptyString => zero
  end.

End Strtof.

(** ** The float reader *)

(** [ReadFloat] of the source. *)
Definition ReadFloat (radix : ascii) (s : string) : option Binary32.float :=
  let '(f, end_) := Strtof.strtof radix s in
  if negb (Ascii.eqb (Strtof.deref end_) zero) then None else Some f.

(** ** [getopt_long] *)

(** The GNU implementation, for tables whose options take no argument
    and store no flag (every entry of the program's table has
    [no_argument] and a null [flag]) and for option strings without
    [:].  The scanning state that the C library keeps in static
    variables is the record [data], passed in and out together with
    [argv], which the permutation rewrites.  The C library passes the
    format of each diagnostic through [gettext] before it fills in the
    program name and the option: a call records which message it
    wrote, and the text is the one the message catalog of the process
    has for it. *)

Module Getopt.

Inductive ordering_t : Type := REQUIRE_ORDER | PERMUTE | RETURN_IN_ORDER.

(** [struct option], without the two fields that are constant here. *)
Record option_ : Type := { name : string; val : Z }.

Record data : Type := {
  optind : nat;
  nextchar : option string;
  ordering : ordering_t;
  first_nonopt : nat;
  last_nonopt : nat
}.

Definition with_optind (n : nat) (d : data) : data :=
  {| optind := n; nextchar := nextchar d; ordering := ordering d;
     first_nonopt := first_nonopt d; last_nonopt := last_nonopt d |}.

Definition with_nextchar (p : option string) (d : data) : data :=
  {| optind := optind d; nextchar := p; ordering := ordering d;
     first_nonopt := first_nonopt d; last_nonopt := last_nonopt d |}.

Definition with_first_nonopt (n : nat) (d : data) : data :=
  {| optind := optind d; nextchar := nextchar d; ordering := ordering d;
     first_nonopt := n; last_nonopt := last_nonopt d |}.

Definition with_last_nonopt (n : nat) (d : data) : data :=
  {| optind := optind d; nextchar := nextchar d; ordering := ordering d;
     first_nonopt := first_nonopt d; last_nonopt := n |}.

(** The diagnostics, each with the values that fill its format: the
    program name [argv[0]], and the option as it was given, its name in
    the table, or its letter. *)
Inductive message : Type :=
| Ambiguous_option (program text : string)
| Unrecognized_option (program text : string)
| Argument_not_allowed (program option_name : string)
| Invalid_option (program : string) (c : ascii).

(** The text of a diagnostic whose format is not translated. *)
Definition untranslated (m : message) : string :=
  match m with
  | Ambiguous_option program text =>
      program ++ ": option '--" ++ text
      ++ "' is ambiguous; possibilities:"
  | Unrecognized_option program text =>
      program ++ ": unrecognized option '--" ++ text ++ "'" ++ newline
  | Argument_not_allowed program option_name =>
      program ++ ": option '--" ++ option_name
      ++ "' doesn't allow an argument" ++ newline
  | Invalid_option program c =>
      program ++ ": invalid option -- '" ++ String c "'" ++ newline
  end.

(** What one call hands back: the return value, [argv] and the state
    as the call leaves them, and what it wrote to standard error, if
    anything: a diagnostic, and the text that follows it as it is. *)
Record result : Type := {
  ret : Z;
  argv_out : list string;
  data_out : data;
  diagnostic : option (message * string)
}.

(** The text a call wrote to standard error, in a process whose
    catalog has the text [catalog m] for the diagnostic [m]. *)
Definition written (catalog : message -> string) (r : result) : string :=
  match diagnostic r with
  | Some (m, rest) => catalog m ++ rest
  | None => ""
  end.

(** The state the first call sets up: scanning starts at [argv[1]];
    the order is taken from the head of the option string, then from
    the environment variable [POSIXLY_CORRECT]. *)
Definition initialize (optstring : string) (posixly_correct : bool) : data :=
  {| optind := 1;
     nextchar := None;
     ordering :=
       match optstring with
       | String "-" _ => RETURN_IN_ORDER
       | String "+" _ => REQUIRE_ORDER
       | _ => if posixly_correct then REQUIRE_ORDER else PERMUTE
       end;
     first_nonopt := 1;
     last_nonopt := 1 |}.

(** The option characters, after the character that selects the
    order. *)
Definition option_letters (optstring : string) : string :=
  match optstring with
  | String "-" s => s
  | String "+" s => s
  | _ => optstring
  end.

(** [NONOPTION_P]: an element that does not start with [-], or is [-]
    alone. *)
Definition nonoption (s : string) : bool :=
  match s with
  | String "-" (String _ _) => false
  | _ => true
  end.

(** The loop [while (optind < argc && NONOPTION_P) optind++], run on
    the elements from [argv[optind]] on. *)
Fixpoint skip_nonoptions (rest : list string) (optind : nat) : nat :=
  match rest with
  | s :: rest' => if nonoption s then skip_nonoptions rest' (S optind)
                  else optind
  | [] => optind
  end.

(** [exchange]: the non-options skipped so far, at
    [first_nonopt .. last_nonopt-1], and the options scanned after
    them, at [last_nonopt .. optind-1], trade places, each block in its
    own order. *)
Definition exchange (argv : list string) (d : data) : list string * data :=
  let bottom := first_nonopt d in
  let middle := last_nonopt d in
  let top := optind d in
  ((firstn bottom argv
      ++ firstn (top - middle) (skipn middle argv)
      ++ firstn (middle - bottom) (skipn bottom argv)
      ++ skipn top argv)%list,
   with_last_nonopt top (with_first_nonopt (bottom + (top - middle)) d))%nat.

(** The name of a long option: what precedes the first [=]; and
    whether there is one. *)
Fixpoint split_name (s : string) : string * bool :=
  match s with
  | EmptyString => (EmptyString, false)
  | String c s' =>
      if Ascii.eqb c "=" then (EmptyString, true)
      else let '(n, eq) := split_name s' in (String c n, eq)
  end.

Inductive lookup : Type :=
| Found (p : option_)
| Ambiguous (possibilities : list option_)
| NotFound.

(** The table entry a name denotes: the entry of that name, or else
    the entries the name abbreviates, which must agree on [val]. *)
Definition find_option (longopts : list option_) (n : string) : lookup :=
  match List.find (fun p => String.eqb (name p) n) longopts with
  | Some p => Found p
  | None =>
      match List.filter (fun p => String.prefix n (name p)) longopts with
      | [] => NotFound
      | p :: others =>
          match List.filter (fun q => negb (val q =? val p)) others with
          | [] => Found p
          | differing => Ambiguous (p :: differing)
          end
      end
  end.

Definition quoted_names (l : list option_) : string :=
  String.concat "" (List.map (fun p => " '--" ++ name p ++ "'") l).

(** [process_long_option], entered with [nextchar] after the [--]. *)
Definition process_long_option (argv : list string)
    (longopts : list option_) (d : data) (text : string) : result :=
  let '(n, has_eq) := split_name text in
  let argv0 := nth O argv "" in
  match find_option longopts n with
  | Ambiguous l =>
      {| ret := 63; argv_out := argv;
         data_out := with_optind (S (optind d))
                       (with_nextchar (Some "") d);
         diagnostic := Some (Ambiguous_option argv0 text,
                             quoted_names l ++ newline) |}
  | NotFound =>
      {| ret := 63; argv_out := argv;
         data_out := with_optind (S (optind d)) (with_nextchar None d);
         diagnostic := Some (Unrecognized_option argv0 text, "") |}
  | Found p =>
      let d' := with_nextchar None (with_optind (S (optind d)) d) in
      if has_eq then
        {| ret := 63; argv_out := argv; data_out := d';
           diagnostic := Some (Argument_not_allowed argv0 (name p), "") |}
      else
        {| ret := val p; argv_out := argv; data_out := d';
           diagnostic := None |}
  end.

(** The next character of a cluster of short options; [optind] moves
    on when the cluster ends. *)
Definition short_option (argv : list string) (optstring : string)
    (d : data) (c : ascii) (rest : string) : result :=
  let d1 := with_nextchar (Some rest) d in
  let d2 := match rest with
            | EmptyString => with_optind (S (optind d1)) d1
            | _ => d1
            end in
  if negb (has_char c (option_letters optstring))
     || Ascii.eqb c ":" || Ascii.eqb c ";"
  then
    {| ret := 63; argv_out := argv; data_out := d2;
       diagnostic := Some (Invalid_option (nth O argv "") c, "") |}
  else
    {| ret := code c; argv_out := argv; data_out := d2;
       diagnostic := None |}.

(** The start of a call that finds no cluster pending: the bounds of
    the skipped non-options are repaired, and under [PERMUTE] the
    options just scanned move before them and further non-options are
    skipped. *)
Definition advance (argv : list string) (d : data) : list string * data :=
  let d := if (optind d <? last_nonopt d)%nat
           then with_last_nonopt (optind d) d else d in
  let d := if (optind d <? first_nonopt d)%nat
           then with_first_nonopt (optind d) d else d in
  match ordering d with
  | PERMUTE =>
      let '(argv, d) :=
        if negb (first_nonopt d =? last_nonopt d)%nat
           && negb (last_nonopt d =? optind d)%nat
        then exchange argv d
        else if negb (last_nonopt d =? optind d)%nat
        then (argv, with_first_nonopt (optind d) d)
        else (argv, d) in
      let i := skip_nonoptions (skipn (optind d) argv) (optind d) in
      (argv, with_last_nonopt i (with_optind i d))
  | _ => (argv, d)
  end.

(** The element [--]: it is passed over like an option, and all that
    follows it is left as non-options. *)
Definition end_of_options (argv : list string) (d : data)
  : list string * data :=
  let argc := List.length argv in
  if negb (optind d =? argc)%nat && String.eqb (nth (optind d) argv "") "--"
  then
    let d := with_optind (S (optind d)) d in
    let '(argv, d) :=
      if negb (first_nonopt d =? last_nonopt d)%nat
         && negb (last_nonopt d =? optind d)%nat
      then exchange argv d
      else if (first_nonopt d =? last_nonopt d)%nat
      then (argv, with_first_nonopt (optind d) d)
      else (argv, d) in
    (argv, with_optind argc (with_last_nonopt argc d))
  else (argv, d).

(** A call that finds no cluster pending moves to the next element of
    [argv]: the end of the scan, a non-option, a long option or the
    first character of a cluster. *)
Definition next_element (argv : list string) (optstring : string)
    (longopts : list option_) (d : data) : result :=
  let argc := List.length argv in
  let '(argv, d) := advance argv d in
  let '(argv, d) := end_of_options argv d in
  if (optind d =? argc)%nat then
    let d := if negb (first_nonopt d =? last_nonopt d)%nat
             then with_optind (first_nonopt d) d else d in
    {| ret := -1; argv_out := argv; data_out := d; diagnostic := None |}
  else
    let arg := nth (optind d) argv "" in
    if nonoption arg then
      match ordering d with
      | REQUIRE_ORDER =>
          {| ret := -1; argv_out := argv; data_out := d; diagnostic := None |}
      | _ =>
          {| ret := 1; argv_out := argv;
             data_out := with_optind (S (optind d)) d; diagnostic := None |}
      end
    else
      match arg with
      | String _ (String "-" text) =>
          process_long_option argv longopts d text
      | String _ (String c rest) => short_option argv optstring d c rest
      | _ =>
          {| ret := -1; argv_out := argv; data_out := d; diagnostic := None |}
      end.

(** One call of [getopt_long(argc, argv, optstring, longopts, nullptr)]. *)
Definition getopt_long (argv : list string) (optstring : string)
    (longopts : list option_) (d : data) : result :=
  if (List.length argv <? 1)%nat then
    {| ret := -1; argv_out := argv; data_out := d; diagnostic := None |}
  else
    match nextchar d with
    | Some (String c rest) => short_option argv optstring d c rest
    | _ => next_element argv optstring longopts d
    end.

End Getopt.

(** ** The program *)

Definition kShortUsage : string := "Usage: dewpoint TEMPERATURE HUMIDITY
".

Definition kHelp : string :=
"Compute the dew point from a given temperature and humidity. Temperatures are
interpreted by default according to the current locale; humidity is interpreted
as a percentage.

Options:
      -c, --celsius, --centigrade
                              use the Celsius temperature scale
      -f, --fahrenheit        use the Fahrenheit temperature scale
      --help                  display this help and exit
".

Definition kAskForHelp : string :=
"Try 'dewpoint --help' for more information
".

Definition kHelpLongOption : Z := 128.

Definition long_options : list Getopt.option_ := [
  {| Getopt.name := "celsius"; Getopt.val := code "c" |};
  {| Getopt.name := "centigrade"; Getopt.val := code "c" |};
  {| Getopt.name := "fahrenheit"; Getopt.val := code "f" |};
  {| Getopt.name := "help"; Getopt.val := kHelpLongOption |}
].

(** What the process takes from its environment: the name
    [setlocale(LC_MEASUREMENT, "")] returns ([None] for a null
    pointer), whether [POSIXLY_CORRECT] is set, the decimal point of
    the numeric locale, and the text that the message catalog of the C
    library has for each diagnostic of [getopt_long] in the language
    that [setlocale(LC_ALL, "")] selects. *)
Record environment : Type := {
  lc_measurement : option string;
  posixly_correct : bool;
  decimal_point : ascii;
  messages : Getopt.message -> string
}.

(** How a run ends: with an exit status and what was written to
    standard output and standard error; or in the conversion of a
    dew point that [int] cannot hold, which C++ leaves undefined.
    [OutOfFuel] is the end of a run of the option loop that is cut
    short; [main] gives the loop enough fuel. *)
Inductive outcome : Type :=
| Exit (status : Z) (out err : string)
| UndefinedConversion (dew_point : Binary32.float)
| OutOfFuel.

(** Where the part of [main] before the calculation leaves the run:
    finished, or with a unit, a temperature and a humidity for the
    calculator. *)
Inductive decision : Type :=
| Stop (o : outcome)
| Calculate (use_fahrenheit : bool) (temperature humidity : Binary32.float).

(** How the option loop ends: by [break], with [argv] and the state of
    [getopt_long] as the last call left them; or by a [return]. *)
Inductive loop_end : Type :=
| Break (argv : list string) (d : Getopt.data) (use_fahrenheit : bool)
| Return (o : outcome).

Definition help_text (measurement_locale : string)
    (locale_uses_fahrenheit : bool) : string :=
  kShortUsage ++ kHelp ++ newline ++ "Your current measurement locale is "
  ++ measurement_locale ++ ", which uses "
  ++ (if locale_uses_fahrenheit then "Fahrenheit" else "Celsius")
  ++ " by" ++ newline ++ "default." ++ newline.

(** The loop [while (true)] around [getopt_long]; [err] is what
    [getopt_long] has written to standard error so far, in a process
    with the message catalog [catalog]. *)
Fixpoint option_loop (catalog : Getopt.message -> string) (fuel : nat)
    (measurement_locale : string) (locale_uses_fahrenheit : bool)
    (argv : list string) (d : Getopt.data)
    (use_fahrenheit : bool) (err : string) : loop_end :=
  match fuel with
  | O => Return OutOfFuel
  | S fuel' =>
      let r := Getopt.getopt_long argv "cf" long_options d in
      let c := Getopt.ret r in
      let err := err ++ Getopt.written catalog r in
      let continue_with :=
        option_loop catalog fuel' measurement_locale locale_uses_fahrenheit
          (Getopt.argv_out r) (Getopt.data_out r) in
      if c =? -1 then
        Break (Getopt.argv_out r) (Getopt.data_out r) use_fahrenheit
      else if c =? code "c" then continue_with false err
      else if c =? code "f" then continue_with true err
      else if c =? kHelpLongOption then
        Return (Exit 0 (help_text measurement_locale locale_uses_fahrenheit)
                  err)
      else if c =? code "?" then Return (Exit 1 "" (err ++ kAskForHelp))
      else Return (Exit 1 "" (err ++ "Internal error; please report."
                                  ++ newline))
  end.

(** A bound on the number of calls of [getopt_long] the loop makes:
    each call but the last uses up a character or an element of
    [argv]. *)
Definition loop_fuel (argv : list string) : nat :=
  S (List.fold_right (fun s n => S (String.length s) + n)%nat O argv).

(** The name of the measurement locale: ["C"], replaced by the name
    [setlocale] returns unless it returns a null pointer. *)
Definition measurement_locale_of (env : environment) : string :=
  match lc_measurement env with
  | Some s => s
  | None => "C"
  end.

(** [main] between the option loop and the calculation: the count of
    the remaining arguments is checked against [optind], and
    [argv[1]] and [argv[2]] are read as temperature and humidity. *)
Definition read_arguments (env : environment) (argv : list string)
    (optind : nat) (use_fahrenheit : bool) : decision :=
  let argc := Z.of_nat (List.length argv) in
  if negb (Z.of_nat optind =? argc - 2) then
    Stop (Exit 1 "" (kShortUsage ++ kAskForHelp))
  else
    match ReadFloat (decimal_point env) (nth 1 argv "") with
    | None =>
        Stop (Exit 1 "" ("dewpoint: invalid temperature " ++ dquote
                         ++ nth 1 argv "" ++ dquote ++ newline
                         ++ kAskForHelp))
    | Some temperature =>
        match ReadFloat (decimal_point env) (nth 2 argv "") with
        | None =>
            Stop (Exit 1 "" ("dewpoint: invalid humidity " ++ dquote
                             ++ nth 1 argv "" ++ dquote ++ newline
                             ++ kAskForHelp))
        | Some humidity =>
            if Binary32.le humidity Binary32.plus_zero then
              Stop (Exit 1 "" ("dewpoint: invalid humidity " ++ dquote
                               ++ nth 1 argv "" ++ dquote ++ newline
                               ++ kAskForHelp))
            else Calculate use_fahrenheit temperature humidity
        end
    end.

(** [main] up to the calculation. *)
Definition parse (env : environment) (argv : list string) : decision :=
  let measurement_locale := measurement_locale_of env in
  let locale_uses_fahrenheit := LocaleUsesFahrenheit measurement_locale in
  match option_loop (messages env) (loop_fuel argv) measurement_locale
          locale_uses_fahrenheit argv
          (Getopt.initialize "cf" (posixly_correct env))
          locale_uses_fahrenheit "" with
  | Return o => Stop o
  | Break argv d use_fahrenheit =>
      read_arguments env argv (Getopt.optind d) use_fahrenheit
  end.

(** [std::cout << n]: the decimal digits, after [-] when negative. *)
Definition print_int (n : Z) : string := NilZero.string_of_int (Z.to_int n).

(** The end of [main]: the calculation and the output of its result. *)
Definition report (logf : Binary32.float -> Binary32.float)
    (use_fahrenheit : bool) (temperature humidity : Binary32.float)
  : outcome :=
  let dew_point :=
    if use_fahrenheit
    then @DewPointFahrenheit _ (binary32_arithmetic logf) temperature humidity
    else @DewPoint _ (binary32_arithmetic logf) temperature humidity in
  match Binary32.to_int (Binary32.rintf dew_point) with
  | Some n => Exit 0 (print_int n ++ newline) ""
  | None => UndefinedConversion dew_point
  end.

(** [main] of the source; [argv] holds the program name and the
    arguments, [argc] is its length. *)
Definition main (logf : Binary32.float -> Binary32.float)
    (env : environment) (argv : list string) : outcome :=
  match parse env argv with
  | Stop o => o
  | Calculate use_fahrenheit temperature humidity =>
      report logf use_fahrenheit temperature humidity
  end.

(** ** Vocabulary of the statements *)

(** The calculator on [float], over a given [logf]. *)
Definition DewPoint32 (logf : Binary32.float -> Binary32.float)
    (celsius humidity : Binary32.float) : Binary32.float :=
  @DewPoint _ (binary32_arithmetic logf) celsius humidity.

Definition DewPointFahrenheit32 (logf : Binary32.float -> Binary32.float)
    (fahrenheit humidity : Binary32.float) : Binary32.float :=
  @DewPointFahrenheit _ (binary32_arithmetic logf) fahrenheit humidity.


(** The power of two of an exponent. *)
Definition bpow (e : Z) : R := powerRZ 2 e.

Definition sign_of (s : bool) : R := if s then (-1)%R else 1%R.

(** The real number a float stands for; zero for the infinities and
    NaN, which [is_finite] tells apart. *)
Definition B2R (f : spec_float) : R :=
  match f with
  | S754_finite s m e => (sign_of s * IZR (Zpos m) * bpow e)%R
  | _ => 0%R
  end.

Definition is_finite (f : spec_float) : bool :=
  match f with
  | S754_zero _ | S754_finite _ _ _ => true
  | _ => false
  end.

(** The finite values of [float]: a zero, or a mantissa and an
    exponent in the canonical form of the format. *)
Definition fin_valid (f : Binary32.float) : Prop :=
  is_finite f = true /\
  valid_binary Binary32.prec Binary32.emax f = true.

(** Where the real number [v] lies with respect to the mantissa and
    the round and sticky bits of a shifted record. *)
Definition located (mrs : shr_record) (v : R) : Prop :=
  let m := IZR (shr_m mrs) in
  match shr_r mrs, shr_s mrs with
  | false, false => v = m
  | false, true => (m < v < m + / 2)%R
  | true, false => v = (m + / 2)%R
  | true, true => (m + / 2 < v < m + 1)%R
  end.

(** The formula of the specification, on the real numbers:
    [B*x/(A-x)] with [x = ln(H/100) + A*T/(B+T)], [A = 17.625] and
    [B = 243.04]. *)
Definition magnus (T H : R) : R :=
  let A := 17.625%R in
  let B := 243.04%R in
  let x := (ln (H / 100) + A * T / (B + T))%R in
  (B * x / (A - x))%R.


(** A [logf] that is accurate at the argument [y]: its value there is
    finite and within [2^-20] of the natural logarithm.  (One unit in
    the last place of a float between 4 and 8 is [2^-21].) *)
Definition accurate_at (logf : Binary32.float -> Binary32.float)
    (y : Binary32.float) : Prop :=
  fin_valid (logf y) /\
  (Rabs (B2R (logf y) - ln (B2R y)) <= bpow (-20))%R.

(** The float of an integer of at most 24 bits. *)
Definition float_of_Z (n : Z) : Binary32.float :=
  Binary32.float_literal (inject_Z n).

(** The values [strtof] gives to the tokens [nan], [inf] and [-inf]. *)
Definition nonfinite (t : Binary32.float) : Prop :=
  t = Binary32.nan \/ t = S754_infinity false \/ t = S754_infinity true.

(** A logarithm known at three arguments only: zero at one, the float
    nearest to [ln (1/2)] at one half, NaN at NaN (and NaN wherever
    else it is asked).  It instantiates the statements that assume such
    values of [logf]. *)
Definition logf_sample (x : Binary32.float) : Binary32.float :=
  match x with
  | S754_finite false 8388608 (-23) => Binary32.plus_zero
  | S754_finite false 8388608 (-24) =>
      Binary32.float_literal (-0.693147182464599609375)
  | _ => Binary32.nan
  end.

(** An environment: a United States locale, GNU option order, [.] as
    decimal point, diagnostics that are not translated. *)
Definition sample_environment : environment :=
  {| lc_measurement := Some "en_US.UTF-8";
     posixly_correct := false;
     decimal_point := ".";
     messages := Getopt.untranslated |}.

(** The room an element takes in the measure of the option loop: one
    for the element and one for each of its characters. *)
Definition size (l : list string) : nat :=
  List.fold_right (fun s n => S (String.length s) + n)%nat O l.

(** What [getopt_long] has still to scan: the characters of the
    cluster it is in, and the elements after the one it stands on. *)
Definition measure (argv : list string) (d : Getopt.data) : nat :=
  match Getopt.nextchar d with
  | Some (String c rest) =>
      (S (String.length rest) + size (skipn (S (Getopt.optind d)) argv))%nat
  | _ => size (skipn (Getopt.optind d) argv)
  end.

(** The states the scan passes through: the skipped non-options lie
    before the scanned position, which lies within [argv]. *)
Definition well_formed (argv : list string) (d : Getopt.data) : Prop :=
  (Getopt.first_nonopt d <= Getopt.last_nonopt d)%nat /\
  (Getopt.last_nonopt d <= Getopt.optind d)%nat /\
  match Getopt.nextchar d with
  | Some (String c rest) => (Getopt.optind d < List.length argv)%nat
  | _ => (Getopt.optind d <= List.length argv)%nat
  end.

(** A cluster made of the letters [c] and [f] only. *)
Fixpoint unit_letters (s : string) : bool :=
  match s with
  | EmptyString => true
  | String c s' => (Ascii.eqb c "c" || Ascii.eqb c "f") && unit_letters s'
  end.

(** An element of [argv] that selects a unit and nothing else: a
    cluster such as [-c] or [-fc], or [--celsius], [--centigrade],
    [--fahrenheit] or an abbreviation of one of them. *)
Definition unit_flag (s : string) : bool :=
  match s with
  | String "-" (String "-" text) =>
      let '(n, has_eq) := Getopt.split_name text in
      negb has_eq
      && match Getopt.find_option long_options n with
         | Getopt.Found p =>
             (Getopt.val p =? code "c") || (Getopt.val p =? code "f")
         | _ => false
         end
  | String "-" (String c rest) => unit_letters (String c rest)
  | _ => false
  end.

(** An element of [argv] that asks for help: [--help] or an
    abbreviation of it. *)
Definition help_flag (s : string) : bool :=
  match s with
  | String "-" (String "-" text) =>
      let '(n, has_eq) := Getopt.split_name text in
      negb has_eq
      && match Getopt.find_option long_options n with
         | Getopt.Found p => Getopt.val p =? kHelpLongOption
         | _ => false
         end
  | _ => false
  end.

(** The place of the first option scanned, once one has been: before
    the skipped non-options when options stand there, after them
    otherwise. *)
Definition first_option (d : Getopt.data) : nat :=
  if (Getopt.first_nonopt d =? 1)%nat then Getopt.last_nonopt d else 1%nat.

(** The states the option loop passes through after [getopt_long] has
    returned a unit: the first option scanned is a unit flag, and the
    cluster the scan is in, if any, starts with unit letters. *)
Definition scanned (argv : list string) (d : Getopt.data) : Prop :=
  (1 <= Getopt.first_nonopt d <= Getopt.last_nonopt d)%nat /\
  (Getopt.last_nonopt d <= Getopt.optind d)%nat /\
  (Getopt.ordering d = Getopt.PERMUTE \/
   (Getopt.ordering d = Getopt.REQUIRE_ORDER /\
    Getopt.first_nonopt d = 1%nat /\ Getopt.last_nonopt d = 1%nat)) /\
  match Getopt.nextchar d with
  | Some (String c cs) =>
      (Getopt.optind d < List.length argv)%nat /\
      (exists pre : string,
         pre <> "" /\ unit_letters pre = true /\
         nth (Getopt.optind d) argv "" = String "-" (pre ++ String c cs)) /\
      ((first_option d < Getopt.optind d)%nat ->
       unit_flag (nth (first_option d) argv "") = true)
  | _ =>
      (Getopt.optind d <= List.length argv)%nat /\
      (first_option d < Getopt.optind d)%nat /\
      unit_flag (nth (first_option d) argv "") = true
  end.

(** What may precede a request for help without hiding it: a unit
    flag, or, when [getopt_long] permutes, a non-option. *)
Definition passes_to_help (ord : Getopt.ordering_t) (s : string) : Prop :=
  unit_flag s = true \/ (ord = Getopt.PERMUTE /\ Getopt.nonoption s = true).

(** The order in which the environment makes [getopt_long] scan. *)
Definition ordering_of (env : environment) : Getopt.ordering_t :=
  Getopt.ordering (Getopt.initialize "cf" (posixly_correct env)).

(** * Proofs *)

Section LocaleProofs.

(** *** Strings *)

Lemma string_app_assoc (a b c : string) : (a ++ b) ++ c = a ++ b ++ c.
Proof.
  induction a as [|x a IH]; simpl; [reflexivity | now rewrite IH].
Qed.

Lemma string_app_nil_r (a : string) : a ++ "" = a.
Proof.
  induction a as [|x a IH]; simpl; [reflexivity | now rewrite IH].
Qed.

Lemma string_length_app (a b : string) :
  String.length (a ++ b) = (String.length a + String.length b)%nat.
Proof.
  induction a as [|x a IH]; simpl; [reflexivity | now rewrite IH].
Qed.

Lemma index_of_bound (c : ascii) (s : string) (i : nat) :
  index_of c s = Some i -> (i < String.length s)%nat.
Proof.
  revert i; induction s as [|a s IH]; simpl; intros i H; [discriminate|].
  destruct (Ascii.eqb a c).
  - injection H as <-. lia.
  - destruct (index_of c s) as [j|]; [|discriminate].
    injection H as <-. specialize (IH j eq_refl). lia.
Qed.

Lemma index_of_split (c : ascii) (s : string) (i : nat) :
  index_of c s = Some i ->
  exists pre post,
    s = pre ++ String c post /\ String.length pre = i /\ has_char c pre = false.
Proof.
  revert i; induction s as [|a s IH]; simpl; intros i H; [discriminate|].
  destruct (Ascii.eqb a c) eqn:E.
  - injection H as <-. apply Ascii.eqb_eq in E. subst a.
    exists "", s. auto.
  - destruct (index_of c s) as [j|]; [|discriminate].
    injection H as <-.
    destruct (IH j eq_refl) as (pre & post & -> & Hl & Hn).
    exists (String a pre), post. simpl. rewrite E, Hn, Hl. auto.
Qed.

Lemma index_of_app (c : ascii) (pre post : string) :
  has_char c pre = false ->
  index_of c (pre ++ String c post) = Some (String.length pre).
Proof.
  induction pre as [|a pre IH]; simpl; intros H.
  - now rewrite Ascii.eqb_refl.
  - apply orb_false_iff in H as [Ha Hp]. now rewrite Ha, IH.
Qed.

Lemma has_char_app (c : ascii) (s t : string) :
  has_char c (s ++ t) = has_char c s || has_char c t.
Proof.
  induction s as [|a s IH]; simpl; [reflexivity|].
  now rewrite IH, orb_assoc.
Qed.

Lemma substring_middle (pre mid post : string) :
  substring (String.length pre) (String.length mid) (pre ++ mid ++ post) = mid.
Proof.
  induction pre as [|a pre IH]; simpl; [|exact IH].
  induction mid as [|b mid IHm]; simpl.
  - now destruct post.
  - now rewrite IHm.
Qed.

Lemma app_eq_length (a b c d : string) :
  a ++ b = c ++ d -> (String.length a <= String.length c)%nat ->
  exists m, c = a ++ m /\ b = m ++ d.
Proof.
  revert c; induction a as [|x a IH]; simpl; intros c H Hl.
  - exists c. auto.
  - destruct c as [|y c]; simpl in *; [lia|].
    injection H as -> H.
    destruct (IH c H ltac:(lia)) as (m & -> & ->).
    exists m. auto.
Qed.

Lemma substring_territory (pre t post : string) :
  substring (S (String.length pre)) (String.length t)
    (pre ++ "_" ++ t ++ "." ++ post) = t.
Proof.
  replace (S (String.length pre)) with (String.length (pre ++ "_"))
    by (rewrite string_length_app; simpl; lia).
  replace (pre ++ "_" ++ t ++ "." ++ post)
    with ((pre ++ "_") ++ t ++ String "." post)
    by (rewrite !string_app_assoc; reflexivity).
  apply substring_middle.
Qed.

(** *** Conversions between [size_t] and [int] *)

Lemma to_int_small (z : Z) : 0 <= z < 2 ^ 31 -> to_int z = z.
Proof.
  intros H. unfold to_int. rewrite Z.mod_small; lia.
Qed.

Lemma to_size_t_small (z : Z) : 0 <= z < 2 ^ 64 -> to_size_t z = z.
Proof.
  intros H. unfold to_size_t, size_t_modulus. now rewrite Z.mod_small.
Qed.

Lemma to_int_npos : to_int npos = -1.
Proof. reflexivity. Qed.

Lemma find_cases (c : ascii) (s : string) :
  Z.of_nat (String.length s) < 2 ^ 31 ->
  (index_of c s = None /\ to_int (find c s) = -1) \/
  (exists i, index_of c s = Some i /\ to_int (find c s) = Z.of_nat i /\
             0 <= Z.of_nat i < 2 ^ 31).
Proof.
  intros Hlen. unfold find.
  destruct (index_of c s) as [i|] eqn:E.
  - right. exists i. apply index_of_bound in E.
    rewrite to_int_small by lia. repeat split; lia.
  - left. split; [reflexivity | apply to_int_npos].
Qed.

Lemma in_territories (t : string) :
  String.eqb t "US" || String.eqb t "LR" || String.eqb t "FM"
  || String.eqb t "KY" || String.eqb t "MH" || String.eqb t "PW" = true
  <-> In t fahrenheit_territories.
Proof.
  unfold fahrenheit_territories. simpl.
  rewrite !orb_true_iff, !String.eqb_eq. intuition congruence.
Qed.

Lemma territory_shape (t : string) :
  In t fahrenheit_territories ->
  has_char "." t = false /\ String.length t = 2%nat.
Proof.
  unfold fahrenheit_territories. simpl.
  intros [<-|[<-|[<-|[<-|[<-|[<-|[]]]]]]]; split; reflexivity.
Qed.

(** The result in terms of the two positions. *)
Lemma LocaleUsesFahrenheit_positions (locale : string) :
  Z.of_nat (String.length locale) < 2 ^ 31 ->
  LocaleUsesFahrenheit locale = true <->
  exists u d,
    index_of "_" locale = Some u /\ index_of "." locale = Some d /\
    (u < d)%nat /\
    In (substring (S u) (d - u - 1) locale) fahrenheit_territories.
Proof.
  intros Hlen. unfold LocaleUsesFahrenheit.
  destruct (find_cases "_" locale Hlen) as [[Eu ->]|(u & Eu & -> & Hu)].
  { simpl. split; [discriminate|]. intros (u & d & H & _). congruence. }
  destruct (find_cases "." locale Hlen) as [[Ed ->]|(d & Ed & -> & Hd)].
  { replace (to_size_t (-1) =? npos) with true by reflexivity.
    rewrite orb_true_r. simpl.
    split; [discriminate|]. intros (u' & d' & _ & H & _). congruence. }
  rewrite !to_size_t_small by lia.
  replace (Z.of_nat u =? npos) with false
    by (symmetry; apply Z.eqb_neq; unfold npos, size_t_modulus; lia).
  replace (Z.of_nat d =? npos) with false
    by (symmetry; apply Z.eqb_neq; unfold npos, size_t_modulus; lia).
  simpl orb.
  destruct (Z.leb_spec (Z.of_nat d) (Z.of_nat u)) as [Hle|Hlt].
  { split; [discriminate|]. intros (u' & d' & H1 & H2 & H3 & _).
    rewrite Eu in H1. rewrite Ed in H2.
    injection H1 as <-. injection H2 as <-. lia. }
  cbv zeta. rewrite in_territories. unfold substr.
  rewrite !to_size_t_small by lia.
  replace (Z.to_nat (Z.of_nat u + 1)) with (S u) by lia.
  replace (Z.to_nat (Z.of_nat d - Z.of_nat u - 1)) with (d - u - 1)%nat by lia.
  split.
  - intros H. exists u, d. repeat split; auto; lia.
  - intros (u' & d' & H1 & H2 & _ & H).
    rewrite Eu in H1. rewrite Ed in H2.
    injection H1 as <-. injection H2 as <-. exact H.
Qed.

(** C3, as amended. [LocaleUsesFahrenheit] answers [true] exactly for
    the locales [pre_TERRITORY.post] in which [pre] holds neither an
    underscore nor a dot and [TERRITORY] is one of US, LR, FM, KY, MH,
    PW: the dot that counts is the first dot of the whole string, it
    must come after the first underscore, and the text between the two
    must be one of the six codes, character for character.  In
    particular [en_USA.UTF-8], [C] and [en] give [false]. *)
Theorem LocaleUsesFahrenheit_territory :
  (forall locale : string,
     Z.of_nat (String.length locale) < 2 ^ 31 ->
     (LocaleUsesFahrenheit locale = true <->
      exists pre territory post,
        locale = pre ++ "_" ++ territory ++ "." ++ post /\
        has_char "_" pre = false /\ has_char "." pre = false /\
        In territory fahrenheit_territories)) /\
  LocaleUsesFahrenheit "en_USA.UTF-8" = false /\
  LocaleUsesFahrenheit "C" = false /\
  LocaleUsesFahrenheit "en" = false.
Proof.
  split; [|repeat split; reflexivity].
  intros locale Hlen.
  rewrite (LocaleUsesFahrenheit_positions locale Hlen).
  split.
  - intros (u & d & Hu & Hd & Hlt & Hin).
    destruct (index_of_split _ _ _ Hu) as (pre & rest & E1 & L1 & N1).
    destruct (index_of_split _ _ _ Hd) as (pre2 & post & E2 & L2 & N2).
    assert (Hm : exists m, pre2 = pre ++ m /\ String "_" rest = m ++ String "." post).
    { apply app_eq_length; [congruence | lia]. }
    destruct Hm as (m & -> & Hm).
    destruct m as [|x m]; simpl in Hm.
    { rewrite string_app_nil_r in L2. lia. }
    injection Hm as <- ->.
    exists pre, m, post.
    rewrite has_char_app in N2. apply orb_false_iff in N2 as [N2 _].
    repeat split; auto.
    rewrite E1 in Hin.
    assert (Hl : (d - u - 1)%nat = String.length m).
    { rewrite <- L2, <- L1, string_length_app. simpl. lia. }
    rewrite Hl, <- L1 in Hin.
    pose proof (substring_territory pre m post) as Hs. simpl in Hs.
    now rewrite Hs in Hin.
  - intros (pre & t & post & -> & N1 & N2 & Hin).
    destruct (territory_shape t Hin) as [Nt Lt].
    exists (String.length pre), (String.length (pre ++ "_" ++ t)).
    split; [apply (index_of_app "_" pre (t ++ "." ++ post) N1)|].
    split.
    { replace (pre ++ "_" ++ t ++ "." ++ post)
        with ((pre ++ "_" ++ t) ++ String "." post).
      - apply index_of_app. rewrite !has_char_app, N2, Nt. reflexivity.
      - rewrite !string_app_assoc; reflexivity. }
    rewrite !string_length_app. simpl String.length.
    split; [lia|].
    replace (String.length pre + (1 + String.length t) - String.length pre - 1)%nat
      with (String.length t) by lia.
    rewrite (substring_territory pre t post). exact Hin.
Qed.

(** C3 fails as stated: in [a.b_US.UTF-8] the text between the first
    underscore and the first dot after it is [US], and the answer is
    [false], because a dot stands before the underscore. *)
Lemma LocaleUsesFahrenheit_dot_before_underscore :
  territory_after_underscore "a.b_US.UTF-8" = Some "US" /\
  uses_fahrenheit_by_territory "a.b_US.UTF-8" = true /\
  LocaleUsesFahrenheit "a.b_US.UTF-8" = false.
Proof. repeat split. Qed.

Lemma LocaleUsesFahrenheit_territory_witness :
  Z.of_nat (String.length "en_US.UTF-8") < 2 ^ 31 /\
  LocaleUsesFahrenheit "en_US.UTF-8" = true.
Proof.
  split; [reflexivity|].
  apply (proj1 LocaleUsesFahrenheit_territory "en_US.UTF-8");
    [reflexivity|].
  exists "en", "US", "UTF-8". repeat split.
  unfold fahrenheit_territories. simpl. auto.
Defined.

End LocaleProofs.

Section ShapeProofs.

(** *** The calculator on [float] *)

Import Binary32.

Lemma kA_binary32 (logf : float -> float) :
  @kA _ (binary32_arithmetic logf) = Binary32.float_literal 17.625.
Proof. vm_compute. reflexivity. Qed.

Lemma kB_binary32 (logf : float -> float) :
  @kB _ (binary32_arithmetic logf) = Binary32.float_literal 243.04.
Proof. vm_compute. reflexivity. Qed.

Lemma DewPoint32_formula (logf : float -> float) (T H : float) :
  DewPoint32 logf T H =
  let A := Binary32.float_literal 17.625 in
  let B := Binary32.float_literal 243.04 in
  let x := Binary32.add
             (logf (Binary32.mul H (Binary32.float_literal 0.01)))
             (Binary32.div (Binary32.mul A T) (Binary32.add B T)) in
  Binary32.div (Binary32.mul B x) (Binary32.sub A x).
Proof.
  unfold DewPoint32, DewPoint.
  rewrite kA_binary32, kB_binary32. reflexivity.
Qed.

Lemma DewPointFahrenheit32_formula (logf : float -> float) (F H : float) :
  DewPointFahrenheit32 logf F H =
  Binary32.add
    (Binary32.mul (Binary32.div (float_of_Z 9) (float_of_Z 5))
       (DewPoint32 logf
          (Binary32.mul (Binary32.div (float_of_Z 5) (float_of_Z 9))
             (Binary32.sub F (float_of_Z 32))) H))
    (float_of_Z 32).
Proof. reflexivity. Qed.

End ShapeProofs.

Section PoleProofs.

Import Binary32.





End PoleProofs.

Section RoundingProofs.

(** *** Rounding to nearest *)

Lemma bpow_pos e : (0 < bpow e)%R.
Proof. apply powerRZ_lt. lra. Qed.

Lemma bpow_add a b : bpow (a + b) = (bpow a * bpow b)%R.
Proof. apply powerRZ_add. lra. Qed.

Lemma bpow_0 : bpow 0 = 1%R.
Proof. reflexivity. Qed.

Lemma bpow_1 : bpow 1 = 2%R.
Proof. unfold bpow, powerRZ. simpl. lra. Qed.

Lemma bpow_m1 : bpow (-1) = (/ 2)%R.
Proof. unfold bpow, powerRZ. simpl. f_equal. lra. Qed.

Lemma bpow_IZR k : 0 <= k -> bpow k = IZR (2 ^ k).
Proof.
  intros Hk. unfold bpow. rewrite <- (Z2Nat.id k) by exact Hk.
  rewrite <- pow_powerRZ. rewrite <- Zpower_nat_Z.
  induction (Z.to_nat k) as [|n IH].
  - reflexivity.
  - rewrite Zpower_nat_succ_r, mult_IZR, <- IH. cbn. lra.
Qed.

Lemma bpow_le a b : a <= b -> (bpow a <= bpow b)%R.
Proof.
  intros H. replace b with (a + (b - a)) by lia.
  rewrite bpow_add. rewrite (bpow_IZR (b - a)) by lia.
  assert (1 <= 2 ^ (b - a)) by (apply (Z.pow_le_mono_r 2 0); lia).
  apply IZR_le in H0. pose proof (bpow_pos a). nra.
Qed.

Lemma bpow_lt a b : a < b -> (bpow a < bpow b)%R.
Proof.
  intros H. replace b with (a + (b - a)) by lia.
  rewrite bpow_add. rewrite (bpow_IZR (b - a)) by lia.
  assert (2 ^ 1 <= 2 ^ (b - a)) by (apply Z.pow_le_mono_r; lia).
  apply IZR_le in H0. change (2 ^ 1) with 2 in H0.
  pose proof (bpow_pos a). nra.
Qed.

Lemma bpow_lt_inv a b : (bpow a < bpow b)%R -> a < b.
Proof.
  intros H. destruct (Z_lt_le_dec a b) as [|Hle]; [assumption|].
  apply bpow_le in Hle. lra.
Qed.

Lemma bpow_opp a : bpow (- a) = (/ bpow a)%R.
Proof.
  pose proof (bpow_add a (- a)) as H. rewrite Z.add_opp_diag_r, bpow_0 in H.
  pose proof (bpow_pos a). apply Rmult_eq_reg_l with (bpow a); [|lra].
  rewrite <- H. field. lra.
Qed.

Lemma digits2_pos_bounds (p : positive) :
  2 ^ (Zpos (digits2_pos p) - 1) <= Zpos p < 2 ^ Zpos (digits2_pos p).
Proof.
  induction p as [p IH|p IH|]; cbn [digits2_pos].
  - rewrite Pos2Z.inj_succ.
    replace (Z.succ (Zpos (digits2_pos p)) - 1)
      with (Z.succ (Zpos (digits2_pos p) - 1)) by lia.
    rewrite !Z.pow_succ_r by lia. lia.
  - rewrite Pos2Z.inj_succ.
    replace (Z.succ (Zpos (digits2_pos p)) - 1)
      with (Z.succ (Zpos (digits2_pos p) - 1)) by lia.
    rewrite !Z.pow_succ_r by lia. lia.
  - cbn. lia.
Qed.

Lemma Zdigits2_bounds (m : Z) :
  0 < m -> 2 ^ (Zdigits2 m - 1) <= m < 2 ^ Zdigits2 m.
Proof.
  destruct m as [|p|p]; try lia. intros _. apply digits2_pos_bounds.
Qed.

Lemma Zdigits2_nonneg (m : Z) : 0 <= Zdigits2 m.
Proof. destruct m; cbn; lia. Qed.

Lemma Zdigits2_ge (m : Z) (k : Z) : 0 <= k -> 2 ^ k <= m -> k + 1 <= Zdigits2 m.
Proof.
  intros Hk H. assert (0 < m) by (pose proof (Z.pow_pos_nonneg 2 k); lia).
  destruct (Zdigits2_bounds m H0) as [_ Hu].
  destruct (Z_lt_le_dec k (Zdigits2 m)); [lia|].
  assert (2 ^ Zdigits2 m <= 2 ^ k)
    by (apply Z.pow_le_mono_r; [lia|assumption]).
  lia.
Qed.

Lemma Zdigits2_le (m : Z) (k : Z) : 0 <= k -> 0 <= m -> m < 2 ^ k -> Zdigits2 m <= k.
Proof.
  intros Hk H0 H. destruct (Z.eq_dec m 0) as [->|Hn]; [cbn; lia|].
  destruct (Zdigits2_bounds m ltac:(lia)) as [Hl _].
  destruct (Z_le_gt_dec (Zdigits2 m) k); [assumption|].
  assert (2 ^ k <= 2 ^ (Zdigits2 m - 1)) by (apply Z.pow_le_mono_r; lia).
  lia.
Qed.

(** The real [v] lies where the record says: at [m], strictly between
    [m] and [m + 1/2], at [m + 1/2], or strictly between [m + 1/2] and
    [m + 1]. *)
Lemma IZR_xO p : IZR (Zpos p~0) = (2 * IZR (Zpos p))%R.
Proof. rewrite Pos2Z.inj_xO, mult_IZR. reflexivity. Qed.

Lemma IZR_xI p : IZR (Zpos p~1) = (2 * IZR (Zpos p) + 1)%R.
Proof. rewrite Pos2Z.inj_xI, plus_IZR, mult_IZR. reflexivity. Qed.

Lemma located_bounds mrs v :
  located mrs v -> (IZR (shr_m mrs) <= v < IZR (shr_m mrs) + 1)%R.
Proof.
  unfold located. destruct (shr_r mrs), (shr_s mrs); cbv zeta; lra.
Qed.

Lemma shr_1_located mrs v :
  0 <= shr_m mrs -> located mrs v ->
  located (shr_1 mrs) (v / 2) /\ 0 <= shr_m (shr_1 mrs).
Proof.
  destruct mrs as [m r s]. cbn [shr_m]. intros Hm.
  destruct m as [|p|p]; [| |lia].
  - unfold located. cbn [shr_1 shr_m shr_r shr_s].
    destruct r, s; cbn [orb]; cbv beta iota zeta; intros H; split;
      try lia; lra.
  - destruct p as [p|p|]; unfold located; cbn [shr_1 shr_m shr_r shr_s];
      [rewrite (IZR_xI p)|rewrite (IZR_xO p)|]; destruct r, s; cbn [orb];
      cbv beta iota zeta; intros H; split; try lia; lra.
Qed.

Lemma iter_pos_shr_1_located (n : positive) :
  forall mrs v,
    0 <= shr_m mrs -> located mrs v ->
    located (iter_pos shr_1 n mrs) (v * bpow (- Zpos n)) /\
    0 <= shr_m (iter_pos shr_1 n mrs).
Proof.
  induction n as [n IH|n IH|]; intros mrs v Hm Hl; cbn [iter_pos].
  - destruct (shr_1_located mrs v Hm Hl) as [H1 H1'].
    destruct (IH _ _ H1' H1) as [H2 H2'].
    destruct (IH _ _ H2' H2) as [H3 H3'].
    split; [|assumption].
    assert (E : (v * bpow (- Zpos n~1)
                 = v / 2 * bpow (- Zpos n) * bpow (- Zpos n))%R).
    { replace (- Zpos n~1) with (-1 + (- Zpos n + - Zpos n)) by lia.
      rewrite !bpow_add, bpow_m1. lra. }
    rewrite E. exact H3.
  - destruct (IH _ _ Hm Hl) as [H2 H2'].
    destruct (IH _ _ H2' H2) as [H3 H3'].
    split; [|assumption].
    assert (E : (v * bpow (- Zpos n~0)
                 = v * bpow (- Zpos n) * bpow (- Zpos n))%R).
    { replace (- Zpos n~0) with (- Zpos n + - Zpos n) by lia.
      rewrite !bpow_add. lra. }
    rewrite E. exact H3.
  - destruct (shr_1_located mrs v Hm Hl) as [H1 H1'].
    split; [|assumption].
    assert (E : (v * bpow (- Zpos 1) = v / 2)%R).
    { change (- Zpos 1) with (-1). rewrite bpow_m1. lra. }
    rewrite E. exact H1.
Qed.

Lemma round_nearest_even_located mrs v :
  located mrs v ->
  let N := round_nearest_even (shr_m mrs) (loc_of_shr_record mrs) in
  (Rabs (IZR N - v) <= / 2)%R /\
  (N = shr_m mrs \/ N = shr_m mrs + 1).
Proof.
  destruct mrs as [m r s]. unfold located.
  cbn [shr_m shr_r shr_s loc_of_shr_record round_nearest_even].
  destruct r, s; cbv beta iota zeta; unfold round_nearest_even; intros H.
  - rewrite plus_IZR. split; [|now right].
    apply Rabs_le. lra.
  - destruct (Z.even m); [|rewrite plus_IZR]; split; auto;
      apply Rabs_le; lra.
  - split; [|now left]. apply Rabs_le. lra.
  - split; [|now left]. apply Rabs_le. lra.
Qed.

Lemma shr_record_of_loc_m m l : shr_m (shr_record_of_loc m l) = m.
Proof. destruct l as [|[]]; reflexivity. Qed.

Lemma located_exact m : located (shr_record_of_loc m loc_Exact) (IZR m).
Proof. reflexivity. Qed.

Lemma loc_of_shr_record_of_loc m l :
  loc_of_shr_record (shr_record_of_loc m l) = l.
Proof. destruct l as [|[]]; reflexivity. Qed.

Lemma fexp_eq e : fexp 24 128 e = Z.max (e - 24) (-149).
Proof. reflexivity. Qed.

Lemma shr_fexp_located (mx ex : Z) (lx : location) (v : R) :
  0 <= mx ->
  located (shr_record_of_loc mx lx) v ->
  ex <= fexp 24 128 (Zdigits2 mx + ex) ->
  let e0 := fexp 24 128 (Zdigits2 mx + ex) in
  exists mrs,
    shr_fexp 24 128 mx ex lx = (mrs, e0) /\
    located mrs (v * bpow (ex - e0)) /\ 0 <= shr_m mrs.
Proof.
  intros Hm Hl Hal e0. unfold shr_fexp, shr. fold e0.
  destruct (e0 - ex) as [|p|p] eqn:En; [| |lia].
  - exists (shr_record_of_loc mx lx).
    replace e0 with ex by lia. rewrite Z.sub_diag, bpow_0, Rmult_1_r.
    rewrite shr_record_of_loc_m. auto.
  - exists (iter_pos shr_1 p (shr_record_of_loc mx lx)).
    replace (ex + Zpos p) with e0 by lia. split; [reflexivity|].
    replace (ex - e0) with (- Zpos p) by lia.
    apply iter_pos_shr_1_located; [now rewrite shr_record_of_loc_m|exact Hl].
Qed.

Lemma IZR_pow2_lt (m k : Z) : 0 <= k -> (IZR m < bpow k)%R -> m < 2 ^ k.
Proof. intros Hk H. rewrite bpow_IZR in H by exact Hk. now apply lt_IZR. Qed.

Lemma IZR_pow2_le (m k : Z) : 0 <= k -> (bpow k <= IZR m)%R -> 2 ^ k <= m.
Proof. intros Hk H. rewrite bpow_IZR in H by exact Hk. now apply le_IZR. Qed.

Lemma binary_round_aux_spec (sx : bool) (mx ex : Z) (lx : location) (v : R) :
  0 <= mx ->
  located (shr_record_of_loc mx lx) v ->
  ex <= fexp 24 128 (Zdigits2 mx + ex) ->
  (v * bpow ex < bpow 127)%R ->
  let f := binary_round_aux 24 128 sx mx ex lx in
  is_finite f = true /\ valid_binary 24 128 f = true /\
  (Rabs (B2R f - sign_of sx * (v * bpow ex))
   <= bpow (-24) * (v * bpow ex) + bpow (-150))%R.
Proof.
  intros Hm Hl Hal Hmag.
  set (d := Zdigits2 mx) in *. set (e0 := fexp 24 128 (d + ex)) in *.
  destruct (shr_fexp_located mx ex lx v Hm Hl Hal) as (mrs & Hshr & Hloc & Hm').
  fold d e0 in Hshr, Hloc.
  set (v' := (v * bpow (ex - e0))%R) in *.
  destruct (round_nearest_even_located mrs v' Hloc) as [HN HN'].
  set (N := round_nearest_even (shr_m mrs) (loc_of_shr_record mrs)) in *.
  pose proof (located_bounds _ _ Hl) as Hv. rewrite shr_record_of_loc_m in Hv.
  pose proof (located_bounds _ _ Hloc) as Hv'.
  pose proof (Zdigits2_nonneg mx) as Hd0. fold d in Hd0.
  assert (He0 : e0 = Z.max (d + ex - 24) (-149)) by reflexivity.
  (* v < 2^d *)
  assert (Hvd : (v < bpow d)%R).
  { rewrite bpow_IZR by exact Hd0.
    assert (mx + 1 <= 2 ^ d).
    { destruct (Z.eq_dec mx 0) as [E|E].
      - subst mx. cbn. lia.
      - pose proof (Zdigits2_bounds mx ltac:(lia)). fold d in H. lia. }
    apply IZR_le in H. rewrite plus_IZR in H. lra. }
  assert (Hv'24 : (v' < bpow 24)%R).
  { unfold v'. apply Rlt_le_trans with (bpow d * bpow (ex - e0))%R.
    - apply Rmult_lt_compat_r; [apply bpow_pos|exact Hvd].
    - rewrite <- bpow_add. apply bpow_le. lia. }
  assert (Hm24 : shr_m mrs < 2 ^ 24).
  { apply IZR_pow2_lt; [lia|]. lra. }
  assert (HN0 : 0 <= N <= 2 ^ 24) by lia.
  assert (Hr : (v * bpow ex = v' * bpow e0)%R).
  { unfold v'. rewrite Rmult_assoc, <- bpow_add. f_equal. f_equal. lia. }
  (* the case without underflow: a full mantissa *)
  assert (Hnormal : -149 < e0 ->
            0 < mx /\ e0 = d + ex - 24 /\ 2 ^ 23 <= shr_m mrs /\
            (bpow (e0 + 23) <= v * bpow ex)%R).
  { intros Hn. assert (E : e0 = d + ex - 24) by lia.
    assert (Hmx : 0 < mx).
    { destruct (Z.eq_dec mx 0) as [E0|E0]; [|lia].
      exfalso. subst mx. cbn in d. lia. }
    pose proof (Zdigits2_bounds mx Hmx) as Hb. fold d in Hb.
    assert (Hlow : (bpow (d - 1) <= v)%R).
    { rewrite bpow_IZR by lia. destruct Hb as [Hb _].
      apply IZR_le in Hb. lra. }
    assert (Hlow' : (bpow 23 <= v')%R).
    { unfold v'. replace 23 with ((d - 1) + (ex - e0)) by lia.
      rewrite bpow_add. apply Rmult_le_compat_r; [|exact Hlow].
      apply Rlt_le, bpow_pos. }
    repeat split; auto.
    - apply IZR_pow2_le; [lia|].
      assert (Hlt : (bpow 23 < IZR (shr_m mrs) + 1)%R) by lra.
      rewrite bpow_IZR in * by lia. rewrite <- plus_IZR in Hlt.
      apply lt_IZR in Hlt. apply IZR_le. lia.
    - rewrite Hr. rewrite bpow_add, Rmult_comm.
      apply Rmult_le_compat_r; [apply Rlt_le, bpow_pos|exact Hlow']. }
  assert (He103 : e0 <= 103).
  { destruct (Z_le_gt_dec e0 (-149)) as [|Hn]; [lia|].
    destruct (Hnormal ltac:(lia)) as (_ & _ & _ & Hb).
    assert (Hlt : (bpow (e0 + 23) < bpow 127)%R) by lra.
    apply bpow_lt_inv in Hlt. lia. }
  assert (Herr : (Rabs (IZR N * bpow e0 - v * bpow ex)
                  <= bpow (-24) * (v * bpow ex) + bpow (-150))%R).
  { rewrite Hr. rewrite <- Rmult_minus_distr_r, Rabs_mult.
    rewrite (Rabs_pos_eq (bpow e0)) by (apply Rlt_le, bpow_pos).
    assert (Hhalf : (Rabs (IZR N - v') * bpow e0 <= bpow (e0 - 1))%R).
    { replace (e0 - 1) with (-1 + e0) by lia. rewrite bpow_add, bpow_m1.
      apply Rmult_le_compat_r; [apply Rlt_le, bpow_pos|exact HN]. }
    pose proof (bpow_pos (-150)). pose proof (bpow_pos (-24)).
    pose proof (bpow_pos e0).
    destruct (Z_le_gt_dec e0 (-149)) as [Hu|Hn].
    - assert (bpow (e0 - 1) <= bpow (-150))%R by (apply bpow_le; lia).
      assert (0 <= v')%R by (apply IZR_le in Hm'; lra).
      assert (0 <= bpow (-24) * (v' * bpow e0))%R
        by (apply Rmult_le_pos; [lra|apply Rmult_le_pos; lra]).
      lra.
    - destruct (Hnormal ltac:(lia)) as (_ & _ & _ & Hb). rewrite Hr in Hb.
      assert (bpow (e0 - 1) = bpow (-24) * bpow (e0 + 23))%R.
      { rewrite <- bpow_add. f_equal. lia. }
      assert (bpow (-24) * bpow (e0 + 23)
              <= bpow (-24) * (v' * bpow e0))%R
        by (apply Rmult_le_compat_l; lra).
      lra. }
  assert (Hsign : forall a b : R,
             Rabs (sign_of sx * a - sign_of sx * b) = Rabs (a - b)).
  { intros a b. rewrite <- Rmult_minus_distr_l, Rabs_mult.
    unfold sign_of. destruct sx.
    - rewrite (Rabs_left (-1)) by lra. lra.
    - rewrite Rabs_R1. lra. }
  unfold binary_round_aux. rewrite Hshr. fold N.
  destruct (Z.eq_dec N (2 ^ 24)) as [E24|E24].
  - (* the mantissa was rounded up to a power of two *)
    rewrite E24 in *. unfold shr_fexp.
    change (Zdigits2 (2 ^ 24)) with 25.
    replace (fexp 24 128 (25 + e0) - e0) with 1 by (rewrite fexp_eq; lia).
    cbn [shr iter_pos shr_record_of_loc shr_1 shr_m].
    change (2 ^ 24) with (Zpos (2 ^ 24)%positive).
    cbn [shr_1 shr_m Pos.pow Pos.iter Pos.mul].
    destruct (Z.leb_spec (e0 + 1) (128 - 24)) as [_|]; [|lia].
    split; [reflexivity|]. split.
    + unfold valid_binary, bounded, canonical_mantissa.
      apply andb_true_intro. split.
      * apply Z.eqb_eq. change (Zpos (digits2_pos 8388608)) with 24.
        rewrite fexp_eq. lia.
      * apply Z.leb_le. lia.
    + unfold B2R. fold (sign_of sx).
      replace (sign_of sx * IZR 8388608 * bpow (e0 + 1))%R
        with (sign_of sx * (IZR (2 ^ 24) * bpow e0))%R.
      * rewrite Hsign. exact Herr.
      * rewrite bpow_add, bpow_1. change (2 ^ 24) with 16777216.
        lra.
  - assert (HN24 : N < 2 ^ 24) by lia.
    assert (Hshr2 : shr_fexp 24 128 N e0 loc_Exact
                    = (shr_record_of_loc N loc_Exact, e0)).
    { unfold shr_fexp, shr.
      pose proof (Zdigits2_le N 24 ltac:(lia) ltac:(lia) HN24) as HdN.
      destruct (fexp 24 128 (Zdigits2 N + e0) - e0) as [|p|p] eqn:En;
        try reflexivity.
      rewrite fexp_eq in En. lia. }
    rewrite Hshr2. cbn [shr_record_of_loc shr_m].
    destruct N as [|p|p] eqn:EN; [| |lia].
    + split; [reflexivity|]. split; [reflexivity|].
      cbn [B2R]. rewrite <- (Rmult_0_r (sign_of sx)), Hsign.
      replace 0%R with (IZR 0 * bpow e0)%R by (cbn; lra). exact Herr.
    + destruct (Z.leb_spec e0 (128 - 24)) as [_|]; [|lia].
      split; [reflexivity|]. split.
      * unfold valid_binary, bounded, canonical_mantissa.
        apply andb_true_intro. split; [|apply Z.leb_le; lia].
        apply Z.eqb_eq. rewrite fexp_eq.
        pose proof (Zdigits2_le (Zpos p) 24 ltac:(lia) ltac:(lia) HN24)
          as HdN. cbn [Zdigits2] in HdN.
        destruct (Z_le_gt_dec e0 (-149)) as [Hu|Hn]; [lia|].
        destruct (Hnormal ltac:(lia)) as (_ & _ & H23 & _).
        pose proof (Zdigits2_ge (Zpos p) 23 ltac:(lia) ltac:(lia)) as HdN'.
        cbn [Zdigits2] in HdN'. lia.
      * unfold B2R. fold (sign_of sx). rewrite Rmult_assoc, Hsign.
        exact Herr.
Qed.

Lemma valid_canonical (s : bool) (m : positive) (e : Z) :
  valid_binary 24 128 (S754_finite s m e) = true ->
  e = Z.max (Zpos (digits2_pos m) + e - 24) (-149) /\ e <= 104.
Proof.
  unfold valid_binary, bounded, canonical_mantissa. intros H.
  apply andb_prop in H as [H1 H2].
  apply Z.eqb_eq in H1. apply Z.leb_le in H2. rewrite fexp_eq in H1. lia.
Qed.

Lemma sign_of_xorb (a b : bool) :
  sign_of (xorb a b) = (sign_of a * sign_of b)%R.
Proof. destruct a, b; unfold sign_of; cbn; lra. Qed.

Lemma Rabs_sign_of (s : bool) (a : R) :
  (0 <= a)%R -> Rabs (sign_of s * a) = a.
Proof.
  intros Ha. rewrite Rabs_mult, (Rabs_pos_eq a) by exact Ha.
  unfold sign_of. destruct s.
  - rewrite (Rabs_left (-1)) by lra. lra.
  - rewrite Rabs_R1. lra.
Qed.

Lemma B2R_finite (s : bool) (m : positive) (e : Z) :
  B2R (S754_finite s m e) = (sign_of s * (IZR (Zpos m) * bpow e))%R.
Proof. unfold B2R, sign_of. lra. Qed.

Lemma IZR_Zpos_pos (m : positive) : (0 < IZR (Zpos m))%R.
Proof. apply IZR_lt. lia. Qed.

(** [SFmul]: the product, rounded. *)
Lemma mul_spec (x y : spec_float) :
  fin_valid x -> fin_valid y ->
  (Rabs (B2R x * B2R y) < bpow 127)%R ->
  fin_valid (SFmul 24 128 x y) /\
  (Rabs (B2R (SFmul 24 128 x y) - B2R x * B2R y)
   <= bpow (-24) * Rabs (B2R x * B2R y) + bpow (-150))%R.
Proof.
  intros [Hfx Hvx] [Hfy Hvy] Hmag.
  pose proof (bpow_pos (-150)) as Hp150.
  destruct x as [sx|sx| |sx mx ex]; try discriminate;
    destruct y as [sy|sy| |sy my ey]; try discriminate;
    try (cbn [SFmul B2R]; split; [split; reflexivity|];
         rewrite ?Rmult_0_l, ?Rmult_0_r, Rminus_0_r, Rabs_R0; lra).
  cbn [SFmul].
  destruct (valid_canonical _ _ _ Hvx) as [Hcx Hbx].
  destruct (valid_canonical _ _ _ Hvy) as [Hcy Hby].
  pose proof (digits2_pos_bounds mx) as Hdx.
  pose proof (digits2_pos_bounds my) as Hdy.
  set (dx := Zpos (digits2_pos mx)) in *.
  set (dy := Zpos (digits2_pos my)) in *.
  assert (Hprod : (B2R (S754_finite sx mx ex) * B2R (S754_finite sy my ey)
                   = sign_of (xorb sx sy)
                     * (IZR (Zpos (mx * my)) * bpow (ex + ey)))%R).
  { rewrite !B2R_finite, sign_of_xorb, Pos2Z.inj_mul, mult_IZR, bpow_add.
    ring. }
  assert (Hnn : (0 <= IZR (Zpos (mx * my)) * bpow (ex + ey))%R).
  { apply Rmult_le_pos; [apply Rlt_le, IZR_Zpos_pos|apply Rlt_le, bpow_pos]. }
  rewrite Hprod in *. rewrite Rabs_sign_of in * by exact Hnn.
  assert (Hdig : dx + dy - 1 <= Zdigits2 (Zpos (mx * my))).
  { assert (0 <= dx - 1 /\ 0 <= dy - 1) as [H1 H2] by (unfold dx, dy; lia).
    replace (dx + dy - 1) with ((dx - 1) + (dy - 1) + 1) by lia.
    apply Zdigits2_ge; [lia|].
    rewrite Z.pow_add_r by lia. rewrite Pos2Z.inj_mul.
    apply Z.mul_le_mono_nonneg; try lia;
      apply Z.pow_nonneg; lia. }
  destruct (binary_round_aux_spec (xorb sx sy) (Zpos (mx * my)) (ex + ey)
              loc_Exact (IZR (Zpos (mx * my)))) as (H1 & H2 & H3).
  - lia.
  - apply located_exact.
  - rewrite fexp_eq. lia.
  - exact Hmag.
  - split; [split; assumption|exact H3].
Qed.

Lemma shl_align_spec (mx : positive) (ex ez : Z) :
  let r := shl_align mx ex ez in
  (ez < ex -> snd r = ez /\ Zpos (fst r) = Zpos mx * 2 ^ (ex - ez)) /\
  (ex <= ez -> r = (mx, ex)).
Proof.
  unfold shl_align. destruct (ez - ex) as [|p|p] eqn:E; cbn [fst snd];
    split; intros H; try lia; try reflexivity.
  split; [reflexivity|].
  change (Pos.iter xO mx p) with (shift_pos p mx).
  rewrite shift_pos_correct. replace (ex - ez) with (Zpos p) by lia.
  change (Z.pow_pos 2 p) with (2 ^ Zpos p). lia.
Qed.

(** [binary_round]: the float nearest to [m * 2^e]. *)
Lemma binary_round_spec (sx : bool) (mx : positive) (ex : Z) :
  (IZR (Zpos mx) * bpow ex < bpow 127)%R ->
  let f := binary_round 24 128 sx mx ex in
  fin_valid f /\
  (Rabs (B2R f - sign_of sx * (IZR (Zpos mx) * bpow ex))
   <= bpow (-24) * (IZR (Zpos mx) * bpow ex) + bpow (-150))%R.
Proof.
  intros Hmag. unfold binary_round.
  set (e0 := fexp 24 128 (Zpos (digits2_pos mx) + ex)).
  pose proof (shl_align_spec mx ex e0) as [Hs1 Hs2]. cbv zeta in Hs1, Hs2.
  pose proof (digits2_pos_bounds mx) as Hd.
  destruct (shl_align mx ex e0) as [mz ez]. cbn [fst snd] in *.
  assert (Hval : (IZR (Zpos mz) * bpow ez = IZR (Zpos mx) * bpow ex)%R /\
                 ez <= fexp 24 128 (Zdigits2 (Zpos mz) + ez)).
  { destruct (Z_lt_le_dec e0 ex) as [Hlt|Hle].
    - destruct (Hs1 Hlt) as [-> Hz]. rewrite Hz, mult_IZR.
      rewrite <- bpow_IZR by lia. split.
      + rewrite Rmult_assoc, <- bpow_add. f_equal. f_equal. lia.
      + assert (Zpos (digits2_pos mx) + (ex - e0)
                <= Zdigits2 (Zpos mx * 2 ^ (ex - e0))).
        { replace (Zpos (digits2_pos mx) + (ex - e0))
            with ((Zpos (digits2_pos mx) - 1 + (ex - e0)) + 1) by lia.
          apply Zdigits2_ge; [lia|].
          rewrite Z.pow_add_r by lia.
          apply Z.mul_le_mono_nonneg_r; [apply Z.pow_nonneg; lia|lia]. }
        assert (He0 : e0 = Z.max (Zpos (digits2_pos mx) + ex - 24) (-149))
          by reflexivity.
        rewrite fexp_eq. lia.
    - specialize (Hs2 Hle). injection Hs2 as -> ->.
      split; [reflexivity|]. exact Hle. }
  destruct Hval as [Hval Hal]. rewrite <- Hval in *.
  destruct (binary_round_aux_spec sx (Zpos mz) ez loc_Exact (IZR (Zpos mz)))
    as (H1 & H2 & H3); try assumption; [lia|apply located_exact|].
  split; [split; assumption|exact H3].
Qed.

(** [binary_normalize]: the float nearest to [m * 2^e], [m] signed. *)
Lemma binary_normalize_spec (m e : Z) :
  (Rabs (IZR m * bpow e) < bpow 127)%R ->
  let f := binary_normalize 24 128 m e false in
  fin_valid f /\
  (Rabs (B2R f - IZR m * bpow e)
   <= bpow (-24) * Rabs (IZR m * bpow e) + bpow (-150))%R.
Proof.
  intros Hmag. pose proof (bpow_pos (-150)) as Hp150.
  pose proof (bpow_pos e) as Hpe.
  destruct m as [|p|p]; cbn [binary_normalize].
  - split; [split; reflexivity|].
    cbn [B2R]. rewrite Rmult_0_l, Rminus_0_r, Rabs_R0. lra.
  - assert (Hnn : (0 <= IZR (Zpos p) * bpow e)%R).
    { apply Rmult_le_pos; [apply Rlt_le, IZR_Zpos_pos|lra]. }
    rewrite (Rabs_pos_eq _ Hnn) in Hmag |- *.
    destruct (binary_round_spec false p e Hmag) as [H1 H2].
    split; [exact H1|]. unfold sign_of in H2. rewrite Rmult_1_l in H2.
    exact H2.
  - assert (Hnn : (0 <= IZR (Zpos p) * bpow e)%R).
    { apply Rmult_le_pos; [apply Rlt_le, IZR_Zpos_pos|lra]. }
    assert (E : (IZR (Zneg p) * bpow e = - (IZR (Zpos p) * bpow e))%R).
    { change (Zneg p) with (- Zpos p). rewrite opp_IZR. ring. }
    rewrite E in Hmag |- *.
    rewrite Rabs_Ropp, (Rabs_pos_eq _ Hnn) in Hmag |- *.
    destruct (binary_round_spec true p e Hmag) as [H1 H2].
    split; [exact H1|]. unfold sign_of in H2.
    replace (-1 * (IZR (Zpos p) * bpow e))%R
      with (- (IZR (Zpos p) * bpow e))%R in H2 by ring.
    exact H2.
Qed.

Lemma aligned_value (s : bool) (m : positive) (e ez : Z) :
  ez <= e ->
  (IZR (cond_Zopp s (Zpos (fst (shl_align m e ez)))) * bpow ez
   = B2R (S754_finite s m e))%R.
Proof.
  intros Hle. rewrite B2R_finite.
  pose proof (shl_align_spec m e ez) as [H1 H2]. cbv zeta in H1, H2.
  assert (E : (IZR (Zpos (fst (shl_align m e ez))) * bpow ez
               = IZR (Zpos m) * bpow e)%R).
  { destruct (Z_lt_le_dec ez e) as [Hlt|Hge].
    - destruct (H1 Hlt) as [_ Hz]. rewrite Hz, mult_IZR.
      rewrite <- bpow_IZR by lia.
      rewrite Rmult_assoc, <- bpow_add. f_equal. f_equal. lia.
    - rewrite (H2 Hge). cbn [fst]. replace ez with e by lia. reflexivity. }
  unfold cond_Zopp, sign_of. destruct s.
  - rewrite opp_IZR. rewrite <- E. ring.
  - rewrite <- E. ring.
Qed.

Lemma error_exact (a : R) :
  (Rabs (a - a) <= bpow (-24) * Rabs a + bpow (-150))%R.
Proof.
  replace (a - a)%R with 0%R by ring. rewrite Rabs_R0.
  pose proof (bpow_pos (-24)). pose proof (bpow_pos (-150)).
  pose proof (Rabs_pos a). nra.
Qed.

(** [SFadd]: the sum, rounded. *)
Lemma add_spec (x y : spec_float) :
  fin_valid x -> fin_valid y ->
  (Rabs (B2R x + B2R y) < bpow 127)%R ->
  fin_valid (SFadd 24 128 x y) /\
  (Rabs (B2R (SFadd 24 128 x y) - (B2R x + B2R y))
   <= bpow (-24) * Rabs (B2R x + B2R y) + bpow (-150))%R.
Proof.
  intros [Hfx Hvx] [Hfy Hvy] Hmag.
  destruct x as [sx|sx| |sx mx ex]; try discriminate;
    destruct y as [sy|sy| |sy my ey]; try discriminate.
  - split.
    + destruct sx, sy; split; reflexivity.
    + replace (B2R (SFadd 24 128 (S754_zero sx) (S754_zero sy)))
        with (B2R (S754_zero sx) + B2R (S754_zero sy))%R
        by (destruct sx, sy; cbn; lra).
      apply error_exact.
  - cbn [SFadd]. split; [split; assumption|].
    replace (B2R (S754_zero sx) + B2R (S754_finite sy my ey))%R
      with (B2R (S754_finite sy my ey)) by (cbn [B2R]; lra).
    apply error_exact.
  - cbn [SFadd]. split; [split; assumption|].
    replace (B2R (S754_finite sx mx ex) + B2R (S754_zero sy))%R
      with (B2R (S754_finite sx mx ex)) by (cbn [B2R]; lra).
    apply error_exact.
  - cbn [SFadd]. cbv zeta.
    rewrite <- (aligned_value sx mx ex (Z.min ex ey)) in * by lia.
    rewrite <- (aligned_value sy my ey (Z.min ex ey)) in * by lia.
    rewrite <- Rmult_plus_distr_r, <- plus_IZR in *.
    apply binary_normalize_spec. exact Hmag.
Qed.

(** [SFsub]: the difference, rounded. *)
Lemma sub_spec (x y : spec_float) :
  fin_valid x -> fin_valid y ->
  (Rabs (B2R x - B2R y) < bpow 127)%R ->
  fin_valid (SFsub 24 128 x y) /\
  (Rabs (B2R (SFsub 24 128 x y) - (B2R x - B2R y))
   <= bpow (-24) * Rabs (B2R x - B2R y) + bpow (-150))%R.
Proof.
  intros [Hfx Hvx] [Hfy Hvy] Hmag.
  destruct x as [sx|sx| |sx mx ex]; try discriminate;
    destruct y as [sy|sy| |sy my ey]; try discriminate.
  - split.
    + destruct sx, sy; split; reflexivity.
    + replace (B2R (SFsub 24 128 (S754_zero sx) (S754_zero sy)))
        with (B2R (S754_zero sx) - B2R (S754_zero sy))%R
        by (destruct sx, sy; cbn; lra).
      apply error_exact.
  - cbn [SFsub]. split; [split; [reflexivity|exact Hvy]|].
    replace (B2R (S754_finite (negb sy) my ey))
      with (B2R (S754_zero sx) - B2R (S754_finite sy my ey))%R.
    + apply error_exact.
    + rewrite !B2R_finite. cbn [B2R]. unfold sign_of.
      destruct sy; cbn [negb]; ring.
  - cbn [SFsub]. split; [split; assumption|].
    replace (B2R (S754_finite sx mx ex) - B2R (S754_zero sy))%R
      with (B2R (S754_finite sx mx ex)) by (cbn [B2R]; lra).
    apply error_exact.
  - cbn [SFsub]. cbv zeta.
    rewrite <- (aligned_value sx mx ex (Z.min ex ey)) in * by lia.
    rewrite <- (aligned_value sy my ey (Z.min ex ey)) in * by lia.
    rewrite <- Rmult_minus_distr_r, <- minus_IZR in *.
    apply binary_normalize_spec. exact Hmag.
Qed.

Lemma new_location_located (m2 r q : Z) :
  0 < m2 -> 0 <= r < m2 ->
  located (shr_record_of_loc q (new_location m2 r))
    (IZR q + IZR r / IZR m2)%R.
Proof.
  intros Hm2 Hr. assert (Hm2R : (0 < IZR m2)%R) by (apply IZR_lt; lia).
  assert (Hlt : 2 * r < m2 -> (IZR r / IZR m2 < / 2)%R).
  { intros H. apply IZR_lt in H. rewrite mult_IZR in H.
    apply Rmult_lt_reg_r with (IZR m2); [exact Hm2R|].
    unfold Rdiv. rewrite Rmult_assoc, Rinv_l by lra. lra. }
  assert (Hgt : m2 < 2 * r -> (/ 2 < IZR r / IZR m2)%R).
  { intros H. apply IZR_lt in H. rewrite mult_IZR in H.
    apply Rmult_lt_reg_r with (IZR m2); [exact Hm2R|].
    unfold Rdiv. rewrite Rmult_assoc, Rinv_l by lra. lra. }
  assert (Heq : 2 * r = m2 -> (IZR r / IZR m2 = / 2)%R).
  { intros H. rewrite <- H, mult_IZR. field.
    intros E. apply eq_IZR in E. lia. }
  assert (Hpos : 0 < r -> (0 < IZR r / IZR m2)%R).
  { intros H. apply Rdiv_lt_0_compat; [apply IZR_lt; lia|exact Hm2R]. }
  assert (Hone : (IZR r / IZR m2 < 1)%R).
  { apply Rmult_lt_reg_r with (IZR m2); [exact Hm2R|].
    unfold Rdiv. rewrite Rmult_assoc, Rinv_l by lra.
    assert (IZR r < IZR m2)%R by (apply IZR_lt; lia). lra. }
  unfold new_location. destruct (Z.even m2) eqn:Hev;
    [unfold new_location_even|unfold new_location_odd];
    destruct (Z.eqb_spec r 0) as [E0|Hr0].
  - subst r. unfold located; cbn. unfold Rdiv. lra.
  - destruct (Z.compare_spec (2 * r) m2) as [E|E|E]; unfold located;
      cbn [shr_record_of_loc shr_m shr_r shr_s]; cbv beta iota zeta.
    + rewrite (Heq E). reflexivity.
    + specialize (Hlt E). specialize (Hpos ltac:(lia)). lra.
    + specialize (Hgt E). lra.
  - subst r. unfold located; cbn. unfold Rdiv. lra.
  - assert (Hodd : 2 * r <> m2).
    { intros E. rewrite <- E, Z.even_mul in Hev. discriminate. }
    destruct (Z.compare_spec (2 * r + 1) m2) as [E|E|E]; unfold located;
      cbn [shr_record_of_loc shr_m shr_r shr_s]; cbv beta iota zeta.
    + specialize (Hlt ltac:(lia)). specialize (Hpos ltac:(lia)). lra.
    + specialize (Hlt ltac:(lia)). specialize (Hpos ltac:(lia)). lra.
    + specialize (Hgt ltac:(lia)). lra.
Qed.

(** [SFdiv]: the quotient, rounded. *)
Lemma div_spec (x y : spec_float) :
  fin_valid x -> fin_valid y ->
  B2R y <> 0%R ->
  (Rabs (B2R x / B2R y) < bpow 127)%R ->
  fin_valid (SFdiv 24 128 x y) /\
  (Rabs (B2R (SFdiv 24 128 x y) - B2R x / B2R y)
   <= bpow (-24) * Rabs (B2R x / B2R y) + bpow (-150))%R.
Proof.
  intros [Hfx Hvx] [Hfy Hvy] Hy0 Hmag.
  destruct y as [sy|sy| |sy my ey]; try discriminate;
    [cbn [B2R] in Hy0; lra|].
  destruct x as [sx|sx| |sx mx ex]; try discriminate.
  { cbn [SFdiv]. split; [split; reflexivity|].
    replace (B2R (S754_zero (xorb sx sy)))
      with (B2R (S754_zero sx) / B2R (S754_finite sy my ey))%R
      by (cbn [B2R]; unfold Rdiv; lra).
    apply error_exact. }
  cbn [SFdiv]. unfold SFdiv_core_binary.
  pose proof (digits2_pos_bounds mx) as Hdx.
  pose proof (digits2_pos_bounds my) as Hdy.
  cbn [Zdigits2].
  set (dx := Zpos (digits2_pos mx)) in *.
  set (dy := Zpos (digits2_pos my)) in *.
  set (e' := Z.min (fexp 24 128 (dx + ex - (dy + ey))) (ex - ey)).
  set (s := ex - ey - e').
  assert (Hs : 0 <= s) by (unfold s, e'; lia).
  set (m' := match s with
             | 0 => Zpos mx
             | Zpos _ => Z.shiftl (Zpos mx) s
             | Zneg _ => 0
             end).
  assert (Hm' : m' = Zpos mx * 2 ^ s).
  { unfold m'. destruct s as [|p|p] eqn:Es; [lia| |lia].
    rewrite Z.shiftl_mul_pow2 by lia. reflexivity. }
  clearbody m'.
  pose proof (Z_div_mod m' (Zpos my) ltac:(lia)) as Hdm.
  destruct (Z.div_eucl m' (Zpos my)) as [q r]. destruct Hdm as [Hq Hr].
  assert (Hpow : 0 < 2 ^ s) by (apply Z.pow_pos_nonneg; lia).
  assert (Hq0 : 0 <= q) by nia.
  set (v := (IZR q + IZR r / IZR (Zpos my))%R).
  assert (Hmy : (0 < IZR (Zpos my))%R) by apply IZR_Zpos_pos.
  assert (Hv : (v = IZR m' / IZR (Zpos my))%R).
  { unfold v. rewrite Hq, plus_IZR, mult_IZR. field. lra. }
  assert (Hquot : (B2R (S754_finite sx mx ex) / B2R (S754_finite sy my ey)
                   = sign_of (xorb sx sy) * (v * bpow e'))%R).
  { rewrite !B2R_finite, sign_of_xorb, Hv, Hm', mult_IZR.
    rewrite <- bpow_IZR by exact Hs.
    replace ex with (s + e' + ey) at 1 by (unfold s; lia).
    rewrite !bpow_add.
    pose proof (bpow_pos ey). pose proof (bpow_pos e').
    unfold sign_of. destruct sx, sy; cbn [xorb]; field; lra. }
  assert (Hnn : (0 <= v * bpow e')%R).
  { apply Rmult_le_pos; [|apply Rlt_le, bpow_pos].
    rewrite Hv. apply Rmult_le_pos; [apply IZR_le; nia|].
    apply Rlt_le, Rinv_0_lt_compat, Hmy. }
  rewrite Hquot in Hmag |- *.
  rewrite (Rabs_sign_of _ _ Hnn) in Hmag |- *.
  assert (Hdig : dx + s - dy <= Zdigits2 q).
  { destruct (Z_lt_le_dec (dx - 1 + s - dy) 0) as [Hneg|Hk].
    - pose proof (Zdigits2_nonneg q). lia.
    - replace (dx + s - dy) with ((dx - 1 + s - dy) + 1) by lia.
      apply Zdigits2_ge; [exact Hk|].
      assert (Hpk : 0 < 2 ^ (dx - 1 + s - dy))
        by (apply Z.pow_pos_nonneg; lia).
      assert (Hsplit : 2 ^ (dx - 1) * 2 ^ s
                       = 2 ^ (dx - 1 + s - dy) * 2 ^ dy).
      { rewrite <- !Z.pow_add_r by (unfold dx, dy; lia).
        f_equal. lia. }
      assert (Hlow : 2 ^ (dx - 1) * 2 ^ s <= m').
      { rewrite Hm'. apply Z.mul_le_mono_nonneg_r; lia. }
      destruct (Z_lt_le_dec q (2 ^ (dx - 1 + s - dy))) as [Hlt|]; [|lia].
      exfalso.
      assert (Zpos my * (q + 1) <= Zpos my * 2 ^ (dx - 1 + s - dy))
        by (apply Z.mul_le_mono_nonneg_l; lia).
      assert (Zpos my * 2 ^ (dx - 1 + s - dy)
              < 2 ^ dy * 2 ^ (dx - 1 + s - dy))
        by (apply Z.mul_lt_mono_pos_r; lia).
      lia. }
  destruct (binary_round_aux_spec (xorb sx sy) q e'
              (new_location (Zpos my) r) v) as (H1 & H2 & H3).
  - exact Hq0.
  - apply new_location_located; lia.
  - assert (He' : e' = Z.min (Z.max (dx + ex - (dy + ey) - 24) (-149))
                         (ex - ey)) by reflexivity.
    assert (Hsdef : s = ex - ey - e') by reflexivity.
    rewrite fexp_eq. lia.
  - exact Hmag.
  - split; [split; assumption|exact H3].
Qed.

End RoundingProofs.

Section ErrorProofs.

(** *** The error of the calculator *)

Local Open Scope R_scope.

Lemma bpow_neg_IZR (k : Z) : (0 <= k)%Z -> bpow (- k) = / IZR (2 ^ k).
Proof. intros H. rewrite bpow_opp, bpow_IZR by exact H. reflexivity. Qed.

Lemma bpow_m24 : bpow (-24) = / 16777216.
Proof. exact (bpow_neg_IZR 24 ltac:(lia)). Qed.

Lemma bpow_m20 : bpow (-20) = / 1048576.
Proof. exact (bpow_neg_IZR 20 ltac:(lia)). Qed.

Lemma bpow_m150_le :
  bpow (-150) <= / 10000000000000000000000000000000000000000.
Proof.
  replace (bpow (-150)) with (/ IZR (2 ^ 150))
    by (symmetry; exact (bpow_neg_IZR 150 ltac:(lia))).
  apply Rinv_le_contravar; [lra|].
  apply IZR_le. vm_compute. discriminate.
Qed.

Lemma bpow_127_ge : 1000000000 <= bpow 127.
Proof.
  rewrite bpow_IZR by lia. apply IZR_le. vm_compute. discriminate.
Qed.

Lemma value_A : B2R (Binary32.float_literal 17.625) = 17.625.
Proof.
  change (Binary32.float_literal 17.625) with (S754_finite false 9240576 (-19)).
  rewrite B2R_finite.
  replace (bpow (-19)) with (/ IZR (2 ^ 19))
    by (symmetry; exact (bpow_neg_IZR 19 ltac:(lia))).
  unfold sign_of. change (2 ^ 19)%Z with 524288%Z. lra.
Qed.

Lemma value_B : B2R (Binary32.float_literal 243.04) = 15927869 / 65536.
Proof.
  change (Binary32.float_literal 243.04) with (S754_finite false 15927869 (-16)).
  rewrite B2R_finite.
  replace (bpow (-16)) with (/ IZR (2 ^ 16))
    by (symmetry; exact (bpow_neg_IZR 16 ltac:(lia))).
  unfold sign_of. change (2 ^ 16)%Z with 65536%Z. lra.
Qed.

Lemma value_c : B2R (Binary32.float_literal 0.01) = 10737418 / 1073741824.
Proof.
  change (Binary32.float_literal 0.01) with (S754_finite false 10737418 (-30)).
  rewrite B2R_finite.
  replace (bpow (-30)) with (/ IZR (2 ^ 30))
    by (symmetry; exact (bpow_neg_IZR 30 ltac:(lia))).
  unfold sign_of. change (2 ^ 30)%Z with 1073741824%Z. lra.
Qed.

Lemma fin_valid_A : fin_valid (Binary32.float_literal 17.625).
Proof. split; reflexivity. Qed.

Lemma fin_valid_B : fin_valid (Binary32.float_literal 243.04).
Proof. split; reflexivity. Qed.

Lemma fin_valid_c : fin_valid (Binary32.float_literal 0.01).
Proof. split; reflexivity. Qed.

(** *** Propagation of errors *)

Lemma Rabs_le_inv (x y : R) : Rabs x <= y -> - y <= x <= y.
Proof.
  intros H. pose proof (Rle_abs x) as H1. pose proof (Rle_abs (- x)) as H2.
  rewrite Rabs_Ropp in H2. lra.
Qed.

Lemma round_err (f e t d M : R) :
  Rabs (f - e) <= bpow (-24) * Rabs e + bpow (-150) ->
  Rabs (e - t) <= d -> Rabs t <= M ->
  Rabs (f - t) <= d + bpow (-24) * (M + d) + bpow (-150).
Proof.
  intros Hf He Ht. pose proof (bpow_pos (-24)) as Hu.
  assert (Habs : Rabs e <= M + d).
  { replace e with (t + (e - t)) by ring.
    eapply Rle_trans; [apply Rabs_triang|]. lra. }
  replace (f - t) with ((f - e) + (e - t)) by ring.
  eapply Rle_trans; [apply Rabs_triang|].
  assert (bpow (-24) * Rabs e <= bpow (-24) * (M + d))
    by (apply Rmult_le_compat_l; lra).
  lra.
Qed.

Lemma prod_err (a' a b' b ea eb Ma Mb : R) :
  Rabs (a' - a) <= ea -> Rabs (b' - b) <= eb ->
  Rabs a <= Ma -> Rabs b' <= Mb ->
  Rabs (a' * b' - a * b) <= ea * Mb + Ma * eb.
Proof.
  intros Ha Hb HMa HMb.
  replace (a' * b' - a * b) with ((a' - a) * b' + a * (b' - b)) by ring.
  eapply Rle_trans; [apply Rabs_triang|]. rewrite !Rabs_mult.
  apply Rplus_le_compat; apply Rmult_le_compat; auto using Rabs_pos.
Qed.

Lemma quot_err (p' p s' s ep es m Mq : R) :
  Rabs (p' - p) <= ep -> Rabs (s' - s) <= es ->
  0 < m -> m <= s' -> 0 < s -> Rabs (p / s) <= Mq ->
  Rabs (p' / s' - p / s) <= (ep + Mq * es) / m.
Proof.
  intros Hp Hs Hm Hs' Hs0 Hq.
  assert (Hs'0 : 0 < s') by lra.
  replace (p' / s' - p / s)
    with (((p' - p) - (p / s) * (s' - s)) / s') by (field; lra).
  unfold Rdiv at 1. rewrite Rabs_mult.
  rewrite (Rabs_pos_eq (/ s')) by (apply Rlt_le, Rinv_0_lt_compat; lra).
  assert (Hnum : Rabs (p' - p - p / s * (s' - s)) <= ep + Mq * es).
  { eapply Rle_trans; [apply Rabs_triang|]. rewrite Rabs_Ropp, Rabs_mult.
    apply Rplus_le_compat; [exact Hp|].
    apply Rmult_le_compat; auto using Rabs_pos. }
  assert (Hinv : / s' <= / m) by (apply Rinv_le_contravar; lra).
  assert (H0 : 0 <= ep + Mq * es).
  { eapply Rle_trans; [apply Rabs_pos|exact Hnum]. }
  unfold Rdiv. apply Rmult_le_compat; auto using Rabs_pos.
  apply Rlt_le, Rinv_0_lt_compat; lra.
Qed.

(** *** The logarithm *)

Lemma ln_le_minus_1 (z : R) : 0 < z -> ln z <= z - 1.
Proof.
  intros Hz. pose proof (exp_ineq1_le (ln z)) as H.
  rewrite exp_ln in H by exact Hz. lra.
Qed.

Lemma ln_ge_minus (z : R) : 0 < z -> 1 - / z <= ln z.
Proof.
  intros Hz. pose proof (ln_le_minus_1 (/ z) (Rinv_0_lt_compat _ Hz)) as H.
  rewrite ln_Rinv in H by exact Hz. lra.
Qed.

Lemma ln_le (x y : R) : 0 < x -> x <= y -> ln x <= ln y.
Proof.
  intros Hx [H|H]; [apply Rlt_le, ln_increasing; assumption|].
  subst. lra.
Qed.

Lemma ln_hundredth : -7 <= ln (/ 100).
Proof.
  rewrite <- (ln_exp (-7)). apply ln_le; [apply exp_pos|].
  replace (-7) with (- (1 + 1 + 1 + 1 + 1 + 1 + 1)) by ring.
  rewrite exp_Ropp. apply Rinv_le_contravar; [lra|].
  rewrite !exp_plus. pose proof (exp_ineq1_le 1) as H.
  assert (H2 : 2 <= exp 1) by lra.
  set (e := exp 1) in *.
  assert (H4 : 4 <= e * e) by nra.
  assert (H8 : 8 <= e * e * e) by nra.
  assert (H16 : 16 <= e * e * (e * e)) by nra.
  replace (e * e * e * e * e * e * e) with (e * e * (e * e) * (e * e * e))
    by ring.
  nra.
Qed.

(** The logarithms of two numbers close to each other. *)
Lemma ln_close (y' y rho : R) :
  0 < y -> 0 <= rho <= / 2 -> Rabs (y' - y) <= rho * y ->
  Rabs (ln y' - ln y) <= 2 * rho.
Proof.
  intros Hy Hrho Hclose. apply Rabs_le_inv in Hclose.
  assert (Hy' : 0 < y') by nra.
  assert (Hz : 0 < y' / y) by (apply Rdiv_lt_0_compat; assumption).
  assert (E : ln y' - ln y = ln (y' / y)).
  { unfold Rdiv. rewrite ln_mult, ln_Rinv; try lra.
    apply Rinv_0_lt_compat, Hy. }
  rewrite E.
  assert (Hu : y' / y <= 1 + rho).
  { apply Rmult_le_reg_r with y; [exact Hy|].
    unfold Rdiv. rewrite Rmult_assoc, Rinv_l by lra. lra. }
  assert (Hl : 1 - rho <= y' / y).
  { apply Rmult_le_reg_r with y; [exact Hy|].
    unfold Rdiv. rewrite Rmult_assoc, Rinv_l by lra. lra. }
  pose proof (ln_le_minus_1 _ Hz) as H1.
  pose proof (ln_ge_minus _ Hz) as H2.
  assert (H3 : / (y' / y) <= 1 + 2 * rho).
  { apply Rmult_le_reg_r with (y' / y); [exact Hz|].
    rewrite Rinv_l by lra. nra. }
  apply Rabs_le. lra.
Qed.

(** The terms of the formula, for temperatures between -100 and 100. *)
Lemma quotient_bounds (T : R) :
  -100 <= T <= 100 ->
  -12.4 <= 17.625 * T / (243.04 + T) <= 5.2.
Proof.
  intros HT. assert (Hd : 0 < 243.04 + T) by lra.
  split.
  - apply Rmult_le_reg_r with (243.04 + T); [exact Hd|].
    unfold Rdiv. rewrite Rmult_assoc, Rinv_l by lra. lra.
  - apply Rmult_le_reg_r with (243.04 + T); [exact Hd|].
    unfold Rdiv. rewrite Rmult_assoc, Rinv_l by lra. lra.
Qed.

Lemma quotient_lipschitz (T' T : R) :
  -100 <= T' <= 100 -> -100 <= T <= 100 ->
  Rabs (17.625 * T' / (243.04 + T') - 17.625 * T / (243.04 + T))
  <= 0.21 * Rabs (T' - T).
Proof.
  intros HT' HT.
  replace (17.625 * T' / (243.04 + T') - 17.625 * T / (243.04 + T))
    with ((T' - T) * (17.625 * 243.04 / ((243.04 + T') * (243.04 + T))))
    by (field; lra).
  rewrite Rabs_mult, Rmult_comm. apply Rmult_le_compat_r; [apply Rabs_pos|].
  assert (Hp : 20460 <= (243.04 + T') * (243.04 + T)) by nra.
  rewrite Rabs_pos_eq.
  - apply Rmult_le_reg_r with ((243.04 + T') * (243.04 + T)); [lra|].
    unfold Rdiv. rewrite Rmult_assoc, Rinv_l by lra. lra.
  - apply Rlt_le, Rdiv_lt_0_compat; lra.
Qed.

(** *** The four operations of [float] *)

Lemma mul32 (x y : Binary32.float) :
  fin_valid x -> fin_valid y ->
  Rabs (B2R x * B2R y) < bpow 127 ->
  fin_valid (Binary32.mul x y) /\
  Rabs (B2R (Binary32.mul x y) - B2R x * B2R y)
  <= bpow (-24) * Rabs (B2R x * B2R y) + bpow (-150).
Proof. exact (mul_spec x y). Qed.

Lemma add32 (x y : Binary32.float) :
  fin_valid x -> fin_valid y ->
  Rabs (B2R x + B2R y) < bpow 127 ->
  fin_valid (Binary32.add x y) /\
  Rabs (B2R (Binary32.add x y) - (B2R x + B2R y))
  <= bpow (-24) * Rabs (B2R x + B2R y) + bpow (-150).
Proof. exact (add_spec x y). Qed.

Lemma sub32 (x y : Binary32.float) :
  fin_valid x -> fin_valid y ->
  Rabs (B2R x - B2R y) < bpow 127 ->
  fin_valid (Binary32.sub x y) /\
  Rabs (B2R (Binary32.sub x y) - (B2R x - B2R y))
  <= bpow (-24) * Rabs (B2R x - B2R y) + bpow (-150).
Proof. exact (sub_spec x y). Qed.

Lemma div32 (x y : Binary32.float) :
  fin_valid x -> fin_valid y ->
  B2R y <> 0 ->
  Rabs (B2R x / B2R y) < bpow 127 ->
  fin_valid (Binary32.div x y) /\
  Rabs (B2R (Binary32.div x y) - B2R x / B2R y)
  <= bpow (-24) * Rabs (B2R x / B2R y) + bpow (-150).
Proof. exact (div_spec x y). Qed.

(** A rounded operation on approximate operands: from the error [d] of
    the exact result [e] against the intended [t], bounded by [M]. *)
Lemma rounded (f e t d M : R) :
  (Rabs e < bpow 127 ->
   Rabs (f - e) <= bpow (-24) * Rabs e + bpow (-150)) ->
  Rabs (e - t) <= d -> Rabs t <= M -> M + d <= 1000000 ->
  Rabs (f - t) <= d + bpow (-24) * (M + d) + bpow (-150).
Proof.
  intros Hf He Ht Hsmall. apply (round_err f e t d M); auto. apply Hf.
  replace e with (t + (e - t)) by ring.
  eapply Rle_lt_trans; [apply Rabs_triang|].
  pose proof bpow_127_ge. lra.
Qed.

(** Arithmetic with the powers of two written out. *)
Ltac numeric :=
  repeat match goal with
         | H : context [bpow (-24)] |- _ => rewrite bpow_m24 in H
         | H : context [bpow (-20)] |- _ => rewrite bpow_m20 in H
         end;
  rewrite ?bpow_m24, ?bpow_m20;
  pose proof bpow_m150_le; pose proof (bpow_pos (-150));
  pose proof bpow_127_ge; lra.

(** The calculator on [float] against the formula of the
    specification: the temperature is a float [Tf] that stands for the
    real [T] up to [eT]. *)
Lemma DewPoint32_error (logf : Binary32.float -> Binary32.float)
    (Tf Hf : Binary32.float) (T eT : R) :
  fin_valid Tf -> fin_valid Hf ->
  Rabs (B2R Tf) <= 100 -> Rabs T <= 100 ->
  Rabs (B2R Tf - T) <= eT -> eT <= / 100 ->
  1 <= B2R Hf <= 100 ->
  let y := Binary32.mul Hf (Binary32.float_literal 0.01) in
  fin_valid (logf y) ->
  Rabs (B2R (logf y) - ln (B2R y)) <= bpow (-20) ->
  fin_valid (DewPoint32 logf Tf Hf) /\
  Rabs (B2R (DewPoint32 logf Tf Hf) - magnus T (B2R Hf))
  <= 3 / 10000 + 7 * eT.
Proof.
  intros HvT HvH HT' HT HeT HeT' HH y Hvl Hl.
  assert (HeT0 : 0 <= eT) by (pose proof (Rabs_pos (B2R Tf - T)); lra).
  apply Rabs_le_inv in HT', HT.
  rewrite DewPoint32_formula. cbv zeta. fold y.
  set (H := B2R Hf) in *. set (T' := B2R Tf) in *.
  (* y = H * 0.01f *)
  destruct (mul_spec Hf (Binary32.float_literal 0.01) HvH fin_valid_c)
    as [Hvy Hy].
  { rewrite value_c. fold H. rewrite Rabs_pos_eq by lra. numeric. }
  change (SFmul 24 128 Hf (Binary32.float_literal 0.01)) with y in Hvy, Hy.
  rewrite value_c in Hy. fold H in Hy.
  rewrite (Rabs_pos_eq (H * _)) in Hy by lra.
  assert (Hyclose : Rabs (B2R y - H / 100) <= / 10000000 * (H / 100)).
  { apply Rabs_le_inv in Hy. apply Rabs_le. numeric. }
  assert (Hlny : Rabs (ln (B2R y) - ln (H / 100)) <= 2 * / 10000000).
  { apply ln_close; [lra|lra|exact Hyclose]. }
  set (l := ln (H / 100)) in *.
  assert (Hlb : -7 <= l <= 0).
  { unfold l. split.
    - eapply Rle_trans; [exact ln_hundredth|]. apply ln_le; lra.
    - pose proof (ln_le_minus_1 (H / 100) ltac:(lra)). lra. }
  set (lf := logf y) in *.
  assert (Hel : Rabs (B2R lf - l) <= 116 / 100000000).
  { replace (B2R lf - l)
      with ((B2R lf - ln (B2R y)) + (ln (B2R y) - l)) by ring.
    eapply Rle_trans; [apply Rabs_triang|]. numeric. }
  assert (HeT1 : - eT <= T' - T <= eT) by (apply Rabs_le_inv; exact HeT).
  (* p1 = A * T' *)
  set (A := Binary32.float_literal 17.625) in *.
  set (B := Binary32.float_literal 243.04) in *.
  set (p1 := Binary32.mul A Tf).
  assert (EA : B2R A = 17.625) by exact value_A.
  assert (EB : B2R B = 15927869 / 65536) by exact value_B.
  assert (Hp1 : fin_valid p1 /\
                Rabs (B2R p1 - 17.625 * T') <= 106 / 1000000).
  { assert (Hm : Rabs (17.625 * T') <= 1762.5) by (apply Rabs_le; lra).
    pose proof (mul32 A Tf fin_valid_A HvT) as Hop.
    rewrite EA in Hop. fold T' p1 in Hop.
    destruct Hop as [Hv He]; [numeric|].
    split; [exact Hv|]. numeric. }
  destruct Hp1 as [Hvp1 Hp1].
  (* s1 = B + T' *)
  set (s1 := Binary32.add B Tf).
  assert (Hs1 : fin_valid s1 /\
                Rabs (B2R s1 - (243.04 + T')) <= 274 / 10000000).
  { assert (Hm : Rabs (15927869 / 65536 + T') <= 343.04)
      by (apply Rabs_le; lra).
    pose proof (add32 B Tf fin_valid_B HvT) as Hop.
    rewrite EB in Hop. fold T' s1 in Hop.
    destruct Hop as [Hv He]; [numeric|].
    split; [exact Hv|]. apply Rabs_le_inv in He. apply Rabs_le.
    numeric. }
  destruct Hs1 as [Hvs1 Hs1].
  assert (Hs1' : 143 <= B2R s1) by (apply Rabs_le_inv in Hs1; lra).
  (* q = p1 / s1 *)
  set (qf := Binary32.div p1 s1).
  set (q' := 17.625 * T' / (243.04 + T')).
  set (q := 17.625 * T / (243.04 + T)).
  pose proof (quotient_bounds T' HT') as Hq'b. fold q' in Hq'b.
  pose proof (quotient_bounds T HT) as Hqb. fold q in Hqb.
  assert (Hquot : Rabs (B2R p1 / B2R s1 - q') <= 32 / 10000000).
  { eapply Rle_trans.
    - apply (quot_err (B2R p1) (17.625 * T') (B2R s1) (243.04 + T')
               (106 / 1000000) (274 / 10000000) 143 12.4);
        try assumption; try lra.
      fold q'. apply Rabs_le. lra.
    - lra. }
  assert (Hqf : fin_valid qf /\ Rabs (B2R qf - q') <= 4 / 1000000).
  { destruct (div32 p1 s1 Hvp1 Hvs1) as [Hv He]; [lra| |].
    - apply Rabs_le_inv in Hquot.
      apply Rle_lt_trans with 13; [apply Rabs_le; lra|numeric].
    - split; [exact Hv|].
      eapply Rle_trans.
      + apply (round_err _ _ q' (32 / 10000000) 12.4 He Hquot).
        apply Rabs_le. lra.
      + numeric. }
  destruct Hqf as [Hvq Hqf].
  assert (Hqq : Rabs (B2R qf - q) <= 4 / 1000000 + 0.21 * eT).
  { replace (B2R qf - q) with ((B2R qf - q') + (q' - q)) by ring.
    eapply Rle_trans; [apply Rabs_triang|].
    pose proof (quotient_lipschitz T' T HT' HT) as HL. fold q' q in HL.
    lra. }
  apply Rabs_le_inv in Hel. apply Rabs_le_inv in Hqq.
  (* x = l + q *)
  set (xf := Binary32.add lf qf).
  set (x := l + q).
  assert (Hxb : -19.4 <= x <= 5.2) by (unfold x; lra).
  assert (Hxf : fin_valid xf /\
                Rabs (B2R xf - x) <= 64 / 10000000 + 0.22 * eT).
  { pose proof (add32 lf qf Hvl Hvq) as Hop. fold xf in Hop.
    assert (Hd : Rabs (B2R lf + B2R qf - x)
                 <= 516 / 100000000 + 0.21 * eT)
      by (unfold x; apply Rabs_le; lra).
    assert (HM : Rabs x <= 19.4) by (apply Rabs_le; lra).
    destruct Hop as [Hv He].
    - apply Rabs_le_inv in Hd.
      apply Rle_lt_trans with 20; [apply Rabs_le; lra|numeric].
    - split; [exact Hv|].
      eapply Rle_trans; [apply (round_err _ _ x _ 19.4 He Hd HM)|].
      numeric. }
  destruct Hxf as [Hvx Hxf].
  assert (Hxf' : - (64 / 10000000 + 0.22 * eT) <= B2R xf - x
                 <= 64 / 10000000 + 0.22 * eT)
    by (apply Rabs_le_inv; exact Hxf).
  (* p2 = B * x *)
  set (p2 := Binary32.mul B xf).
  assert (Hp2 : fin_valid p2 /\
                Rabs (B2R p2 - 243.04 * x) <= 198 / 100000 + 54 * eT).
  { pose proof (mul32 B xf fin_valid_B Hvx) as Hop.
    rewrite EB in Hop. fold p2 in Hop.
    assert (Hd : Rabs (15927869 / 65536 * B2R xf - 243.04 * x)
                 <= 169 / 100000 + 53.5 * eT).
    { eapply Rle_trans.
      - apply (prod_err (15927869 / 65536) 243.04 (B2R xf) x
                 (68 / 10000000) (64 / 10000000 + 0.22 * eT) 243.04 19.5).
        + apply Rabs_le. lra.
        + exact Hxf.
        + apply Rabs_le. lra.
        + apply Rabs_le. lra.
      - lra. }
    assert (HM : Rabs (243.04 * x) <= 4715) by (apply Rabs_le; lra).
    destruct Hop as [Hv He].
    - apply Rabs_le_inv in Hd.
      apply Rle_lt_trans with 5000; [apply Rabs_le; lra|numeric].
    - split; [exact Hv|].
      eapply Rle_trans; [apply (round_err _ _ _ _ 4715 He Hd HM)|].
      numeric. }
  destruct Hp2 as [Hvp2 Hp2].
  (* s2 = A - x *)
  set (s2 := Binary32.sub A xf).
  assert (Hs2 : fin_valid s2 /\
                Rabs (B2R s2 - (17.625 - x)) <= 87 / 10000000 + 0.23 * eT).
  { pose proof (sub32 A xf fin_valid_A Hvx) as Hop.
    rewrite EA in Hop. fold s2 in Hop.
    assert (Hd : Rabs (17.625 - B2R xf - (17.625 - x))
                 <= 64 / 10000000 + 0.22 * eT) by (apply Rabs_le; lra).
    assert (HM : Rabs (17.625 - x) <= 37.025) by (apply Rabs_le; lra).
    destruct Hop as [Hv He].
    - apply Rle_lt_trans with 40; [apply Rabs_le; lra|numeric].
    - split; [exact Hv|].
      eapply Rle_trans; [apply (round_err _ _ _ _ 37.025 He Hd HM)|].
      numeric. }
  destruct Hs2 as [Hvs2 Hs2].
  assert (Hs2' : 12.4 <= B2R s2) by (apply Rabs_le_inv in Hs2; lra).
  (* the result *)
  unfold magnus. cbv zeta. fold l q x.
  set (t := 243.04 * x / (17.625 - x)).
  assert (Htb : -128 <= t <= 128).
  { unfold t. split.
    - apply Rmult_le_reg_r with (17.625 - x); [lra|].
      unfold Rdiv. rewrite Rmult_assoc, Rinv_l by lra. lra.
    - apply Rmult_le_reg_r with (17.625 - x); [lra|].
      unfold Rdiv. rewrite Rmult_assoc, Rinv_l by lra. lra. }
  assert (Hd : Rabs (B2R p2 / B2R s2 - t) <= 25 / 100000 + 6.8 * eT).
  { eapply Rle_trans.
    - apply (quot_err (B2R p2) (243.04 * x) (B2R s2) (17.625 - x)
               (198 / 100000 + 54 * eT) (87 / 10000000 + 0.23 * eT)
               12.4 128); try assumption; try lra.
      fold t. apply Rabs_le. lra.
    - lra. }
  pose proof (div32 p2 s2 Hvp2 Hvs2) as Hop.
  destruct Hop as [Hv He]; [lra| |].
  - apply Rabs_le_inv in Hd.
    apply Rle_lt_trans with 130; [apply Rabs_le; lra|numeric].
  - split; [exact Hv|].
    assert (HM : Rabs t <= 128) by (apply Rabs_le; lra).
    eapply Rle_trans; [apply (round_err _ _ _ _ 128 He Hd HM)|].
    numeric.
Qed.

Lemma magnus_bounds (T H : R) :
  -100 <= T <= 100 -> 1 <= H <= 100 -> -128 <= magnus T H <= 128.
Proof.
  intros HT HH. unfold magnus. cbv zeta.
  set (l := ln (H / 100)).
  assert (Hlb : -7 <= l <= 0).
  { unfold l. split.
    - eapply Rle_trans; [exact ln_hundredth|]. apply ln_le; lra.
    - pose proof (ln_le_minus_1 (H / 100) ltac:(lra)). lra. }
  pose proof (quotient_bounds T HT) as Hq.
  set (q := 17.625 * T / (243.04 + T)) in *.
  set (x := l + q).
  assert (Hxb : -19.4 <= x <= 5.2) by (unfold x; lra).
  split.
  - apply Rmult_le_reg_r with (17.625 - x); [lra|].
    unfold Rdiv. rewrite Rmult_assoc, Rinv_l by lra. lra.
  - apply Rmult_le_reg_r with (17.625 - x); [lra|].
    unfold Rdiv. rewrite Rmult_assoc, Rinv_l by lra. lra.
Qed.

Lemma value_five_ninths :
  B2R (Binary32.div (float_of_Z 5) (float_of_Z 9)) = 9320676 / 16777216.
Proof.
  change (Binary32.div (float_of_Z 5) (float_of_Z 9))
    with (S754_finite false 9320676 (-24)).
  rewrite B2R_finite, bpow_m24. unfold sign_of. lra.
Qed.

Lemma value_nine_fifths :
  B2R (Binary32.div (float_of_Z 9) (float_of_Z 5)) = 15099494 / 8388608.
Proof.
  change (Binary32.div (float_of_Z 9) (float_of_Z 5))
    with (S754_finite false 15099494 (-23)).
  rewrite B2R_finite.
  replace (bpow (-23)) with (/ IZR (2 ^ 23))
    by (symmetry; exact (bpow_neg_IZR 23 ltac:(lia))).
  unfold sign_of. change (2 ^ 23)%Z with 8388608%Z. lra.
Qed.

Lemma value_32 : B2R (float_of_Z 32) = 32.
Proof.
  change (float_of_Z 32) with (S754_finite false 8388608 (-18)).
  rewrite B2R_finite.
  replace (bpow (-18)) with (/ IZR (2 ^ 18))
    by (symmetry; exact (bpow_neg_IZR 18 ltac:(lia))).
  unfold sign_of. change (2 ^ 18)%Z with 262144%Z. lra.
Qed.

Lemma value_100 : B2R (float_of_Z 100) = 100.
Proof.
  change (float_of_Z 100) with (S754_finite false 13107200 (-17)).
  rewrite B2R_finite.
  replace (bpow (-17)) with (/ IZR (2 ^ 17))
    by (symmetry; exact (bpow_neg_IZR 17 ltac:(lia))).
  unfold sign_of. change (2 ^ 17)%Z with 131072%Z. lra.
Qed.

Lemma fin_valid_five_ninths :
  fin_valid (Binary32.div (float_of_Z 5) (float_of_Z 9)).
Proof. split; reflexivity. Qed.

Lemma fin_valid_nine_fifths :
  fin_valid (Binary32.div (float_of_Z 9) (float_of_Z 5)).
Proof. split; reflexivity. Qed.

Lemma fin_valid_float_of_Z_32 : fin_valid (float_of_Z 32).
Proof. split; reflexivity. Qed.

Lemma fin_valid_float_of_Z_100 : fin_valid (float_of_Z 100).
Proof. split; reflexivity. Qed.

(** The conversion to Celsius on [float]. *)
Lemma celsius32_error (Ff : Binary32.float) :
  fin_valid Ff -> -140 <= B2R Ff <= 200 ->
  let c := Binary32.mul (Binary32.div (float_of_Z 5) (float_of_Z 9))
             (Binary32.sub Ff (float_of_Z 32)) in
  fin_valid c /\
  Rabs (B2R c - (B2R Ff - 32) * 5 / 9) <= 2 / 100000.
Proof.
  intros HvF HF c.
  set (F := B2R Ff) in *.
  set (a := Binary32.sub Ff (float_of_Z 32)) in *.
  assert (Ha : fin_valid a /\ Rabs (B2R a - (F - 32)) <= 11 / 1000000).
  { pose proof (sub32 Ff (float_of_Z 32) HvF fin_valid_float_of_Z_32) as Hop.
    rewrite value_32 in Hop. fold F a in Hop.
    assert (Hm : Rabs (F - 32) <= 172) by (apply Rabs_le; lra).
    destruct Hop as [Hv He]; [numeric|].
    split; [exact Hv|]. numeric. }
  destruct Ha as [Hva Ha].
  pose proof (mul32 _ a fin_valid_five_ninths Hva) as Hop.
  rewrite value_five_ninths in Hop. fold c in Hop.
  assert (Hd : Rabs (9320676 / 16777216 * B2R a - (F - 32) * 5 / 9)
               <= 13 / 1000000).
  { replace ((F - 32) * 5 / 9) with (5 / 9 * (F - 32)) by field.
    eapply Rle_trans.
    - apply (prod_err (9320676 / 16777216) (5 / 9) (B2R a) (F - 32)
               (3 / 100000000) (11 / 1000000) (5 / 9) 173).
      + apply Rabs_le. lra.
      + exact Ha.
      + apply Rabs_le. lra.
      + apply Rabs_le_inv in Ha. apply Rabs_le. lra.
    - lra. }
  assert (HM : Rabs ((F - 32) * 5 / 9) <= 96) by (apply Rabs_le; lra).
  destruct Hop as [Hv He].
  - apply Rabs_le_inv in Hd.
    apply Rle_lt_trans with 100; [apply Rabs_le; lra|numeric].
  - split; [exact Hv|].
    eapply Rle_trans; [apply (round_err _ _ _ _ 96 He Hd HM)|].
    numeric.
Qed.

(** The calculator in Fahrenheit on [float] against the composition of
    the specification. *)
Lemma DewPointFahrenheit32_error (logf : Binary32.float -> Binary32.float)
    (Ff Hf : Binary32.float) :
  fin_valid Ff -> fin_valid Hf ->
  -140 <= B2R Ff <= 200 ->
  1 <= B2R Hf <= 100 ->
  let y := Binary32.mul Hf (Binary32.float_literal 0.01) in
  fin_valid (logf y) ->
  Rabs (B2R (logf y) - ln (B2R y)) <= bpow (-20) ->
  fin_valid (DewPointFahrenheit32 logf Ff Hf) /\
  Rabs (B2R (DewPointFahrenheit32 logf Ff Hf)
        - (magnus ((B2R Ff - 32) * 5 / 9) (B2R Hf) * 9 / 5 + 32))
  <= 1 / 1000.
Proof.
  intros HvF HvH HF HH y Hvl Hl.
  rewrite DewPointFahrenheit32_formula.
  destruct (celsius32_error Ff HvF HF) as [Hvc Hc].
  set (c := Binary32.mul (Binary32.div (float_of_Z 5) (float_of_Z 9))
              (Binary32.sub Ff (float_of_Z 32))) in *.
  set (T := (B2R Ff - 32) * 5 / 9) in *.
  assert (HT0 : -96 <= T <= 94) by (unfold T; lra).
  assert (HT : -100 <= T <= 100) by lra.
  assert (HT' : Rabs T <= 100) by (apply Rabs_le; lra).
  assert (Hc' : Rabs (B2R c) <= 100)
    by (apply Rabs_le_inv in Hc; apply Rabs_le; lra).
  destruct (DewPoint32_error logf c Hf T (2 / 100000) Hvc HvH Hc' HT' Hc
              ltac:(lra) HH Hvl Hl) as [HvD HD].
  set (D := DewPoint32 logf c Hf) in *.
  pose proof (magnus_bounds T (B2R Hf) HT HH) as Hmb.
  set (t := magnus T (B2R Hf)) in *.
  (* 9/5 * D *)
  set (g := Binary32.mul (Binary32.div (float_of_Z 9) (float_of_Z 5)) D).
  assert (Hg : fin_valid g /\ Rabs (B2R g - t * 9 / 5) <= 9 / 10000).
  { pose proof (mul32 _ D fin_valid_nine_fifths HvD) as Hop.
    rewrite value_nine_fifths in Hop. fold g in Hop.
    assert (Hd : Rabs (15099494 / 8388608 * B2R D - t * 9 / 5)
                 <= 82 / 100000).
    { replace (t * 9 / 5) with (9 / 5 * t) by field.
      eapply Rle_trans.
      - apply (prod_err (15099494 / 8388608) (9 / 5) (B2R D) t
                 (11 / 100000000) (44 / 100000) (9 / 5) 129).
        + apply Rabs_le. lra.
        + eapply Rle_trans; [exact HD|lra].
        + apply Rabs_le. lra.
        + apply Rabs_le_inv in HD. apply Rabs_le. lra.
      - lra. }
    assert (HM : Rabs (t * 9 / 5) <= 231) by (apply Rabs_le; lra).
    destruct Hop as [Hv He].
    - apply Rabs_le_inv in Hd.
      apply Rle_lt_trans with 240; [apply Rabs_le; lra|numeric].
    - split; [exact Hv|].
      eapply Rle_trans; [apply (round_err _ _ _ _ 231 He Hd HM)|].
      numeric. }
  destruct Hg as [Hvg Hg].
  pose proof (add32 g (float_of_Z 32) Hvg fin_valid_float_of_Z_32) as Hop.
  rewrite value_32 in Hop.
  assert (Hd : Rabs (B2R g + 32 - (t * 9 / 5 + 32)) <= 9 / 10000).
  { replace (B2R g + 32 - (t * 9 / 5 + 32)) with (B2R g - t * 9 / 5) by ring.
    exact Hg. }
  assert (HM : Rabs (t * 9 / 5 + 32) <= 263) by (apply Rabs_le; lra).
  destruct Hop as [Hv He].
  - apply Rabs_le_inv in Hd.
    apply Rle_lt_trans with 270; [apply Rabs_le; lra|numeric].
  - split; [exact Hv|].
    eapply Rle_trans; [apply (round_err _ _ _ _ 263 He Hd HM)|].
    numeric.
Qed.

End ErrorProofs.

Section CalculatorProofs.

(** *** The calculator and the formula *)

Import Binary32.

Lemma value_20 : B2R (float_of_Z 20) = 20%R.
Proof.
  change (float_of_Z 20) with (S754_finite false 10485760 (-19)).
  rewrite B2R_finite.
  replace (bpow (-19)) with (/ IZR (2 ^ 19))%R
    by (symmetry; exact (bpow_neg_IZR 19 ltac:(lia))).
  unfold sign_of. change (2 ^ 19)%Z with 524288%Z. lra.
Qed.

Lemma value_68 : B2R (float_of_Z 68) = 68%R.
Proof.
  change (float_of_Z 68) with (S754_finite false 8912896 (-17)).
  rewrite B2R_finite.
  replace (bpow (-17)) with (/ IZR (2 ^ 17))%R
    by (symmetry; exact (bpow_neg_IZR 17 ltac:(lia))).
  unfold sign_of. change (2 ^ 17)%Z with 131072%Z. lra.
Qed.

Lemma value_one : B2R (S754_finite false 8388608 (-23)) = 1%R.
Proof.
  rewrite B2R_finite.
  replace (bpow (-23)) with (/ IZR (2 ^ 23))%R
    by (symmetry; exact (bpow_neg_IZR 23 ltac:(lia))).
  unfold sign_of. change (2 ^ 23)%Z with 8388608%Z. lra.
Qed.

(** [logf_sample] is exact at [100 * 0.01f], which is one. *)
Lemma logf_sample_accurate :
  accurate_at logf_sample
    (Binary32.mul (float_of_Z 100) (Binary32.float_literal 0.01)).
Proof.
  change (Binary32.mul (float_of_Z 100) (Binary32.float_literal 0.01))
    with (S754_finite false 8388608 (-23)).
  split.
  - split; reflexivity.
  - rewrite value_one, ln_1.
    change (logf_sample (S754_finite false 8388608 (-23)))
      with (S754_zero false).
    cbn [B2R]. rewrite Rminus_diag, Rabs_R0.
    apply Rlt_le, bpow_pos.
Qed.










End CalculatorProofs.

Section SaturationProofs.

(** *** The dew point below saturation *)

Import Binary32.

(** The formula never exceeds the temperature when the humidity is at
    most 100. *)
Lemma magnus_at_most (T H : R) :
  (-243.04 < T)%R -> (0 < H <= 100)%R -> (magnus T H <= T)%R.
Proof.
  intros HT HH. unfold magnus. cbv zeta.
  set (l := ln (H / 100)). set (q := (17.625 * T / (243.04 + T))%R).
  assert (Hl : (l <= 0)%R).
  { unfold l. destruct (Req_dec (H / 100) 1) as [E|E].
    - rewrite E, ln_1. lra.
    - rewrite <- ln_1. apply Rlt_le, ln_increasing; lra. }
  assert (Hqq : ((243.04 + T) * q = 17.625 * T)%R)
    by (unfold q; field; lra).
  assert (Hd : (0 < 17.625 - (l + q))%R).
  { assert (Hp : (0 < (243.04 + T) * (17.625 - q))%R) by nra.
    assert (Hq' : (0 < 17.625 - q)%R).
    { apply Rmult_lt_reg_l with (243.04 + T)%R; lra. }
    lra. }
  apply Rmult_le_reg_r with (1 := Hd).
  unfold Rdiv. rewrite Rmult_assoc, Rinv_l, Rmult_1_r by lra.
  nra.
Qed.

(** When the humidity is at most 100, the dew point the calculator
    returns exceeds the temperature by no more than its rounding
    error: 3/10000 in Celsius and 1/1000 in Fahrenheit, for
    temperatures from -100 to 100 degrees Celsius or -140 to 200
    degrees Fahrenheit, humidities from 1 to 100, and a [logf] that is
    accurate at [H * 0.01f]. *)
Theorem dew_point_at_most_temperature (logf : float -> float) (H : float) :
  fin_valid H -> (1 <= B2R H <= 100)%R ->
  accurate_at logf (Binary32.mul H (Binary32.float_literal 0.01)) ->
  (forall T : float,
     fin_valid T -> (Rabs (B2R T) <= 100)%R ->
     (B2R (DewPoint32 logf T H) <= B2R T + 3 / 10000)%R) /\
  (forall F : float,
     fin_valid F -> (-140 <= B2R F <= 200)%R ->
     (B2R (DewPointFahrenheit32 logf F H) <= B2R F + 1 / 1000)%R).
Proof.
  intros HvH HH [Hvl Hl]. split.
  - intros T HvT HT.
    destruct (DewPoint32_error logf T H (B2R T) 0 HvT HvH HT HT)
      as [_ He]; try assumption.
    + rewrite Rminus_diag, Rabs_R0. lra.
    + lra.
    + apply Rabs_le_inv in He. apply Rabs_le_inv in HT.
      pose proof (magnus_at_most (B2R T) (B2R H) ltac:(lra) ltac:(lra)).
      lra.
  - intros F HvF HF.
    destruct (DewPointFahrenheit32_error logf F H HvF HvH HF HH Hvl Hl)
      as [_ He].
    apply Rabs_le_inv in He.
    pose proof (magnus_at_most ((B2R F - 32) * 5 / 9) (B2R H)
                  ltac:(lra) ltac:(lra)).
    lra.
Qed.

Lemma dew_point_at_most_temperature_witness :
  (B2R (DewPoint32 logf_sample (float_of_Z 20) (float_of_Z 100))
   <= B2R (float_of_Z 20) + 3 / 10000)%R /\
  (B2R (DewPointFahrenheit32 logf_sample (float_of_Z 68) (float_of_Z 100))
   <= B2R (float_of_Z 68) + 1 / 1000)%R.
Proof.
  assert (HH : (1 <= B2R (float_of_Z 100) <= 100)%R)
    by (rewrite value_100; lra).
  destruct (dew_point_at_most_temperature logf_sample (float_of_Z 100)
              fin_valid_float_of_Z_100 HH logf_sample_accurate) as [HC HF].
  split.
  - apply HC; [split; reflexivity|].
    rewrite value_20. apply Rabs_le. lra.
  - apply HF; [split; reflexivity|].
    rewrite value_68. lra.
Defined.

End SaturationProofs.

Section ScanProofs.

(** *** The scan of [getopt_long] *)

Import Getopt.

Lemma size_app (l1 l2 : list string) :
  size (l1 ++ l2) = (size l1 + size l2)%nat.
Proof.
  induction l1 as [|s l1 IH]; simpl; [reflexivity|]. rewrite IH. lia.
Qed.

Lemma size_skipn_le (n : nat) (l : list string) :
  (size (skipn n l) <= size l)%nat.
Proof.
  rewrite <- (firstn_skipn n l) at 2. rewrite size_app. lia.
Qed.

Lemma skipn_nth (n : nat) (l : list string) :
  (n < List.length l)%nat -> skipn n l = nth n l "" :: skipn (S n) l.
Proof.
  revert l; induction n as [|n IH]; intros [|s l] H; simpl in *;
    try lia; [reflexivity|].
  apply IH. lia.
Qed.

Lemma skipn_skipn_add (n m : nat) (l : list string) :
  skipn n (skipn m l) = skipn (m + n) l.
Proof.
  revert l; induction m as [|m IH]; intros l; simpl; [reflexivity|].
  destruct l; [now rewrite skipn_nil|]. apply IH.
Qed.


Lemma skipn_S_cons (n : nat) (l : list string) (x : string)
    (r : list string) :
  skipn n l = x :: r -> skipn (S n) l = r.
Proof.
  intros H.
  rewrite <- (Nat.add_1_r n), <- skipn_skipn_add, H. reflexivity.
Qed.

(** The effect of skipping non-options: the position moves forward by
    a number of elements, and stops at the end or on an option. *)
Lemma skip_nonoptions_spec (rest : list string) (i : nat) :
  exists k : nat,
    skip_nonoptions rest i = (i + k)%nat /\ (k <= List.length rest)%nat /\
    Forall (fun s => nonoption s = true) (firstn k rest) /\
    match skipn k rest with
    | s :: _ => nonoption s = false
    | [] => True
    end.
Proof.
  revert i; induction rest as [|s rest IH]; intros i; simpl.
  - exists O. simpl. repeat split; auto; lia.
  - destruct (nonoption s) eqn:E.
    + destruct (IH (S i)) as (k & -> & Hk & Hf & Hs).
      exists (S k). simpl. repeat split; auto; lia.
    + exists O. simpl. repeat split; auto; lia.
Qed.

(** [exchange] keeps the length of [argv] and what lies from [optind]
    on. *)
Lemma exchange_spec (argv : list string) (d : data) :
  (first_nonopt d <= last_nonopt d)%nat ->
  (last_nonopt d <= optind d)%nat ->
  (optind d <= List.length argv)%nat ->
  List.length (fst (exchange argv d)) = List.length argv /\
  skipn (optind d) (fst (exchange argv d)) = skipn (optind d) argv /\
  snd (exchange argv d)
  = with_last_nonopt (optind d)
      (with_first_nonopt
         (first_nonopt d + (optind d - last_nonopt d))%nat d).
Proof.
  intros H1 H2 H3. unfold exchange. cbn [fst snd].
  set (b := first_nonopt d) in *. set (m := last_nonopt d) in *.
  set (t := optind d) in *.
  assert (Hl1 : List.length (firstn b argv) = b)
    by (rewrite length_firstn; lia).
  assert (Hl2 : List.length (firstn (t - m) (skipn m argv)) = (t - m)%nat)
    by (rewrite length_firstn, length_skipn; lia).
  assert (Hl3 : List.length (firstn (m - b) (skipn b argv)) = (m - b)%nat)
    by (rewrite length_firstn, length_skipn; lia).
  split; [|split; [|reflexivity]].
  - rewrite !length_app, Hl1, Hl2, Hl3, length_skipn. lia.
  - rewrite !app_assoc.
    rewrite skipn_app.
    replace (skipn t _) with (@nil string).
    + simpl. rewrite !length_app, Hl1, Hl2, Hl3.
      replace (t - (b + (t - m) + (m - b)))%nat with O by lia.
      reflexivity.
    + symmetry. apply skipn_all2.
      rewrite !length_app, Hl1, Hl2, Hl3. lia.
Qed.

(** [advance] moves [optind] forward and leaves what lies from the new
    [optind] on as it was. *)
Lemma advance_spec (argv : list string) (d : data) :
  (first_nonopt d <= last_nonopt d)%nat ->
  (last_nonopt d <= optind d)%nat ->
  (optind d <= List.length argv)%nat ->
  let a := advance argv d in
  List.length (fst a) = List.length argv /\
  (optind d <= optind (snd a) <= List.length argv)%nat /\
  skipn (optind (snd a)) (fst a) = skipn (optind (snd a)) argv /\
  (first_nonopt (snd a) <= last_nonopt (snd a))%nat /\
  (last_nonopt (snd a) <= optind (snd a))%nat /\
  nextchar (snd a) = nextchar d /\
  ordering (snd a) = ordering d /\
  match ordering d with
  | PERMUTE =>
      Forall (fun s => nonoption s = true)
        (firstn (optind (snd a) - optind d) (skipn (optind d) argv)) /\
      match skipn (optind (snd a)) argv with
      | s :: _ => nonoption s = false
      | [] => True
      end
  | _ => a = (argv, d)
  end.
Proof.
  intros H1 H2 H3. destruct d as [o nc ord f l]. cbn in H1, H2, H3.
  unfold advance. cbn [optind first_nonopt last_nonopt nextchar ordering
                         with_last_nonopt with_first_nonopt with_optind].
  replace (o <? l)%nat with false by (symmetry; apply Nat.ltb_ge; lia).
  cbn [optind first_nonopt last_nonopt nextchar ordering].
  replace (o <? f)%nat with false by (symmetry; apply Nat.ltb_ge; lia).
  cbn [optind first_nonopt last_nonopt nextchar ordering].
  destruct ord; cbn [fst snd optind first_nonopt last_nonopt nextchar ordering];
    try (repeat split; auto; lia).
  set (d0 := {| optind := o; nextchar := nc; ordering := PERMUTE;
                first_nonopt := f; last_nonopt := l |}).
  match goal with
  | |- context [fst (let '(_, _) := ?X in _)] => set (x := X)
  end.
  assert (Hx : List.length (fst x) = List.length argv /\
               skipn o (fst x) = skipn o argv /\
               optind (snd x) = o /\ nextchar (snd x) = nc /\
               ordering (snd x) = PERMUTE /\
               (first_nonopt (snd x) <= o)%nat).
  { subst x. destruct (negb (f =? l)%nat && negb (l =? o)%nat) eqn:E1.
    - destruct (exchange_spec argv d0 H1 H2 H3) as (L & S & D).
      rewrite D. cbn. repeat split; auto. lia.
    - destruct (negb (l =? o)%nat) eqn:E2; cbn; repeat split; auto; lia. }
  destruct x as [argv1 d1]. cbn [fst snd] in Hx.
  destruct Hx as (L1 & S1 & O1 & N1 & R1 & F1).
  rewrite O1, S1.
  destruct (skip_nonoptions_spec (skipn o argv) o) as (k & -> & Hk & Hf & Hs).
  rewrite length_skipn in Hk.
  cbn [fst snd optind first_nonopt last_nonopt nextchar ordering
         with_last_nonopt with_optind].
  replace (o + k - o)%nat with k by lia.
  rewrite skipn_skipn_add in Hs.
  assert (S2 : skipn (o + k) argv1 = skipn (o + k) argv).
  { rewrite <- !skipn_skipn_add. now rewrite S1. }
  repeat split; auto; lia.
Qed.

(** [end_of_options] either meets [--] and moves [optind] to the end,
    or changes nothing. *)
Lemma end_of_options_spec (argv : list string) (d : data) :
  (first_nonopt d <= last_nonopt d)%nat ->
  (last_nonopt d <= optind d)%nat ->
  (optind d <= List.length argv)%nat ->
  let e := end_of_options argv d in
  (nth (optind d) argv "" = "--" /\ (optind d < List.length argv)%nat /\
   optind (snd e) = List.length argv) \/
  (e = (argv, d) /\
   (optind d = List.length argv \/ nth (optind d) argv "" <> "--")).
Proof.
  intros H1 H2 H3. unfold end_of_options.
  destruct (optind d =? List.length argv)%nat eqn:E1; cbn [negb andb].
  { right. apply Nat.eqb_eq in E1. auto. }
  destruct (String.eqb_spec (nth (optind d) argv "") "--") as [E2|E2].
  2:{ right. auto. }
  left. apply Nat.eqb_neq in E1.
  split; [exact E2|]. split; [lia|].
  match goal with
  | |- context [let '(_, _) := ?X in _] => destruct X as [argv1 d1]
  end.
  reflexivity.
Qed.

Lemma size_skipn_S (n : nat) (l : list string) :
  (n < List.length l)%nat ->
  size (skipn n l)
  = (S (String.length (nth n l "")) + size (skipn (S n) l))%nat.
Proof.
  intros H. rewrite (skipn_nth n l H). reflexivity.
Qed.

(** A call on a pending cluster takes its next character. *)
Lemma getopt_long_cluster (argv : list string) (optstring : string)
    (longopts : list option_) (d : data) (c : ascii) (rest : string) :
  (1 <= List.length argv)%nat ->
  nextchar d = Some (String c rest) ->
  getopt_long argv optstring longopts d
  = short_option argv optstring d c rest.
Proof.
  intros Hl Hn. unfold getopt_long.
  replace (List.length argv <? 1)%nat with false
    by (symmetry; apply Nat.ltb_ge; lia).
  now rewrite Hn.
Qed.

(** A call with no cluster pending moves to the next element. *)
Lemma getopt_long_boundary (argv : list string) (optstring : string)
    (longopts : list option_) (d : data) :
  (1 <= List.length argv)%nat ->
  nextchar d = None \/ nextchar d = Some "" ->
  getopt_long argv optstring longopts d
  = next_element argv optstring longopts d.
Proof.
  intros Hl Hn. unfold getopt_long.
  replace (List.length argv <? 1)%nat with false
    by (symmetry; apply Nat.ltb_ge; lia).
  now destruct Hn as [-> | ->].
Qed.

(** What [next_element] does: it ends the scan, or it reaches an
    element [arg] of [argv], past the non-options it may skip, and
    hands it to the case that fits. *)
Lemma next_element_spec (argv : list string) (optstring : string)
    (longopts : list option_) (d : data) :
  (first_nonopt d <= last_nonopt d)%nat ->
  (last_nonopt d <= optind d)%nat ->
  (optind d <= List.length argv)%nat ->
  let r := next_element argv optstring longopts d in
  ret r = -1 \/
  exists (argv1 : list string) (d1 : data),
    List.length argv1 = List.length argv /\
    (optind d <= optind d1 < List.length argv)%nat /\
    skipn (optind d1) argv1 = skipn (optind d1) argv /\
    (first_nonopt d1 <= last_nonopt d1)%nat /\
    (last_nonopt d1 <= optind d1)%nat /\
    nextchar d1 = nextchar d /\
    ordering d1 = ordering d /\
    match ordering d with
    | PERMUTE =>
        Forall (fun s => nonoption s = true)
          (firstn (optind d1 - optind d) (skipn (optind d) argv))
    | _ => argv1 = argv /\ d1 = d
    end /\
    let arg := nth (optind d1) argv "" in
    arg <> "--" /\
    ((nonoption arg = true /\ ordering d = RETURN_IN_ORDER /\
      r = {| ret := 1; argv_out := argv1;
             data_out := with_optind (S (optind d1)) d1;
             diagnostic := None |}) \/
     (exists text : string,
        arg = String "-" (String "-" text) /\
        r = process_long_option argv1 longopts d1 text) \/
     (exists (c : ascii) (rest : string),
        arg = String "-" (String c rest) /\ c <> "-"%char /\
        r = short_option argv1 optstring d1 c rest)).
Proof.
  intros H1 H2 H3. cbv zeta. unfold next_element.
  pose proof (advance_spec argv d H1 H2 H3) as Ha. cbv zeta in Ha.
  destruct (advance argv d) as [argv1 d1]. cbn [fst snd] in Ha.
  destruct Ha as (L1 & O1 & S1 & F1 & F2 & N1 & R1 & P1).
  assert (O1' : (optind d1 <= List.length argv1)%nat) by lia.
  pose proof (end_of_options_spec argv1 d1 F1 F2 O1') as He.
  cbv zeta in He.
  destruct (end_of_options argv1 d1) as [argv2 d2]. cbn [fst snd] in He.
  destruct He as [(_ & _ & He)|(He & Hdd)].
  { rewrite He, <- L1, Nat.eqb_refl. now left. }
  injection He as -> ->.
  destruct (optind d1 =? List.length argv)%nat eqn:Eo; [now left|].
  apply Nat.eqb_neq in Eo.
  assert (Hlt : (optind d1 < List.length argv1)%nat) by lia.
  assert (Harg : nth (optind d1) argv1 "" = nth (optind d1) argv "").
  { pose proof (skipn_nth _ _ Hlt) as E1.
    rewrite S1, (skipn_nth (optind d1) argv) in E1 by lia.
    now injection E1. }
  rewrite Harg in *.
  assert (Hdash : nth (optind d1) argv "" <> "--") by (destruct Hdd; [exfalso; lia|assumption]).
  destruct (nonoption (nth (optind d1) argv "")) eqn:En.
  - rewrite R1. destruct (ordering d) eqn:Eord; [now left| |].
    { exfalso. destruct P1 as [_ P1].
      rewrite (skipn_nth (optind d1) argv) in P1 by lia. congruence. }
    right. exists argv1, d1. cbv zeta. injection P1 as -> ->.
    repeat split; auto; lia.
  - right. exists argv1, d1. cbv zeta.
    assert (HP : match ordering d with
                 | PERMUTE =>
                     Forall (fun s => nonoption s = true)
                       (firstn (optind d1 - optind d) (skipn (optind d) argv))
                 | _ => argv1 = argv /\ d1 = d
                 end).
    { destruct (ordering d); try (injection P1 as -> ->; auto).
      apply P1. }
    repeat split; auto; try lia.
    right.
    destruct (nth (optind d1) argv "") as [|a [|b text]] eqn:Earg;
      try discriminate En.
    { destruct a as [[] [] [] [] [] [] [] []]; discriminate En. }
    assert (a = "-"%char).
    { destruct a as [[] [] [] [] [] [] [] []]; try discriminate En.
      reflexivity. }
    subst a.
    destruct (Ascii.eqb_spec b "-") as [->|Hb].
    + left. exists text. auto.
    + right. exists b, text. repeat split; auto.
      destruct b as [[] [] [] [] [] [] [] []]; try reflexivity.
      congruence.
Qed.

(** The state a character of a cluster leaves. *)
Lemma short_option_state (argv : list string) (optstring : string)
    (d : data) (c : ascii) (rest : string) :
  let r := short_option argv optstring d c rest in
  argv_out r = argv /\
  data_out r
  = match rest with
    | EmptyString => with_optind (S (optind d)) (with_nextchar (Some "") d)
    | _ => with_nextchar (Some rest) d
    end.
Proof.
  unfold short_option. destruct (_ || _); cbn [argv_out data_out];
    split; try reflexivity; now destruct rest.
Qed.

(** The state a long option leaves. *)
Lemma process_long_option_state (argv : list string)
    (longopts : list option_) (d : data) (text : string) :
  let r := process_long_option argv longopts d text in
  argv_out r = argv /\
  (data_out r = with_optind (S (optind d)) (with_nextchar (Some "") d) \/
   data_out r = with_optind (S (optind d)) (with_nextchar None d)).
Proof.
  unfold process_long_option.
  destruct (split_name text) as [n has_eq].
  destruct (find_option longopts n); [destruct has_eq| |];
    cbn [argv_out data_out]; split; auto;
    right; now destruct d.
Qed.

(** Every call that does not end the scan leaves a well-formed state
    with less to scan. *)
Lemma getopt_long_progress (argv : list string) (optstring : string)
    (longopts : list option_) (d : data) :
  well_formed argv d ->
  let r := getopt_long argv optstring longopts d in
  ret r = -1 \/
  (well_formed (argv_out r) (data_out r) /\
   (measure (argv_out r) (data_out r) < measure argv d)%nat).
Proof.
  intros (H1 & H2 & H3). cbv zeta.
  destruct (Nat.ltb_spec (List.length argv) 1) as [Hl|Hl].
  { left. unfold getopt_long.
    replace (List.length argv <? 1)%nat with true
      by (symmetry; apply Nat.ltb_lt; lia).
    reflexivity. }
  assert (Hcases : (exists c rest, nextchar d = Some (String c rest)) \/
                   (nextchar d = None \/ nextchar d = Some "")).
  { destruct (nextchar d) as [[|c rest]|]; eauto. }
  destruct Hcases as [(c & rest & Hn)|Hn].
  - (* inside a cluster *)
    rewrite Hn in H3.
    rewrite (getopt_long_cluster argv optstring longopts d c rest Hl Hn).
    destruct (short_option_state argv optstring d c rest) as (-> & ->).
    right. unfold well_formed, measure. rewrite Hn.
    destruct d as [o nc ord f l]. cbn in *.
    destruct rest; cbn; repeat split; lia.
  - (* between elements *)
    rewrite (getopt_long_boundary argv optstring longopts d Hl Hn).
    assert (H3' : (optind d <= List.length argv)%nat)
      by (destruct Hn as [Hn|Hn]; rewrite Hn in H3; exact H3).
    assert (Hm : measure argv d = size (skipn (optind d) argv))
      by (unfold measure; destruct Hn as [-> | ->]; reflexivity).
    destruct (next_element_spec argv optstring longopts d H1 H2 H3')
      as [Hr|(argv1 & d1 & L1 & O1 & S1 & F1 & F2 & N1 & R1 & _ & _ & Hr)];
      [now left|].
    right. rewrite Hm.
    assert (Hlt : (optind d1 < List.length argv1)%nat) by lia.
    assert (Hs : (size (skipn (optind d1) argv1)
                  <= size (skipn (optind d) argv))%nat).
    { rewrite S1.
      replace (optind d1) with (optind d + (optind d1 - optind d))%nat by lia.
      rewrite <- skipn_skipn_add. apply size_skipn_le. }
    rewrite (size_skipn_S _ _ Hlt) in Hs.
    assert (Harg : nth (optind d1) argv1 "" = nth (optind d1) argv "").
    { pose proof (skipn_nth _ _ Hlt) as E1.
      rewrite S1, (skipn_nth (optind d1) argv) in E1 by lia.
      now injection E1. }
    rewrite Harg in Hs.
    assert (Hb : nextchar d1 = None \/ nextchar d1 = Some "")
      by (now rewrite N1).
    destruct Hr as [(_ & _ & ->)|[(text & Ea & ->)|(c & rest & Ea & _ & ->)]].
    + cbn [argv_out data_out]. unfold well_formed, measure.
      destruct d1 as [o1 nc1 ord1 f1 l1]. cbn in *.
      destruct Hb as [-> | ->]; cbn; repeat split; lia.
    + destruct (process_long_option_state argv1 longopts d1 text)
        as (-> & [-> | ->]);
        unfold well_formed, measure; destruct d1 as [o1 nc1 ord1 f1 l1];
        cbn in *; repeat split; lia.
    + destruct (short_option_state argv1 optstring d1 c rest) as (-> & ->).
      rewrite Ea in Hs. cbn [String.length] in Hs.
      unfold well_formed, measure. destruct d1 as [o1 nc1 ord1 f1 l1].
      cbn in *. destruct rest; cbn in *; repeat split; lia.
Qed.

(** Where the skipping of non-options stops is determined by the
    list. *)
Lemma skip_unique (ns : list string) (s : string) (rest : list string)
    (k : nat) :
  Forall (fun x => nonoption x = true) ns ->
  nonoption s = false ->
  Forall (fun x => nonoption x = true) (firstn k (ns ++ s :: rest)) ->
  match skipn k (ns ++ s :: rest) with
  | x :: _ => nonoption x = false
  | [] => True
  end ->
  k = List.length ns.
Proof.
  revert k; induction ns as [|n ns IH]; intros k Hns Hs Hf Hk.
  - destruct k as [|k]; [reflexivity|].
    cbn in Hf. inversion Hf; congruence.
  - inversion Hns as [|? ? Hn Hns']; subst.
    destruct k as [|k]; cbn in *; [congruence|].
    f_equal. apply IH; auto. now inversion Hf.
Qed.

(** The call that meets an option [s], after the non-options [ns] it
    may skip under [PERMUTE]: [s] is handed to the case that fits, in a
    state that stands on it. *)
Lemma next_element_option (argv : list string) (optstring : string)
    (longopts : list option_) (d : data) (ns : list string) (s : string)
    (rest : list string) :
  (first_nonopt d <= last_nonopt d)%nat ->
  (last_nonopt d <= optind d)%nat ->
  skipn (optind d) argv = (ns ++ s :: rest)%list ->
  Forall (fun x => nonoption x = true) ns ->
  ordering d = PERMUTE \/ ns = [] ->
  nonoption s = false ->
  s <> "--" ->
  exists (argv1 : list string) (d1 : data),
    List.length argv1 = List.length argv /\
    skipn (optind d1) argv1 = s :: rest /\
    (first_nonopt d1 <= last_nonopt d1)%nat /\
    (last_nonopt d1 <= optind d1)%nat /\
    (optind d1 < List.length argv1)%nat /\
    nextchar d1 = nextchar d /\
    ordering d1 = ordering d /\
    ((exists text : string,
        s = String "-" (String "-" text) /\
        next_element argv optstring longopts d
        = process_long_option argv1 longopts d1 text) \/
     (exists (c : ascii) (cs : string),
        s = String "-" (String c cs) /\ c <> "-"%char /\
        next_element argv optstring longopts d
        = short_option argv1 optstring d1 c cs)).
Proof.
  intros H1 H2 Hs Hns Hord Hopt Hdash.
  assert (H3 : (optind d <= List.length argv)%nat).
  { destruct (Nat.le_gt_cases (optind d) (List.length argv)) as [H|H]; auto.
    rewrite skipn_all2 in Hs by lia. now destruct ns. }
  unfold next_element.
  pose proof (advance_spec argv d H1 H2 H3) as Ha. cbv zeta in Ha.
  destruct (advance argv d) as [argv1 d1]. cbn [fst snd] in Ha.
  destruct Ha as (L1 & O1 & S1 & F1 & F2 & N1 & R1 & P1).
  assert (Hk : (optind d1 - optind d)%nat = List.length ns).
  { assert (Hp : ordering d = PERMUTE -> (optind d1 - optind d)%nat = List.length ns).
    { intros Ho. rewrite Ho in P1. destruct P1 as [Pf Pk].
      rewrite Hs in Pf.
      apply (skip_unique ns s rest); auto.
      replace (optind d1) with (optind d + (optind d1 - optind d))%nat
        in Pk by lia.
      now rewrite <- skipn_skipn_add, Hs in Pk. }
    destruct Hord as [Hord|Hnil]; [auto|].
    destruct (ordering d); auto; injection P1 as _ ->; subst ns; cbn; lia. }
  assert (Hsk : skipn (optind d1) argv = s :: rest).
  { replace (optind d1) with (optind d + List.length ns)%nat by lia.
    rewrite <- skipn_skipn_add, Hs, skipn_app, skipn_all, Nat.sub_diag.
    reflexivity. }
  assert (Hlt : (optind d1 < List.length argv)%nat).
  { destruct (Nat.le_gt_cases (List.length argv) (optind d1)) as [H|H]; auto.
    rewrite skipn_all2 in Hsk by lia. discriminate. }
  assert (Hsk1 : skipn (optind d1) argv1 = s :: rest) by congruence.
  assert (Hn : nth (optind d1) argv1 "" = s).
  { pose proof Hsk1 as E.
    rewrite (skipn_nth (optind d1) argv1) in E by lia. now injection E. }
  pose proof (end_of_options_spec argv1 d1 F1 F2 ltac:(lia)) as He.
  cbv zeta in He.
  destruct (end_of_options argv1 d1) as [argv2 d2]. cbn [fst snd] in He.
  destruct He as [(He & _)|(He & _)]; [congruence|].
  injection He as -> ->.
  replace (optind d1 =? List.length argv)%nat with false
    by (symmetry; apply Nat.eqb_neq; lia).
  rewrite Hn, Hopt.
  exists argv1, d1.
  repeat (split; [assumption || lia|]).
  destruct s as [|a [|b text]]; try discriminate Hopt.
  { destruct a as [[] [] [] [] [] [] [] []]; discriminate Hopt. }
  assert (a = "-"%char).
  { destruct a as [[] [] [] [] [] [] [] []]; try discriminate Hopt.
    reflexivity. }
  subst a.
  destruct (Ascii.eqb_spec b "-") as [->|Hb].
  - left. exists text. auto.
  - right. exists b, text. repeat split; auto.
    destruct b as [[] [] [] [] [] [] [] []]; try reflexivity.
    congruence.
Qed.

End ScanProofs.

Section LoopProofs.

Import Getopt.

(** *** The option loop *)

(** A call that records no diagnostic wrote nothing. *)
Lemma written_None (catalog : message -> string) (r : result) :
  diagnostic r = None -> written catalog r = "".
Proof. unfold written. now intros ->. Qed.

Lemma option_loop_S (catalog : message -> string)
    (fuel : nat) (L : string) (b : bool)
    (argv : list string) (d : data) (u : bool) (err : string) :
  option_loop catalog (S fuel) L b argv d u err =
  let r := getopt_long argv "cf" long_options d in
  let c := ret r in
  let err' := err ++ written catalog r in
  if c =? -1 then Break (argv_out r) (data_out r) u
  else if c =? code "c" then
    option_loop catalog fuel L b (argv_out r) (data_out r) false err'
  else if c =? code "f" then
    option_loop catalog fuel L b (argv_out r) (data_out r) true err'
  else if c =? kHelpLongOption then Return (Exit 0 (help_text L b) err')
  else if c =? code "?" then Return (Exit 1 "" (err' ++ kAskForHelp))
  else Return (Exit 1 "" (err' ++ "Internal error; please report."
                               ++ newline)).
Proof. reflexivity. Qed.

(** With more fuel than there is left to scan, the loop ends by
    [break] or by [return], never for want of fuel. *)
Lemma option_loop_terminates (catalog : message -> string)
    (fuel : nat) (L : string) (b : bool) :
  forall (argv : list string) (d : data) (u : bool) (err : string),
    well_formed argv d ->
    (measure argv d < fuel)%nat ->
    option_loop catalog fuel L b argv d u err <> Return OutOfFuel.
Proof.
  induction fuel as [|fuel IH]; intros argv d u err Hw Hm; [lia|].
  rewrite option_loop_S. cbv zeta.
  pose proof (getopt_long_progress argv "cf" long_options d Hw) as Hp.
  cbv zeta in Hp.
  destruct (ret (getopt_long argv "cf" long_options d) =? -1) eqn:E1;
    [discriminate|].
  apply Z.eqb_neq in E1.
  destruct Hp as [Hp|(Hw' & Hm')]; [contradiction|].
  repeat match goal with
         | |- (if ?c then _ else _) <> _ => destruct c
         end;
    try discriminate; apply IH; auto; lia.
Qed.

Lemma initialize_well_formed (argv : list string) (pc : bool) :
  (1 <= List.length argv)%nat ->
  well_formed argv (initialize "cf" pc) /\
  (measure argv (initialize "cf" pc) < loop_fuel argv)%nat.
Proof.
  intros Hl. unfold well_formed, measure, loop_fuel. cbn.
  repeat split; auto.
  destruct argv as [|p argv]; cbn in *; [lia|].
  fold (size argv). lia.
Qed.

(** The model of [main] always has fuel enough. *)
Lemma parse_terminates (env : environment) (argv : list string) :
  parse env argv <> Stop OutOfFuel.
Proof.
  unfold parse.
  destruct (option_loop _ _ _ _ _ _ _ _) as [argv' d' u|o] eqn:El.
  - unfold read_arguments. destruct (negb _); [discriminate|].
    destruct (ReadFloat _ _); [|discriminate].
    destruct (ReadFloat _ _); [|discriminate].
    destruct (Binary32.le _ _); discriminate.
  - intros H. injection H as ->.
    destruct argv as [|p argv].
    + discriminate El.
    + revert El. apply option_loop_terminates;
        apply initialize_well_formed; cbn; lia.
Qed.

(** The option loop always ends: whatever the arguments and the
    environment, [main] finishes within the fuel that [loop_fuel]
    gives the loop, since every call of [getopt_long] that does not
    end the loop uses up a character or an element of [argv]. *)
Lemma main_terminates (logf : Binary32.float -> Binary32.float)
    (env : environment) (argv : list string) :
  main logf env argv <> OutOfFuel.
Proof.
  unfold main. pose proof (parse_terminates env argv) as Hp.
  destruct (parse env argv) as [o|u t h].
  - congruence.
  - unfold report. destruct (Binary32.to_int _); discriminate.
Qed.

End LoopProofs.

Section HelpProofs.

Import Getopt.

(** *** Flags *)

Lemma unit_flag_option (s : string) :
  unit_flag s = true -> nonoption s = false /\ s <> "--".
Proof.
  intros H. destruct s as [|a [|b text]]; try discriminate H.
  { destruct a as [[] [] [] [] [] [] [] []]; discriminate H. }
  assert (a = "-"%char).
  { destruct a as [[] [] [] [] [] [] [] []]; try discriminate H.
    reflexivity. }
  subst a. split; [reflexivity|].
  intros E. injection E as -> ->. discriminate H.
Qed.

Lemma help_flag_option (s : string) :
  help_flag s = true ->
  nonoption s = false /\ s <> "--" /\
  exists text, s = String "-" (String "-" text).
Proof.
  intros H. destruct s as [|a [|b text]]; try discriminate H.
  { destruct a as [[] [] [] [] [] [] [] []]; discriminate H. }
  assert (a = "-"%char).
  { destruct a as [[] [] [] [] [] [] [] []]; try discriminate H.
    reflexivity. }
  subst a.
  assert (b = "-"%char).
  { destruct b as [[] [] [] [] [] [] [] []]; try discriminate H.
    reflexivity. }
  subst b. split; [reflexivity|]. split; [|eauto].
  intros E. injection E as ->. discriminate H.
Qed.

Lemma process_long_option_help (argv : list string) (d : data)
    (text : string) :
  help_flag (String "-" (String "-" text)) = true ->
  let r := process_long_option argv long_options d text in
  ret r = kHelpLongOption /\ diagnostic r = None.
Proof.
  cbn [help_flag]. unfold process_long_option.
  destruct (split_name text) as [n has_eq].
  destruct (find_option long_options n) as [p| |]; rewrite ?andb_false_r;
    try discriminate.
  destruct has_eq; try discriminate. cbn [negb andb].
  intros H. apply Z.eqb_eq in H. cbn. auto.
Qed.

Lemma process_long_option_unit (argv : list string) (d : data)
    (text : string) :
  unit_flag (String "-" (String "-" text)) = true ->
  let r := process_long_option argv long_options d text in
  (ret r = code "c" \/ ret r = code "f") /\ diagnostic r = None /\
  argv_out r = argv /\
  data_out r = with_nextchar None (with_optind (S (optind d)) d).
Proof.
  cbn [unit_flag]. unfold process_long_option.
  destruct (split_name text) as [n has_eq].
  destruct (find_option long_options n) as [p| |]; rewrite ?andb_false_r;
    try discriminate.
  destruct has_eq; try discriminate. cbn [negb andb].
  intros H. apply orb_true_iff in H. rewrite !Z.eqb_eq in H. cbn. auto.
Qed.

Lemma short_option_unit (argv : list string) (d : data) (c : ascii)
    (cs : string) :
  unit_letters (String c cs) = true ->
  let r := short_option argv "cf" d c cs in
  (ret r = code "c" \/ ret r = code "f") /\ diagnostic r = None /\
  unit_letters cs = true.
Proof.
  cbn [unit_letters]. intros H. apply andb_true_iff in H as [Hc Hcs].
  apply orb_true_iff in Hc. rewrite !Ascii.eqb_eq in Hc.
  destruct Hc as [-> | ->]; cbn; auto.
Qed.

(** One turn of the loop on a unit flag goes on with the loop. *)
Lemma option_loop_unit (catalog : message -> string)
    (fuel : nat) (L : string) (b : bool)
    (argv : list string) (d : data) (u : bool) :
  let r := getopt_long argv "cf" long_options d in
  (ret r = code "c" \/ ret r = code "f") -> diagnostic r = None ->
  exists u' : bool,
    option_loop catalog (S fuel) L b argv d u ""
    = option_loop catalog fuel L b (argv_out r) (data_out r) u' "".
Proof.
  cbv zeta. intros Hr Hd. rewrite option_loop_S. cbv zeta.
  rewrite (written_None _ _ Hd).
  destruct Hr as [-> | ->]; [exists false|exists true]; reflexivity.
Qed.

(** The elements before a request for help, cut at the first option
    among them. *)
Lemma leading_nonoptions (ord : ordering_t) (pre : list string)
    (h : string) (post : list string) :
  Forall (passes_to_help ord) pre ->
  help_flag h = true ->
  exists (ns : list string) (s : string) (rest : list string),
    (pre ++ h :: post)%list = (ns ++ s :: rest)%list /\
    Forall (fun x => nonoption x = true) ns /\
    (ord = PERMUTE \/ ns = []) /\
    ((s = h /\ rest = post) \/
     (unit_flag s = true /\
      exists pre', rest = (pre' ++ h :: post)%list /\
                   Forall (passes_to_help ord) pre')).
Proof.
  intros Hpre Hh. induction Hpre as [|x pre Hx Hpre IH].
  - exists [], h, post. cbn. repeat split; auto.
  - destruct Hx as [Hx|[Hord Hx]].
    + exists [], x, (pre ++ h :: post)%list. cbn.
      repeat split; auto. right. split; auto. exists pre. auto.
    + destruct IH as (ns & s & rest & E & Hns & _ & Hs).
      exists (x :: ns), s, rest. cbn. rewrite E.
      repeat split; auto.
Qed.

(** The loop, started anywhere before a request for help that only
    unit flags and permuted non-options precede, returns from the case
    of [--help]. *)
Lemma option_loop_reaches_help (catalog : message -> string)
    (L : string) (b : bool) (h : string)
    (post : list string) :
  help_flag h = true ->
  forall (fuel : nat) (argv : list string) (d : data) (u : bool)
         (pre : list string),
    well_formed argv d ->
    (measure argv d < fuel)%nat ->
    Forall (passes_to_help (ordering d)) pre ->
    ((nextchar d = None \/ nextchar d = Some "") /\
     skipn (optind d) argv = (pre ++ h :: post)%list) \/
    (exists c cs, nextchar d = Some (String c cs) /\
                  unit_letters (String c cs) = true /\
                  skipn (S (optind d)) argv = (pre ++ h :: post)%list) ->
    option_loop catalog fuel L b argv d u "" = Return (Exit 0 (help_text L b) "").
Proof.
  intros Hh. induction fuel as [|fuel IH];
    intros argv d u pre Hw Hm Hpre Hstate; [lia|].
  pose proof (getopt_long_progress argv "cf" long_options d Hw) as Hp.
  cbv zeta in Hp.
  assert (Hl : (1 <= List.length argv)%nat).
  { destruct Hw as (_ & _ & Hw).
    destruct Hstate as [(_ & Hs)|(c & cs & Hn & _)].
    - destruct argv; [|cbn; lia]. rewrite skipn_nil in Hs. now destruct pre.
    - rewrite Hn in Hw. lia. }
  destruct Hstate as [(Hn & Hs)|(c & cs & Hn & Hu & Hs)].
  - (* between elements *)
    rewrite (getopt_long_boundary argv "cf" long_options d Hl Hn) in Hp.
    destruct (leading_nonoptions _ pre h post Hpre Hh)
      as (ns & s & rest & E & Hns & Hord & Hcase).
    rewrite E in Hs.
    assert (Hso : nonoption s = false /\ s <> "--").
    { destruct Hcase as [(-> & _)|(Hf & _)].
      - destruct (help_flag_option h Hh) as (? & ? & _). auto.
      - now apply unit_flag_option. }
    destruct Hso as (Hso & Hsd). destruct Hw as (H1 & H2 & H3).
    destruct (next_element_option argv "cf" long_options d ns s rest
                H1 H2 Hs Hns Hord Hso Hsd)
      as (argv1 & d1 & L1 & S1 & F1 & F2 & O1 & N1 & R1 & Hr).
    destruct Hcase as [(-> & ->)|(Hf & pre' & -> & Hpre')].
    + (* the request for help *)
      destruct (help_flag_option h Hh) as (_ & _ & text & ->).
      destruct Hr as [(text' & E' & Hr)|(c & cs & E' & Hc & _)].
      2:{ injection E' as <- _. congruence. }
      injection E' as <-.
      destruct (process_long_option_help argv1 d1 text Hh) as (Hret & Hdiag).
      rewrite option_loop_S, (getopt_long_boundary _ _ _ _ Hl Hn), Hr.
      cbv zeta. rewrite Hret, (written_None _ _ Hdiag). reflexivity.
    + (* a unit flag *)
      assert (Hgo : exists r : result,
                 next_element argv "cf" long_options d = r /\
                 (ret r = code "c" \/ ret r = code "f") /\
                 diagnostic r = None /\ argv_out r = argv1 /\
                 ordering (data_out r) = ordering d /\
                 (((nextchar (data_out r) = None \/
                    nextchar (data_out r) = Some "") /\
                   optind (data_out r) = S (optind d1)) \/
                  (exists c cs,
                     nextchar (data_out r) = Some (String c cs) /\
                     unit_letters (String c cs) = true /\
                     optind (data_out r) = optind d1))).
      { destruct Hr as [(text & -> & Hr)|(c & cs & -> & Hc & Hr)].
        - destruct (process_long_option_unit argv1 d1 text Hf)
            as (Hret & Hdiag & Ha & Hd).
          eexists. split; [exact Hr|]. rewrite Ha, Hd.
          repeat split; auto.
          all: try (left; destruct d1; cbn; auto).
        - assert (Hu : unit_letters (String c cs) = true).
          { revert Hf. cbn [unit_flag].
            destruct c as [[] [] [] [] [] [] [] []]; auto; congruence. }
          destruct (short_option_unit argv1 d1 c cs Hu) as (Hret & Hdiag & Hcs).
          destruct (short_option_state argv1 "cf" d1 c cs) as (Ha & Hd).
          eexists. split; [exact Hr|]. rewrite Ha, Hd.
          repeat split; auto.
          + destruct cs; destruct d1; cbn in *; auto.
          + destruct cs as [|c' cs'].
            * left. destruct d1; cbn. auto.
            * right. exists c', cs'. destruct d1; cbn. auto. }
      destruct Hgo as (r & Er & Hret & Hdiag & Ha & Ho & Hst).
      rewrite Er in Hp.
      destruct Hp as [Hp|(Hw' & Hm')].
      { exfalso. unfold code in Hret. cbn in Hret. lia. }
      destruct (option_loop_unit catalog fuel L b argv d u) as (u' & ->);
        rewrite ?(getopt_long_boundary _ _ _ _ Hl Hn), ?Er; auto.
      apply (IH _ _ u' pre'); auto; try lia.
      * now rewrite Ho.
      * rewrite Ha. destruct Hst as [(Hn' & Ho')|(c & cs & Hn' & Hu' & Ho')].
        -- left. split; auto. rewrite Ho'.
           now apply (skipn_S_cons _ _ s).
        -- right. exists c, cs. repeat split; auto. rewrite Ho'.
           now apply (skipn_S_cons _ _ s).
  - (* inside a cluster *)
    rewrite (getopt_long_cluster argv "cf" long_options d c cs Hl Hn) in Hp.
    destruct (short_option_unit argv d c cs Hu) as (Hret & Hdiag & Hcs).
    destruct (short_option_state argv "cf" d c cs) as (Ha & Hd).
    destruct Hp as [Hp|(Hw' & Hm')].
    { exfalso. unfold code in Hret. cbn in Hret, Hp. lia. }
    destruct (option_loop_unit catalog fuel L b argv d u) as (u' & ->);
      rewrite ?(getopt_long_cluster _ _ _ _ _ _ Hl Hn); auto.
    rewrite Ha in *. rewrite Hd in *.
    apply (IH _ _ u' pre); auto; try lia.
    + destruct cs; destruct d; cbn in *; auto.
    + destruct cs as [|c' cs'].
      * left. destruct d; cbn in *. auto.
      * right. exists c', cs'. destruct d; cbn in *. auto.
Qed.

End HelpProofs.

Section PositionalProofs.

Import Getopt.

(** *** Arguments without options *)

Lemma skip_nonoptions_all (args : list string) (i : nat) :
  Forall (fun s => nonoption s = true) args ->
  skip_nonoptions args i = (i + List.length args)%nat.
Proof.
  intros H. revert i. induction H as [|s args Hs _ IH]; intros i; cbn.
  - lia.
  - rewrite Hs, IH. lia.
Qed.

Lemma nonoption_not_dashes (s : string) :
  nonoption s = true -> String.eqb s "--" = false.
Proof.
  intros H. apply String.eqb_neq. intros ->. discriminate H.
Qed.

(** When no element is an option, the first call ends the scan and
    leaves [argv] as it is, with [optind] on the first argument. *)
Lemma getopt_long_positionals (prog : string) (args : list string)
    (pc : bool) :
  Forall (fun s => nonoption s = true) args ->
  let r := getopt_long (prog :: args) "cf" long_options
             (initialize "cf" pc) in
  ret r = -1 /\ argv_out r = prog :: args /\ optind (data_out r) = 1%nat.
Proof.
  intros Hargs. cbv zeta.
  rewrite getopt_long_boundary by (cbn; auto; lia).
  unfold next_element, advance, end_of_options, initialize.
  destruct pc.
  - destruct args as [|a args]; cbn -[nonoption String.eqb]; [auto|].
    inversion Hargs as [|? ? Ha _]; subst.
    rewrite (nonoption_not_dashes a Ha). cbn -[nonoption].
    rewrite Ha. cbn. auto.
  - cbn -[nonoption String.eqb skip_nonoptions Nat.eqb].
    change (1 =? 1)%nat with true.
    cbn -[nonoption String.eqb skip_nonoptions Nat.eqb].
    rewrite (skip_nonoptions_all args 1 Hargs).
    cbn -[nonoption String.eqb Nat.eqb]. rewrite !Nat.eqb_refl.
    cbn -[nonoption String.eqb Nat.eqb]. rewrite ?Nat.eqb_refl.
    destruct (List.length args); cbn; auto.
Qed.

(** Under [POSIXLY_CORRECT] a first argument that is no option ends
    the scan at once. *)
Lemma getopt_long_require_order (prog a : string) (args : list string) :
  nonoption a = true ->
  let r := getopt_long (prog :: a :: args) "cf" long_options
             (initialize "cf" true) in
  ret r = -1 /\ argv_out r = prog :: a :: args /\
  optind (data_out r) = 1%nat.
Proof.
  intros Ha. cbv zeta.
  rewrite getopt_long_boundary by (cbn; auto; lia).
  unfold next_element, advance, end_of_options, initialize.
  cbn -[nonoption String.eqb].
  rewrite (nonoption_not_dashes a Ha). cbn -[nonoption].
    rewrite Ha. cbn. auto.
Qed.


(** With arguments that are no options, [main] goes straight to the
    reading of [argv[1]] and [argv[2]], in the unit of the locale. *)
Lemma parse_positionals (env : environment) (prog : string)
    (args : list string) :
  Forall (fun s => nonoption s = true) args ->
  parse env (prog :: args)
  = read_arguments env (prog :: args) 1
      (LocaleUsesFahrenheit (measurement_locale_of env)).
Proof.
  intros Hargs. unfold parse, loop_fuel. rewrite option_loop_S. cbv zeta.
  destruct (getopt_long_positionals prog args (posixly_correct env) Hargs)
    as (Hr & Ha & Ho).
  rewrite Hr. change (-1 =? -1) with true. cbv beta iota.
  rewrite Ha, Ho. reflexivity.
Qed.

Lemma parse_require_order (env : environment) (prog a : string)
    (args : list string) :
  posixly_correct env = true ->
  nonoption a = true ->
  parse env (prog :: a :: args)
  = read_arguments env (prog :: a :: args) 1
      (LocaleUsesFahrenheit (measurement_locale_of env)).
Proof.
  intros Hpc Ha. unfold parse, loop_fuel. rewrite option_loop_S. cbv zeta.
  rewrite Hpc.
  destruct (getopt_long_require_order prog a args Ha) as (Hr & Hv & Ho).
  rewrite Hr. change (-1 =? -1) with true. cbv beta iota.
  rewrite Hv, Ho. reflexivity.
Qed.

(** *** Clusters that hold a letter of no option *)

Lemma short_option_cases (argv : list string) (d : data) (c : ascii)
    (cs : string) :
  let r := short_option argv "cf" d c cs in
  (ret r = code "?") \/
  ((ret r = code "c" \/ ret r = code "f") /\ diagnostic r = None /\
   (Ascii.eqb c "c" || Ascii.eqb c "f") = true).
Proof.
  unfold short_option. cbn [option_letters has_char].
  rewrite (Ascii.eqb_sym "c" c), (Ascii.eqb_sym "f" c).
  destruct (Ascii.eqb_spec c "c") as [->|Hc].
  { right. cbn. auto. }
  destruct (Ascii.eqb_spec c "f") as [->|Hf].
  { right. cbn. auto. }
  left. reflexivity.
Qed.

(** A cluster with a letter other than [c] and [f] makes the loop
    return with status 1, however the cluster is reached. *)
Lemma option_loop_bad_cluster (catalog : message -> string)
    (L : string) (b : bool) :
  forall (cs : string) (c : ascii) (fuel : nat) (argv0 argv : list string)
         (d0 d : data) (u : bool) (err : string),
    unit_letters (String c cs) = false ->
    (String.length cs < fuel)%nat ->
    (1 <= List.length argv)%nat ->
    getopt_long argv0 "cf" long_options d0 = short_option argv "cf" d c cs ->
    exists err' : string,
      option_loop catalog fuel L b argv0 d0 u err = Return (Exit 1 "" err').
Proof.
  induction cs as [|c' cs IH]; intros c fuel argv0 argv d0 d u err Hu Hf Hl Hg;
    (destruct fuel as [|fuel]; [cbn in Hf; lia|]);
    rewrite option_loop_S; cbv zeta; rewrite Hg;
    match goal with
    | |- context [short_option argv "cf" d c ?x] =>
        destruct (short_option_cases argv d c x) as [Hr|(Hr & Hd & Hc)]
    end.
  - rewrite Hr. eexists. reflexivity.
  - cbn in Hu. rewrite Hc in Hu. discriminate.
  - rewrite Hr. eexists. reflexivity.
  - cbn [unit_letters] in Hu. rewrite Hc in Hu. cbn [andb] in Hu.
    destruct (short_option_state argv "cf" d c (String c' cs)) as (Ha & Hs).
    rewrite Ha, Hs, (written_None _ _ Hd).
    assert (Hnext : getopt_long argv "cf" long_options
                      (with_nextchar (Some (String c' cs)) d)
                    = short_option argv "cf"
                        (with_nextchar (Some (String c' cs)) d) c' cs).
    { apply getopt_long_cluster; auto. }
    cbn in Hf.
    destruct Hr as [-> | ->]; cbn [Z.eqb code nat_of_ascii Z.of_nat];
      eapply IH; eauto; lia.
Qed.

End PositionalProofs.

Section StrtofProofs.

Import Strtof.

(** *** [strtof] on elements that look like options *)

Lemma unit_letter_cases (c : ascii) :
  Ascii.eqb c "c" || Ascii.eqb c "f" = true -> c = "c"%char \/ c = "f"%char.
Proof.
  intros H. apply orb_true_iff in H. now rewrite !Ascii.eqb_eq in H.
Qed.

(** No number starts with [c] or [f], whatever the decimal point. *)
Lemma read_unsigned_unit_letters (radix : ascii) (neg : bool) (c : ascii)
    (cs : string) :
  unit_letters (String c cs) = true ->
  read_unsigned radix neg (String c cs) = None.
Proof.
  cbn [unit_letters]. intros H. apply andb_true_iff in H as [Hc Hcs].
  assert (Hd : forall x acc,
             read_digits digit_value 10 acc O cs = x -> snd (fst x) = O).
  { intros x acc <-. destruct cs as [|c' cs']; [reflexivity|].
    cbn [unit_letters] in Hcs. apply andb_true_iff in Hcs as [Hc' _].
    destruct (unit_letter_cases c' Hc') as [-> | ->]; reflexivity. }
  assert (Hgoal : forall x : ascii,
             digit_value x = None ->
             read_inf neg (String x cs) = None ->
             read_nan (String x cs) = None ->
             Ascii.eqb x "0" = false ->
             read_unsigned radix neg (String x cs) = None).
  { intros x Hx Hi Hn H0. unfold read_unsigned.
    replace (match String x cs with
             | String "0" (String y s1) =>
                 if Ascii.eqb (tolower y) "x" then read_hex radix neg s1
                 else None
             | _ => None
             end) with (@None (Binary32.float * string)).
    2:{ destruct x as [[] [] [] [] [] [] [] []]; try reflexivity.
        discriminate H0. }
    rewrite Hi, Hn.
    unfold read_decimal, read_mantissa. cbn [read_digits]. rewrite Hx.
    destruct (Ascii.eqb x radix); [|reflexivity].
    destruct (read_digits digit_value 10 0 0 cs) as [[m2 n2] s3] eqn:E.
    apply Hd in E. cbn in E. subst n2. reflexivity. }
  destruct (unit_letter_cases c Hc) as [-> | ->]; apply Hgoal; reflexivity.
Qed.

(** A cluster of unit letters is not a number: [ReadFloat] refuses
    it. *)
Lemma ReadFloat_unit_cluster (radix : ascii) (c : ascii) (cs : string) :
  unit_letters (String c cs) = true ->
  ReadFloat radix (String "-" (String c cs)) = None.
Proof.
  intros H. unfold ReadFloat, strtof. cbn [skip_spaces isspace].
  replace (isspace "-") with false by reflexivity.
  rewrite (read_unsigned_unit_letters radix true c cs H). reflexivity.
Qed.

Lemma read_digits_count (s : string) (acc : Z) :
  snd (fst (read_digits digit_value 10 acc O s)) <> O ->
  exists d rest, s = String d rest /\ digit_value d <> None.
Proof.
  destruct s as [|d rest]; cbn [read_digits]; [cbn; congruence|].
  intros H. exists d, rest. split; [reflexivity|].
  destruct (digit_value d); [discriminate|]. cbn in H. congruence.
Qed.

(** An element that starts with two dashes is read as a number only
    when the decimal point is the dash itself and a digit follows. *)
Lemma ReadFloat_two_dashes (radix : ascii) (text : string)
    (f : Binary32.float) :
  ReadFloat radix (String "-" (String "-" text)) = Some f ->
  exists d rest, text = String d rest /\ digit_value d <> None.
Proof.
  unfold ReadFloat, strtof. cbn [skip_spaces].
  replace (isspace "-") with false by reflexivity.
  unfold read_unsigned.
  replace (read_inf true (String "-" text))
    with (@None (Binary32.float * string)) by reflexivity.
  replace (read_nan (String "-" text))
    with (@None (Binary32.float * string)) by reflexivity.
  unfold read_decimal, read_mantissa. cbn [read_digits].
  replace (digit_value "-") with (@None Z) by reflexivity.
  destruct (Ascii.eqb "-" radix); [|discriminate].
  destruct (read_digits digit_value 10 0 0 text) as [[m2 n2] s3] eqn:E.
  destruct n2 as [|n2]; [discriminate|].
  intros _. apply (read_digits_count text 0). rewrite E. cbn. lia.
Qed.

Lemma digit_cases (d : ascii) :
  digit_value d <> None ->
  d = "0"%char \/ d = "1"%char \/ d = "2"%char \/ d = "3"%char \/
  d = "4"%char \/ d = "5"%char \/ d = "6"%char \/ d = "7"%char \/
  d = "8"%char \/ d = "9"%char.
Proof.
  destruct d as [[] [] [] [] [] [] [] []]; cbn; intros H;
    try congruence; tauto.
Qed.

(** No long option of the program starts with a digit. *)
Lemma find_option_digit (d : ascii) (rest : string) :
  digit_value d <> None ->
  Getopt.find_option long_options (fst (Getopt.split_name (String d rest)))
  = Getopt.NotFound.
Proof.
  intros H. cbn [Getopt.split_name].
  destruct (Getopt.split_name rest) as [n eq].
  destruct (digit_cases d H) as [-> |[-> |[-> |[-> |[-> |[-> |[-> |[-> |[-> | ->]]]]]]]]];
    reflexivity.
Qed.

End StrtofProofs.

Section HumidityProofs.

Import Getopt.

(** *** Numbers that [getopt_long] takes for options *)

Lemma process_long_option_not_found (argv : list string) (d : data)
    (text : string) :
  find_option long_options (fst (split_name text)) = NotFound ->
  ret (process_long_option argv long_options d text) = code "?".
Proof.
  unfold process_long_option. destruct (split_name text) as [n eq].
  cbn [fst]. intros ->. reflexivity.
Qed.

Lemma size_element (prog : string) (ns : list string) (s : string)
    (rest : list string) :
  (S (String.length s) <= size (prog :: ns ++ s :: rest))%nat.
Proof.
  change (prog :: ns ++ s :: rest)%list with ((prog :: ns) ++ s :: rest)%list.
  rewrite size_app. cbn. lia.
Qed.

(** An element that [getopt_long] takes for an option and [ReadFloat]
    for a number, such as [-5]: when the scan reaches it, the program
    ends with status 1. *)
Lemma parse_option_like_number (env : environment) (prog : string)
    (ns : list string) (s : string) (rest : list string)
    (f : Binary32.float) :
  Forall (fun x => nonoption x = true) ns ->
  posixly_correct env = false \/ ns = [] ->
  nonoption s = false ->
  ReadFloat (decimal_point env) s = Some f ->
  exists err : string,
    parse env (prog :: ns ++ s :: rest) = Stop (Exit 1 "" err).
Proof.
  intros Hns Hord Hs Hf.
  set (argv := (prog :: ns ++ s :: rest)%list).
  set (d := initialize "cf" (posixly_correct env)).
  assert (Hdash : s <> "--").
  { intros ->. destruct (ReadFloat_two_dashes _ _ _ Hf) as (? & ? & E & _).
    discriminate E. }
  assert (Hord' : ordering d = PERMUTE \/ ns = []).
  { destruct Hord as [Hp|Hn]; [left|right; exact Hn].
    unfold d. now rewrite Hp. }
  destruct (next_element_option argv "cf" long_options d ns s rest)
    as (argv1 & d1 & L1 & S1 & F1 & F2 & O1 & N1 & R1 & Hr); auto;
    try (unfold d; destruct (posixly_correct env); cbn; lia).
  assert (Hb : getopt_long argv "cf" long_options d
               = next_element argv "cf" long_options d).
  { apply getopt_long_boundary; [cbn; lia|now left]. }
  assert (Hloop : exists err,
             option_loop (messages env) (loop_fuel argv) (measurement_locale_of env)
               (LocaleUsesFahrenheit (measurement_locale_of env)) argv d
               (LocaleUsesFahrenheit (measurement_locale_of env)) ""
             = Return (Exit 1 "" err)).
  { destruct Hr as [(text & -> & Hr)|(c & cs & -> & Hc & Hr)].
    - destruct (ReadFloat_two_dashes _ _ _ Hf) as (dg & tl & -> & Hdg).
      unfold loop_fuel. rewrite option_loop_S. cbv zeta.
      rewrite Hb, Hr, process_long_option_not_found
        by (now apply find_option_digit).
      eexists. reflexivity.
    - apply (option_loop_bad_cluster _ _ _ cs c _ argv argv1 d d1).
      + destruct (unit_letters (String c cs)) eqn:Hu; [|reflexivity].
        rewrite (ReadFloat_unit_cluster _ c cs Hu) in Hf. discriminate.
      + unfold loop_fuel. fold (size argv).
        pose proof (size_element prog ns (String "-" (String c cs)) rest).
        cbn [String.length] in *. fold argv in H. lia.
      + rewrite L1. cbn. lia.
      + now rewrite Hb. }
  destruct Hloop as (err & Hloop). exists err.
  unfold parse. fold argv. fold d. now rewrite Hloop.
Qed.

Lemma read_arguments_rejects (env : environment) (prog tt ht : string)
    (u : bool) (t h : Binary32.float) :
  ReadFloat (decimal_point env) tt = Some t ->
  ReadFloat (decimal_point env) ht = Some h ->
  Binary32.le h Binary32.plus_zero = true ->
  exists err : string,
    read_arguments env [prog; tt; ht] 1 u = Stop (Exit 1 "" err).
Proof.
  intros Ht Hh Hle. unfold read_arguments. cbn [List.length nth].
  change (negb (Z.of_nat 1 =? Z.of_nat 3 - 2)) with false. cbv iota.
  rewrite Ht, Hh, Hle. eexists. reflexivity.
Qed.

(** C7.  The calculator is never reached with a humidity that is zero
    or less; and when the two arguments read as numbers and the
    humidity is zero or less, the program ends with status 1 and
    prints nothing to standard output, whatever the temperature, the
    locale and the order of scanning. *)
Theorem nonpositive_humidity_rejected :
  (forall (env : environment) (argv : list string) (u : bool)
          (t h : Binary32.float),
     parse env argv = Calculate u t h ->
     Binary32.le h Binary32.plus_zero = false) /\
  (forall (logf : Binary32.float -> Binary32.float) (env : environment)
          (prog tt ht : string) (t h : Binary32.float),
     ReadFloat (decimal_point env) tt = Some t ->
     ReadFloat (decimal_point env) ht = Some h ->
     Binary32.le h Binary32.plus_zero = true ->
     exists err : string,
       main logf env [prog; tt; ht] = Exit 1 "" err).
Proof.
  split.
  - intros env argv u t h. unfold parse.
    destruct (option_loop _ _ _ _ _ _ _ _) as [argv' d' u'|o]; [|discriminate].
    unfold read_arguments. destruct (negb _); [discriminate|].
    destruct (ReadFloat _ (nth 1 _ _)); [|discriminate].
    destruct (ReadFloat _ (nth 2 _ _)); [|discriminate].
    destruct (Binary32.le f0 Binary32.plus_zero) eqn:E; [discriminate|].
    intros H. injection H as _ _ <-. exact E.
  - intros logf env prog tt ht t h Ht Hh Hle.
    assert (Hp : exists err, parse env [prog; tt; ht] = Stop (Exit 1 "" err)).
    { destruct (nonoption tt) eqn:Ett.
      2:{ apply (parse_option_like_number env prog [] tt [ht] t); auto. }
      destruct (nonoption ht) eqn:Eht.
      { rewrite parse_positionals by (repeat constructor; auto).
        now apply (read_arguments_rejects env prog tt ht _ t h). }
      destruct (posixly_correct env) eqn:Epc.
      - rewrite parse_require_order by auto.
        now apply (read_arguments_rejects env prog tt ht _ t h).
      - apply (parse_option_like_number env prog [tt] ht [] h); auto. }
    destruct Hp as (err & Hp). exists err. unfold main. now rewrite Hp.
Qed.

Lemma nonpositive_humidity_rejected_witness :
  parse sample_environment ["dewpoint"; "20"; "50"]
  = Calculate true (float_of_Z 20) (float_of_Z 50) /\
  Binary32.le (float_of_Z 50) Binary32.plus_zero = false /\
  ReadFloat "." "20" = Some (float_of_Z 20) /\
  ReadFloat "." "-5" = Some (Binary32.float_literal (-5)) /\
  Binary32.le (Binary32.float_literal (-5)) Binary32.plus_zero = true /\
  exists err : string,
    main logf_sample sample_environment ["dewpoint"; "20"; "-5"]
    = Exit 1 "" err.
Proof.
  assert (H1 : parse sample_environment ["dewpoint"; "20"; "50"]
               = Calculate true (float_of_Z 20) (float_of_Z 50))
    by (vm_compute; reflexivity).
  split; [exact H1|].
  split; [exact (proj1 nonpositive_humidity_rejected _ _ _ _ _ H1)|].
  split; [vm_compute; reflexivity|].
  split; [vm_compute; reflexivity|].
  split; [vm_compute; reflexivity|].
  apply (proj2 nonpositive_humidity_rejected logf_sample sample_environment
           "dewpoint" "20" "-5" (float_of_Z 20) (Binary32.float_literal (-5)));
    vm_compute; reflexivity.
Defined.

End HumidityProofs.

Section ProgramProofs.

Import Getopt.

(** C9 fails as stated: an option the program does not know, or the
    end-of-options mark [--], before [--help] makes the program end
    with status 1 without printing the help. *)
Lemma help_preempted :
  main logf_sample sample_environment ["dewpoint"; "-x"; "--help"]
  = Exit 1 "" ("dewpoint: invalid option -- 'x'" ++ newline ++ kAskForHelp) /\
  main logf_sample sample_environment ["dewpoint"; "--"; "--help"]
  = Exit 1 "" (kShortUsage ++ kAskForHelp).
Proof. split; vm_compute; reflexivity. Qed.

(** C9, as amended.  When every argument before [--help] (or an
    abbreviation of it) is a unit flag or, unless [POSIXLY_CORRECT] is
    set, a non-option, the program prints the usage line, the help text
    and the line about the measurement locale to standard output,
    nothing to standard error, and ends with status 0, whatever
    follows [--help]; no argument is read as a number. *)
Theorem help_is_reached
    (logf : Binary32.float -> Binary32.float) (env : environment)
    (prog : string) (pre : list string) (h : string) (post : list string) :
  help_flag h = true ->
  Forall (passes_to_help (ordering_of env)) pre ->
  main logf env (prog :: pre ++ h :: post)
  = Exit 0
      (help_text (measurement_locale_of env)
         (LocaleUsesFahrenheit (measurement_locale_of env))) "".
Proof.
  intros Hh Hpre. unfold main, parse.
  rewrite (option_loop_reaches_help _ _ _ h post Hh _ _ _ _ pre).
  - reflexivity.
  - apply initialize_well_formed. cbn. lia.
  - apply initialize_well_formed. cbn. lia.
  - exact Hpre.
  - left. split; [now left|reflexivity].
Qed.

Lemma help_is_reached_witness :
  help_flag "--help" = true /\
  Forall (passes_to_help (ordering_of sample_environment)) ["-c"; "20"] /\
  main logf_sample sample_environment ["dewpoint"; "-c"; "20"; "--help"; "50"]
  = Exit 0 (help_text "en_US.UTF-8" true) "".
Proof.
  assert (H1 : help_flag "--help" = true) by reflexivity.
  assert (H2 : Forall (passes_to_help (ordering_of sample_environment))
                 ["-c"; "20"]).
  { apply Forall_cons; [|apply Forall_cons; [|apply Forall_nil]];
      unfold passes_to_help.
    - left. reflexivity.
    - right. split; reflexivity. }
  split; [exact H1|]. split; [exact H2|].
  exact (help_is_reached logf_sample sample_environment "dewpoint"
           ["-c"; "20"] "--help" ["50"] H1 H2).
Defined.

(** C1: the program reads [argv[1]] and [argv[2]], not the arguments
    that remain after the options.  For [dewpoint -c 20 50] the scan
    ends with [optind = 2], and the element read as temperature is the
    flag [-c]: the run ends with status 1 and a diagnostic about the
    temperature, in every environment. *)
Theorem flag_read_as_temperature
    (logf : Binary32.float -> Binary32.float) (env : environment) :
  main logf env ["dewpoint"; "-c"; "20"; "50"]
  = Exit 1 ""
      ("dewpoint: invalid temperature " ++ dquote ++ "-c" ++ dquote
       ++ newline ++ kAskForHelp).
Proof.
  unfold main, parse.
  assert (Hloop : forall (catalog : message -> string) (L : string)
                    (b : bool) (pc : bool),
             exists d : data,
               option_loop catalog
                 (loop_fuel ["dewpoint"; "-c"; "20"; "50"]) L b
                 ["dewpoint"; "-c"; "20"; "50"] (initialize "cf" pc) b ""
               = Break ["dewpoint"; "-c"; "20"; "50"] d false /\
               optind d = 2%nat).
  { intros catalog L b pc.
    destruct pc; eexists; split; vm_compute; reflexivity. }
  destruct (Hloop (messages env) (measurement_locale_of env)
              (LocaleUsesFahrenheit (measurement_locale_of env))
              (posixly_correct env)) as (d & -> & Hd).
  unfold read_arguments. rewrite Hd. cbn [List.length nth].
  change (negb (Z.of_nat 2 =? Z.of_nat 4 - 2)) with false. cbv iota.
  rewrite (ReadFloat_unit_cluster (decimal_point env) "c" "")
    by reflexivity.
  reflexivity.
Qed.

(** C2: the diagnostic for an invalid humidity quotes [argv[1]], the
    temperature.  For two arguments that are no options and a valid
    temperature, a humidity that does not read as a number, or reads
    as zero or less, is reported with the text of the temperature
    between the quotes. *)
Theorem humidity_diagnostic_quotes_temperature
    (logf : Binary32.float -> Binary32.float) (env : environment)
    (prog tt ht : string) (t : Binary32.float) :
  nonoption tt = true ->
  nonoption ht = true ->
  ReadFloat (decimal_point env) tt = Some t ->
  (ReadFloat (decimal_point env) ht = None \/
   exists h, ReadFloat (decimal_point env) ht = Some h /\
             Binary32.le h Binary32.plus_zero = true) ->
  main logf env [prog; tt; ht]
  = Exit 1 ""
      ("dewpoint: invalid humidity " ++ dquote ++ tt ++ dquote
       ++ newline ++ kAskForHelp).
Proof.
  intros Htt Hht Ht Hh. unfold main.
  rewrite parse_positionals by (repeat constructor; auto).
  unfold read_arguments. cbn [List.length nth].
  change (negb (Z.of_nat 1 =? Z.of_nat 3 - 2)) with false. cbv iota.
  rewrite Ht.
  destruct Hh as [-> |(h & -> & ->)]; reflexivity.
Qed.

Lemma humidity_diagnostic_quotes_temperature_witness :
  nonoption "20" = true /\ nonoption "0" = true /\
  ReadFloat "." "20" = Some (float_of_Z 20) /\
  (ReadFloat "." "0" = None \/
   exists h, ReadFloat "." "0" = Some h /\
             Binary32.le h Binary32.plus_zero = true) /\
  main logf_sample sample_environment ["dewpoint"; "20"; "0"]
  = Exit 1 ""
      ("dewpoint: invalid humidity " ++ dquote ++ "20" ++ dquote
       ++ newline ++ kAskForHelp).
Proof.
  assert (H3 : ReadFloat "." "20" = Some (float_of_Z 20))
    by (vm_compute; reflexivity).
  assert (H4 : ReadFloat "." "0" = None \/
               exists h, ReadFloat "." "0" = Some h /\
                         Binary32.le h Binary32.plus_zero = true).
  { right. exists Binary32.plus_zero. split; reflexivity. }
  split; [reflexivity|]. split; [reflexivity|].
  split; [exact H3|]. split; [exact H4|].
  exact (humidity_diagnostic_quotes_temperature logf_sample
           sample_environment "dewpoint" "20" "0" (float_of_Z 20)
           eq_refl eq_refl H3 H4).
Defined.

(** C8: [ReadFloat] checks that [strtof] stopped at the end of the
    token, not that it converted anything.  The token [abc] is refused,
    but the empty token is read as zero, and an empty temperature
    reaches the calculator as 0. *)
Theorem ReadFloat_empty_token :
  (forall radix : ascii, ReadFloat radix "" = Some Binary32.plus_zero) /\
  (forall radix : ascii, ReadFloat radix "abc" = None) /\
  (forall (env : environment) (prog : string),
     parse env [prog; ""; "50"]
     = Calculate (LocaleUsesFahrenheit (measurement_locale_of env))
         Binary32.plus_zero (float_of_Z 50)).
Proof.
  split; [reflexivity|]. split.
  - intros radix.
    destruct radix as [[] [] [] [] [] [] [] []]; vm_compute; reflexivity.
  - intros env prog.
    rewrite parse_positionals by (repeat constructor; reflexivity).
    reflexivity.
Qed.

(** *** NaN *)

Lemma mul_nan_r (x : Binary32.float) : Binary32.mul x Binary32.nan = Binary32.nan.
Proof. now destruct x. Qed.

Lemma DewPoint32_nan_humidity (logf : Binary32.float -> Binary32.float)
    (T : Binary32.float) :
  logf Binary32.nan = Binary32.nan ->
  DewPoint32 logf T Binary32.nan = Binary32.nan.
Proof.
  intros Hl. rewrite DewPoint32_formula. cbv zeta.
  change (Binary32.mul Binary32.nan (Binary32.float_literal 0.01))
    with Binary32.nan.
  rewrite Hl.
  change (Binary32.add Binary32.nan ?y) with Binary32.nan.
  rewrite mul_nan_r. reflexivity.
Qed.

Lemma report_nan_humidity (logf : Binary32.float -> Binary32.float)
    (u : bool) (T : Binary32.float) :
  logf Binary32.nan = Binary32.nan ->
  report logf u T Binary32.nan = UndefinedConversion Binary32.nan.
Proof.
  intros Hl. unfold report.
  fold (DewPointFahrenheit32 logf T Binary32.nan).
  fold (DewPoint32 logf T Binary32.nan).
  rewrite DewPointFahrenheit32_formula, !DewPoint32_nan_humidity by exact Hl.
  rewrite mul_nan_r. destruct u; reflexivity.
Qed.

(** C10.  The token [nan] reads as NaN; the test [humidity <= 0] is
    false for NaN; so two arguments that are no options, a valid
    temperature and a humidity that reads as NaN, reach the
    calculator; and with a [logf] that answers NaN to NaN the dew point
    is NaN, which is handed to the conversion to [int]: the run ends
    there, on no error path. *)
Theorem nan_humidity_accepted :
  (forall radix : ascii, ReadFloat radix "nan" = Some Binary32.nan) /\
  Binary32.le Binary32.nan Binary32.plus_zero = false /\
  (forall (logf : Binary32.float -> Binary32.float) (env : environment)
          (prog tt ht : string) (t : Binary32.float),
     nonoption tt = true ->
     nonoption ht = true ->
     ReadFloat (decimal_point env) tt = Some t ->
     ReadFloat (decimal_point env) ht = Some Binary32.nan ->
     logf Binary32.nan = Binary32.nan ->
     parse env [prog; tt; ht]
     = Calculate (LocaleUsesFahrenheit (measurement_locale_of env)) t
         Binary32.nan /\
     main logf env [prog; tt; ht] = UndefinedConversion Binary32.nan).
Proof.
  split.
  { intros radix.
    destruct radix as [[] [] [] [] [] [] [] []]; vm_compute; reflexivity. }
  split; [reflexivity|].
  intros logf env prog tt ht t Htt Hht Ht Hh Hl.
  assert (Hp : parse env [prog; tt; ht]
               = Calculate (LocaleUsesFahrenheit (measurement_locale_of env))
                   t Binary32.nan).
  { rewrite parse_positionals by (repeat constructor; auto).
    unfold read_arguments. cbn [List.length nth].
    change (negb (Z.of_nat 1 =? Z.of_nat 3 - 2)) with false. cbv iota.
    rewrite Ht, Hh. reflexivity. }
  split; [exact Hp|].
  unfold main. rewrite Hp. now apply report_nan_humidity.
Qed.

Lemma nan_humidity_accepted_witness :
  nonoption "20" = true /\ nonoption "nan" = true /\
  ReadFloat "." "20" = Some (float_of_Z 20) /\
  ReadFloat "." "nan" = Some Binary32.nan /\
  logf_sample Binary32.nan = Binary32.nan /\
  parse sample_environment ["dewpoint"; "20"; "nan"]
  = Calculate true (float_of_Z 20) Binary32.nan /\
  main logf_sample sample_environment ["dewpoint"; "20"; "nan"]
  = UndefinedConversion Binary32.nan.
Proof.
  assert (H3 : ReadFloat "." "20" = Some (float_of_Z 20))
    by (vm_compute; reflexivity).
  assert (H4 : ReadFloat "." "nan" = Some Binary32.nan) by reflexivity.
  split; [reflexivity|]. split; [reflexivity|].
  split; [exact H3|]. split; [exact H4|]. split; [reflexivity|].
  exact (proj2 (proj2 nan_humidity_accepted) logf_sample sample_environment
           "dewpoint" "20" "nan" (float_of_Z 20)
           eq_refl eq_refl H3 H4 eq_refl).
Defined.

End ProgramProofs.

Section OutcomeProofs.

Import Getopt.

(** *** Runs without options *)

(** With arguments that are no options and are not two in number,
    [main] prints the usage line and the hint to standard error and
    ends with status 1. *)
Theorem wrong_argument_count
    (logf : Binary32.float -> Binary32.float) (env : environment)
    (prog : string) (args : list string) :
  Forall (fun s => nonoption s = true) args ->
  List.length args <> 2%nat ->
  main logf env (prog :: args) = Exit 1 "" (kShortUsage ++ kAskForHelp).
Proof.
  intros Hargs Hlen. unfold main. rewrite parse_positionals by exact Hargs.
  unfold read_arguments. cbn [List.length].
  replace (Z.of_nat 1 =? Z.of_nat (S (List.length args)) - 2) with false
    by (symmetry; apply Z.eqb_neq; lia).
  reflexivity.
Qed.

Lemma wrong_argument_count_witness :
  Forall (fun s => nonoption s = true) ["20"; "50"; "30"] /\
  List.length ["20"; "50"; "30"] <> 2%nat /\
  main logf_sample sample_environment ["dewpoint"; "20"; "50"; "30"]
  = Exit 1 "" (kShortUsage ++ kAskForHelp).
Proof.
  assert (H1 : Forall (fun s => nonoption s = true) ["20"; "50"; "30"])
    by (repeat constructor).
  assert (H2 : List.length ["20"; "50"; "30"] <> 2%nat) by discriminate.
  split; [exact H1|]. split; [exact H2|].
  exact (wrong_argument_count logf_sample sample_environment "dewpoint"
           ["20"; "50"; "30"] H1 H2).
Defined.

(** A first argument that is no option and does not read as a number
    is reported as an invalid temperature, between quotes, whatever
    the second argument is worth; the status is 1. *)
Theorem invalid_temperature_reported
    (logf : Binary32.float -> Binary32.float) (env : environment)
    (prog tt ht : string) :
  nonoption tt = true ->
  nonoption ht = true ->
  ReadFloat (decimal_point env) tt = None ->
  main logf env [prog; tt; ht]
  = Exit 1 ""
      ("dewpoint: invalid temperature " ++ dquote ++ tt ++ dquote
       ++ newline ++ kAskForHelp).
Proof.
  intros Htt Hht Ht. unfold main.
  rewrite parse_positionals by (repeat constructor; auto).
  unfold read_arguments. cbn [List.length nth].
  change (negb (Z.of_nat 1 =? Z.of_nat 3 - 2)) with false. cbv iota.
  now rewrite Ht.
Qed.

Lemma invalid_temperature_reported_witness :
  nonoption "abc" = true /\ nonoption "50" = true /\
  ReadFloat "." "abc" = None /\
  main logf_sample sample_environment ["dewpoint"; "abc"; "50"]
  = Exit 1 ""
      ("dewpoint: invalid temperature " ++ dquote ++ "abc" ++ dquote
       ++ newline ++ kAskForHelp).
Proof.
  split; [reflexivity|]. split; [reflexivity|]. split; [reflexivity|].
  exact (invalid_temperature_reported logf_sample sample_environment
           "dewpoint" "abc" "50" eq_refl eq_refl eq_refl).
Defined.



(** *** Exit status and streams *)

Lemma process_long_option_diagnostic (argv : list string)
    (longopts : list option_) (d : data) (text : string) :
  let r := process_long_option argv longopts d text in
  diagnostic r = None \/ ret r = code "?".
Proof.
  unfold process_long_option. destruct (split_name text) as [n eq].
  destruct (find_option longopts n); [destruct eq| |]; cbn; auto.
Qed.

(** [getopt_long] writes a diagnostic only when it returns [?]. *)
Lemma getopt_long_diagnostic (argv : list string) (optstring : string)
    (longopts : list option_) (d : data) :
  let r := getopt_long argv optstring longopts d in
  diagnostic r = None \/ ret r = code "?".
Proof.
  assert (Hshort : forall argv' d' c rest,
             let r := short_option argv' optstring d' c rest in
             diagnostic r = None \/ ret r = code "?").
  { intros argv' d' c rest. unfold short_option.
    destruct (_ || _); cbn; auto. }
  unfold getopt_long. destruct (_ <? _)%nat; [cbn; auto|].
  assert (Hnext : let r := next_element argv optstring longopts d in
                  diagnostic r = None \/ ret r = code "?").
  { unfold next_element.
    destruct (advance argv d) as [argv1 d1].
    destruct (end_of_options argv1 d1) as [argv2 d2].
    destruct (_ =? _)%nat; [cbn; auto|].
    destruct (nonoption _); [destruct (ordering d2); cbn; auto|].
    destruct (nth (optind d2) argv2 "") as [|a [|b text]]; [cbn; auto ..|].
    destruct (Ascii.eqb_spec b "-") as [->|Hb].
    - apply process_long_option_diagnostic.
    - replace (match b with
               | "-"%char => process_long_option argv2 longopts d2 text
               | _ => short_option argv2 optstring d2 b text
               end) with (short_option argv2 optstring d2 b text).
      + apply Hshort.
      + destruct b as [[] [] [] [] [] [] [] []]; try reflexivity.
        congruence. }
  destruct (nextchar d) as [[|c rest]|]; auto.
Qed.

Lemma option_loop_streams (catalog : message -> string)
    (L : string) (b : bool) :
  forall (fuel : nat) (argv : list string) (d : data) (u : bool)
         (status : Z) (out err : string),
    option_loop catalog fuel L b argv d u "" = Return (Exit status out err) ->
    (status = 0 /\ err = "") \/ (status = 1 /\ out = "").
Proof.
  induction fuel as [|fuel IH]; intros argv d u status out err;
    [discriminate|].
  rewrite option_loop_S. cbv zeta.
  destruct (getopt_long_diagnostic argv "cf" long_options d) as [Hd|Hr].
  - rewrite (written_None _ _ Hd). cbn [append].
    repeat match goal with
           | |- (if ?c then _ else _) = _ -> _ => destruct c
           end;
      try discriminate; try apply IH;
      intros H; injection H as <- <- <-; auto.
  - rewrite Hr. cbn [Z.eqb code]. cbn.
    intros H; injection H as <- <- <-; auto.
Qed.

(** Whatever the arguments and the environment, a run that ends with
    an exit status ends with 0 or 1; with status 0 nothing has been
    written to standard error, and with status 1 nothing to standard
    output. *)
Theorem exit_status_and_streams
    (logf : Binary32.float -> Binary32.float) (env : environment)
    (argv : list string) (status : Z) (out err : string) :
  main logf env argv = Exit status out err ->
  (status = 0 /\ err = "") \/ (status = 1 /\ out = "").
Proof.
  unfold main, parse.
  destruct (option_loop _ _ _ _ _ _ _ _) as [argv' d' u'|o] eqn:El.
  - unfold read_arguments.
    destruct (negb _); [intros H; injection H as <- <- <-; auto|].
    destruct (ReadFloat _ (nth 1 _ _));
      [|intros H; injection H as <- <- <-; auto].
    destruct (ReadFloat _ (nth 2 _ _));
      [|intros H; injection H as <- <- <-; auto].
    destruct (Binary32.le _ _); [intros H; injection H as <- <- <-; auto|].
    unfold report. destruct (Binary32.to_int _); [|discriminate].
    intros H; injection H as <- <- <-; auto.
  - intros ->. now apply (option_loop_streams _ _ _ _ _ _ _ _ _ _ El).
Qed.

Lemma exit_status_and_streams_witness :
  main logf_sample sample_environment ["dewpoint"; "20"; "0"]
  = Exit 1 ""
      ("dewpoint: invalid humidity " ++ dquote ++ "20" ++ dquote
       ++ newline ++ kAskForHelp) /\
  ((1 = 0 /\
    "dewpoint: invalid humidity " ++ dquote ++ "20" ++ dquote
    ++ newline ++ kAskForHelp = "") \/
   (1 = 1 /\ "" = "")).
Proof.
  assert (H : main logf_sample sample_environment ["dewpoint"; "20"; "0"]
              = Exit 1 ""
                  ("dewpoint: invalid humidity " ++ dquote ++ "20" ++ dquote
                   ++ newline ++ kAskForHelp))
    by (vm_compute; reflexivity).
  split; [exact H|].
  exact (exit_status_and_streams logf_sample sample_environment
           ["dewpoint"; "20"; "0"] 1 "" _ H).
Defined.

End OutcomeProofs.

Section OptionProofs.

Import Getopt.

(** *** Where the first option lands *)

Lemma exchange_nth_low (argv : list string) (d : data) (i : nat) :
  (i < first_nonopt d)%nat ->
  (first_nonopt d <= List.length argv)%nat ->
  nth i (fst (exchange argv d)) "" = nth i argv "".
Proof.
  intros Hi Hlen. unfold exchange. cbn [fst].
  rewrite app_nth1 by (rewrite length_firstn; lia).
  rewrite nth_firstn.
  destruct (Nat.ltb_spec i (first_nonopt d)); [reflexivity|lia].
Qed.

Lemma exchange_nth_first (argv : list string) (d : data) :
  (first_nonopt d <= last_nonopt d)%nat ->
  (last_nonopt d < optind d)%nat ->
  (optind d <= List.length argv)%nat ->
  nth (first_nonopt d) (fst (exchange argv d)) ""
  = nth (last_nonopt d) argv "".
Proof.
  intros H1 H2 H3. unfold exchange. cbn [fst].
  rewrite app_nth2 by (rewrite length_firstn; lia).
  rewrite length_firstn.
  replace (first_nonopt d - Nat.min (first_nonopt d) (List.length argv))%nat
    with O by lia.
  rewrite app_nth1
    by (rewrite length_firstn, length_skipn; lia).
  rewrite nth_firstn.
  destruct (Nat.ltb_spec 0 (optind d - last_nonopt d)); [|lia].
  rewrite nth_skipn. f_equal. lia.
Qed.

Lemma advance_scanned (argv : list string) (d : data) :
  (1 <= first_nonopt d <= last_nonopt d)%nat ->
  (last_nonopt d <= optind d <= List.length argv)%nat ->
  ordering d = PERMUTE ->
  (first_option d < optind d)%nat ->
  let a := advance argv d in
  List.length (fst a) = List.length argv /\
  (1 < first_nonopt (snd a) <= last_nonopt (snd a))%nat /\
  last_nonopt (snd a) = optind (snd a) /\
  (optind (snd a) <= List.length argv)%nat /\
  nth 1 (fst a) "" = nth (first_option d) argv "" /\
  nextchar (snd a) = nextchar d /\
  ordering (snd a) = PERMUTE.
Proof.
  intros H1 H2 Hord Hfo. unfold advance.
  destruct (Nat.ltb_spec (optind d) (last_nonopt d)) as [|_]; [lia|].
  destruct (Nat.ltb_spec (optind d) (first_nonopt d)) as [|_]; [lia|].
  cbv zeta. rewrite Hord.
  unfold first_option in *.
  destruct (Nat.eqb_spec (first_nonopt d) (last_nonopt d)) as [Hfl|Hfl];
    destruct (Nat.eqb_spec (last_nonopt d) (optind d)) as [Hlo|Hlo];
    cbn [negb andb].
  - destruct (skip_nonoptions_spec (skipn (optind d) argv) (optind d))
      as (k & Hk & Hkl & _).
    rewrite Hk. rewrite length_skipn in Hkl. cbn.
    destruct (Nat.eqb_spec (first_nonopt d) 1); [lia|].
    repeat split; try lia; auto.
  - destruct (skip_nonoptions_spec
                (skipn (optind (with_first_nonopt (optind d) d)) argv)
                (optind (with_first_nonopt (optind d) d)))
      as (k & Hk & Hkl & _).
    rewrite Hk. rewrite length_skipn in Hkl. cbn in *.
    destruct (Nat.eqb_spec (first_nonopt d) 1) as [E|E];
      [rewrite <- Hfl, E|]; repeat split; try lia; auto.
  - destruct (skip_nonoptions_spec (skipn (optind d) argv) (optind d))
      as (k & Hk & Hkl & _).
    rewrite Hk. rewrite length_skipn in Hkl. cbn.
    destruct (Nat.eqb_spec (first_nonopt d) 1); [lia|].
    repeat split; try lia; auto.
  - destruct (exchange_spec argv d) as (Hlen & _ & Hd1); try lia.
    pose proof (exchange_nth_low argv d 1) as Hlow.
    pose proof (exchange_nth_first argv d) as Hfirst.
    destruct (exchange argv d) as [argv1 d1]. cbn [fst snd] in *. subst d1.
    destruct (skip_nonoptions_spec
                (skipn (optind (with_last_nonopt (optind d)
                                  (with_first_nonopt
                                     (first_nonopt d
                                      + (optind d - last_nonopt d)) d)))
                   argv1)
                (optind (with_last_nonopt (optind d)
                           (with_first_nonopt
                              (first_nonopt d
                               + (optind d - last_nonopt d)) d))))
      as (k & Hk & Hkl & _).
    rewrite Hk. rewrite length_skipn in Hkl. cbn in *.
    repeat split; try lia; auto.
    destruct (Nat.eqb_spec (first_nonopt d) 1) as [E|E].
    + rewrite <- Hfirst by lia. now rewrite E.
    + apply Hlow; lia.
Qed.

(** An entry found for a name is an entry of the table. *)
Lemma find_option_In (longopts : list option_) (n : string) (p : option_) :
  find_option longopts n = Found p -> In p longopts.
Proof.
  unfold find_option.
  destruct (List.find _ longopts) as [q|] eqn:Efind.
  - intros H. injection H as <-. now apply find_some in Efind.
  - destruct (List.filter _ longopts) as [|q others] eqn:Efilter;
      [discriminate|].
    destruct (List.filter _ others); [|discriminate].
    intros H. injection H as <-.
    assert (Hin : In q (q :: others)) by now left.
    rewrite <- Efilter in Hin. now apply filter_In in Hin.
Qed.

(** What a long option of the table returns. *)
Lemma find_option_val (n : string) (p : option_) :
  find_option long_options n = Found p ->
  val p = code "c" \/ val p = code "f" \/ val p = kHelpLongOption.
Proof.
  intros H. apply find_option_In in H.
  destruct H as [<-|[<-|[<-|[<-|[]]]]]; cbn; auto.
Qed.

(** A long option that returns a unit is a unit flag. *)
Lemma process_long_option_flag (argv : list string) (d : data)
    (text : string) :
  let r := process_long_option argv long_options d text in
  ret r = code "c" \/ ret r = code "f" ->
  unit_flag (String "-" (String "-" text)) = true /\
  argv_out r = argv /\
  data_out r = with_nextchar None (with_optind (S (optind d)) d).
Proof.
  unfold process_long_option, unit_flag.
  destruct (split_name text) as [n has_eq].
  destruct (find_option long_options n) as [p|l|]; cbn.
  - destruct has_eq; cbn.
    + intros [H|H]; discriminate.
    + intros [H|H]; rewrite H; cbn; auto using orb_true_r.
  - intros [H|H]; discriminate.
  - intros [H|H]; discriminate.
Qed.

Lemma unit_letters_app (s t : string) :
  unit_letters (s ++ t) = unit_letters s && unit_letters t.
Proof.
  induction s as [|a s IH]; [reflexivity|].
  cbn. rewrite IH. now rewrite andb_assoc.
Qed.

(** A cluster of unit letters after [-] is a unit flag. *)
Lemma unit_flag_cluster (pre : string) :
  pre <> "" -> unit_letters pre = true ->
  unit_flag (String "-" pre) = true.
Proof.
  destruct pre as [|a pre]; [congruence|]. intros _ H.
  pose proof H as H'. cbn in H'. apply andb_prop in H' as [Ha _].
  apply unit_letter_cases in Ha as [->| ->]; exact H.
Qed.

(** A character of a cluster that returns a unit is a unit letter. *)
Lemma short_option_letter (argv : list string) (d : data) (c : ascii)
    (cs : string) :
  let r := short_option argv "cf" d c cs in
  ret r = code "c" \/ ret r = code "f" ->
  (Ascii.eqb c "c" || Ascii.eqb c "f") = true.
Proof.
  intros r H. destruct (short_option_cases argv d c cs) as [Hq|(_ & _ & Hc)].
  - fold r in Hq. rewrite Hq in H. destruct H; discriminate.
  - exact Hc.
Qed.

Lemma first_option_bound (d : data) :
  (1 <= first_nonopt d)%nat ->
  (first_nonopt d <= last_nonopt d)%nat ->
  (last_nonopt d <= optind d)%nat ->
  (first_option d <= optind d)%nat.
Proof.
  unfold first_option. destruct (Nat.eqb_spec (first_nonopt d) 1); lia.
Qed.

(** The scan stays in such a state while a cluster returns units. *)
Lemma short_option_scanned (argv : list string) (d : data) (c : ascii)
    (cs : string) :
  scanned argv d ->
  nextchar d = Some (String c cs) ->
  let r := short_option argv "cf" d c cs in
  ret r = code "c" \/ ret r = code "f" ->
  scanned (argv_out r) (data_out r).
Proof.
  intros (H1 & H2 & Hord & Hn) Hnc r Hret. rewrite Hnc in Hn.
  destruct Hn as (Hlt & (pre & Hpre & Hul & Hel) & Hfo).
  pose proof (short_option_letter argv d c cs Hret) as Hc.
  destruct (short_option_state argv "cf" d c cs) as [Ha Hd].
  fold r in Ha, Hd. rewrite Ha, Hd.
  pose proof (first_option_bound d ltac:(lia) ltac:(lia) H2) as Hb.
  assert (Hpre' : unit_letters (pre ++ String c "") = true).
  { rewrite unit_letters_app, Hul. cbn. now rewrite Hc. }
  assert (Hne : pre ++ String c "" <> "").
  { destruct pre; [congruence|discriminate]. }
  destruct cs as [|c' cs'].
  - unfold scanned, first_option in *. cbn.
    repeat split; try lia; auto.
    destruct (Nat.eq_dec
                (if (first_nonopt d =? 1)%nat then last_nonopt d else 1%nat)
                (optind d)) as [E|E].
    + rewrite E, Hel. now apply unit_flag_cluster.
    + apply Hfo. lia.
  - unfold scanned, first_option in *. cbn.
    repeat split; try lia; auto.
    exists (pre ++ String c ""). repeat split; auto.
    rewrite Hel. f_equal. now rewrite string_app_assoc.
Qed.

(** From such a state, the call that moves to the next element ends
    the scan with a unit flag as [argv[1]], or stays in such a state. *)
Lemma next_element_scanned (argv : list string) (d : data) :
  scanned argv d ->
  nextchar d = None \/ nextchar d = Some "" ->
  let r := next_element argv "cf" long_options d in
  (ret r = -1 -> unit_flag (nth 1 (argv_out r) "") = true) /\
  (ret r = code "c" \/ ret r = code "f" ->
   scanned (argv_out r) (data_out r)).
Proof.
  intros (H1 & H2 & Hord & Hn) Hb.
  assert (Hn' : (optind d <= List.length argv)%nat /\
                (first_option d < optind d)%nat /\
                unit_flag (nth (first_option d) argv "") = true).
  { destruct Hb as [E|E]; rewrite E in Hn; exact Hn. }
  clear Hn. destruct Hn' as (Hlen & Hfo & Hflag).
  assert (HQ : let a := advance argv d in
               List.length (fst a) = List.length argv /\
               (1 <= first_nonopt (snd a) <= last_nonopt (snd a))%nat /\
               (last_nonopt (snd a) <= optind (snd a)
                <= List.length argv)%nat /\
               (1 < optind (snd a))%nat /\
               unit_flag (nth 1 (fst a) "") = true /\
               nextchar (snd a) = nextchar d /\
               ((ordering (snd a) = PERMUTE /\
                 (1 < first_nonopt (snd a))%nat) \/
                (ordering (snd a) = REQUIRE_ORDER /\
                 first_nonopt (snd a) = 1%nat /\
                 last_nonopt (snd a) = 1%nat))).
  { destruct Hord as [Hord|(Hord & Hf & Hl)].
    - destruct (advance_scanned argv d H1 ltac:(lia) Hord Hfo)
        as (A1 & A2 & A3 & A4 & A5 & A6 & A7).
      cbv zeta. rewrite A5. repeat split; try lia; auto.
      left. split; [assumption|lia].
    - pose proof (advance_spec argv d ltac:(lia) H2 Hlen) as A.
      cbv zeta in A. rewrite Hord in A.
      destruct A as (_ & _ & _ & _ & _ & _ & _ & A). rewrite A.
      cbn [fst snd]. unfold first_option in *. rewrite Hf in *.
      cbn in Hfo, Hflag. rewrite Hl in *.
      repeat split; try lia; auto. }
  unfold next_element.
  destruct (advance argv d) as [argv1 d1]. cbn [fst snd] in HQ.
  destruct HQ as (Q1 & Q2 & Q3 & Q4 & Q5 & Q6 & Q7).
  clear H1 H2 Hord Hlen Hfo Hflag.
  unfold end_of_options.
  assert (Hfo1 : first_option d1 = 1%nat).
  { unfold first_option.
    destruct Q7 as [(_ & Q7)|(_ & Q7 & Q8)];
      destruct (Nat.eqb_spec (first_nonopt d1) 1); lia. }
  destruct (Nat.eqb_spec (optind d1) (List.length argv1)) as [Hend|Hend];
    cbn [negb andb].
  { destruct (Nat.eqb_spec (optind d1) (List.length argv)); [|lia].
    cbn. split; [intros _; exact Q5|intros [H|H]; discriminate]. }
  destruct (String.eqb_spec (nth (optind d1) argv1 "") "--") as [Hdd|Hdd].
  { cbv zeta. cbn [first_nonopt last_nonopt optind with_optind].
    assert (Hlow : forall d', first_nonopt d' = first_nonopt d1 ->
                     (1 < first_nonopt d1)%nat ->
                     nth 1 (fst (exchange argv1 d')) "" = nth 1 argv1 "").
    { intros d' E Hlt. apply exchange_nth_low; rewrite E; lia. }
    destruct (Nat.eqb_spec (first_nonopt d1) (last_nonopt d1)) as [Hfl|Hfl];
      cbn [negb andb].
    - cbn. rewrite Q1, Nat.eqb_refl. cbn.
      split; [intros _; exact Q5|intros [H|H]; discriminate].
    - destruct (Nat.eqb_spec (last_nonopt d1) (S (optind d1))) as [Hlo|Hlo];
        cbn [negb andb]; [lia|].
      specialize (Hlow (with_optind (S (optind d1)) d1) eq_refl).
      destruct (exchange argv1 (with_optind (S (optind d1)) d1))
        as [argv2 d2].
      cbn. rewrite Q1, Nat.eqb_refl. cbn. cbn in Hlow.
      split; [intros _|intros [H|H]; discriminate].
      rewrite Hlow; [exact Q5|]. destruct Q7 as [(_ & Q7)|(_ & Q7 & Q8)]; lia. }
  destruct (Nat.eqb_spec (optind d1) (List.length argv)) as [|_]; [lia|].
  destruct (nonoption (nth (optind d1) argv1 "")) eqn:Hnon.
  { destruct Q7 as [(Q7 & _)|(Q7 & _)]; rewrite Q7; cbn;
      (split; [intros H; try discriminate; exact Q5
              |intros [H|H]; discriminate]). }
  destruct (nth (optind d1) argv1 "") as [|a [|b text]] eqn:Earg;
    try (cbn in Hnon; discriminate).
  { destruct a as [[] [] [] [] [] [] [] []]; discriminate. }
  assert (Ea : a = "-"%char).
  { destruct (Ascii.eqb_spec a "-") as [E|E]; [exact E|].
    exfalso. revert Hnon. cbn.
    destruct a as [[] [] [] [] [] [] [] []]; try discriminate; congruence. }
  subst a.
  assert (Hnew : forall p, p = None \/ p = Some "" ->
             scanned argv1
               (with_optind (S (optind d1)) (with_nextchar p d1))).
  { intros p Hp. unfold scanned, first_option in *. cbn.
    rewrite Hfo1. repeat split; try lia; auto.
    - destruct Q7 as [(Q7 & _)|(Q7 & Q8 & Q9)]; auto.
    - destruct Hp as [-> | ->]; repeat split; try lia; auto. }
  destruct (Ascii.eqb_spec b "-") as [->|Hb'].
  - pose proof (process_long_option_flag argv1 d1 text) as Hflag.
    destruct (process_long_option_state argv1 long_options d1 text)
      as [Hargv _].
    cbv zeta in *. rewrite Hargv.
    split; [intros _; exact Q5|].
    intros Hret. destruct (Hflag Hret) as (_ & _ & Hdata).
    rewrite Hdata. apply (Hnew None). now left.
  - replace (match b with
             | "-"%char => process_long_option argv1 long_options d1 text
             | _ => short_option argv1 "cf" d1 b text
             end) with (short_option argv1 "cf" d1 b text)
      by (destruct b as [[] [] [] [] [] [] [] []]; try reflexivity;
          congruence).
    pose proof (short_option_letter argv1 d1 b text) as Hletter.
    destruct (short_option_state argv1 "cf" d1 b text) as [Hargv Hdata].
    cbv zeta in *. rewrite Hargv, Hdata.
    split; [intros _; exact Q5|].
    intros Hret. specialize (Hletter Hret).
    destruct text as [|c' cs'].
    + apply (Hnew (Some "")). now right.
    + unfold scanned, first_option in *. cbn. rewrite Hfo1.
      repeat split; try lia; auto.
      * destruct Q7 as [(Q7 & _)|(Q7 & Q8 & Q9)]; auto.
      * exists (String b ""). repeat split; [discriminate| |exact Earg].
        cbn. now rewrite Hletter.
Qed.

(** The first call of [getopt_long]: it ends the scan with [argv] as
    it was, made of non-options, or with [--] as [argv[1]]; or it
    returns a unit and leaves the scan in a state as above. *)
Lemma next_element_initial (argv : list string) (pc : bool) :
  (1 <= List.length argv)%nat ->
  let r := next_element argv "cf" long_options (initialize "cf" pc) in
  (ret r = -1 ->
   (argv_out r = argv /\ optind (data_out r) = 1%nat /\
    nonoption (nth 1 argv "") = true /\
    (pc = false -> Forall (fun s => nonoption s = true) (tl argv))) \/
   nth 1 (argv_out r) "" = "--") /\
  (ret r = code "c" \/ ret r = code "f" ->
   scanned (argv_out r) (data_out r)).
Proof.
  intros Hlen. destruct argv as [|prog args]; [cbn in Hlen; lia|].
  clear Hlen.
  assert (HI : exists (k : nat) (d1 : data),
             advance (prog :: args) (initialize "cf" pc)
             = (prog :: args, d1) /\
             optind d1 = S k /\ first_nonopt d1 = 1%nat /\
             last_nonopt d1 = S k /\ nextchar d1 = None /\
             (k <= List.length args)%nat /\
             Forall (fun s => nonoption s = true) (firstn k args) /\
             ((ordering d1 = PERMUTE /\ pc = false) \/
              (ordering d1 = REQUIRE_ORDER /\ k = O /\ pc = true))).
  { destruct pc.
    - exists O, (initialize "cf" true). cbn. repeat split; auto; try lia.
    - destruct (skip_nonoptions_spec args 1) as (k & Hk & Hkl & Hall & _).
      exists k. eexists. unfold advance, initialize. cbn.
      rewrite Hk. repeat split; auto. }
  destruct HI as (k & d1 & Hadv & Ho & Hf & Hl & Hnc & Hk & Hall & Hord).
  unfold next_element. rewrite Hadv. clear Hadv.
  unfold end_of_options. cbn [List.length].
  assert (Hhead : (0 < k)%nat -> nonoption (nth 1 (prog :: args) "") = true).
  { intros Hpos. destruct args as [|x args]; [reflexivity|].
    destruct k; [lia|]. cbn in Hall. now inversion Hall. }
  destruct (Nat.eqb_spec (optind d1) (S (List.length args))) as [Hend|Hend];
    cbn [negb andb].
  { destruct (Nat.eqb_spec (optind d1) (S (List.length args))); [|lia].
    cbn. split; [intros _; left|intros [H|H]; discriminate].
    assert (Ek : k = List.length args) by lia.
    rewrite Ek, firstn_all in Hall.
    split; [reflexivity|]. split; [|split].
    - rewrite Hf, Hl.
      destruct (Nat.eqb_spec 1 (S k)); cbn; lia.
    - destruct k; [|apply Hhead; lia].
      destruct args; [reflexivity|discriminate].
    - intros _. exact Hall. }
  destruct (String.eqb_spec (nth (optind d1) (prog :: args) "") "--")
    as [Hdd|Hdd].
  { cbv zeta. cbn [first_nonopt last_nonopt optind with_optind].
    pose proof (exchange_nth_first (prog :: args)
                  (with_optind (S (optind d1)) d1)) as Hx.
    cbn [first_nonopt last_nonopt optind with_optind List.length] in Hx.
    rewrite Hf, Hl, Ho in *.
    destruct (Nat.eqb_spec 1 (S k)) as [Hfl|Hfl]; cbn [negb andb].
    - cbn. rewrite Nat.eqb_refl. cbn.
      split; [intros _; right|intros [H|H]; discriminate].
      replace k with O in Hdd by lia. exact Hdd.
    - destruct (Nat.eqb_spec (S k) (S (S k))) as [Hlo|Hlo];
        cbn [negb andb]; [lia|].
      destruct (exchange (prog :: args) (with_optind (S (S k)) d1))
        as [argv2 d2].
      cbn. rewrite Nat.eqb_refl. cbn. cbn [fst] in Hx.
      split; [intros _; right|intros [H|H]; discriminate].
      rewrite Hx by lia. exact Hdd. }
  destruct (Nat.eqb_spec (optind d1) (S (List.length args))) as [|_]; [lia|].
  destruct (nonoption (nth (optind d1) (prog :: args) "")) eqn:Hnon.
  { destruct Hord as [(Hord & Hpc)|(Hord & Hk0 & Hpc)]; rewrite Hord; cbn;
      (split; [intros H; try discriminate|intros [H|H]; discriminate]).
    left. subst k. rewrite Ho in *.
    repeat split; auto. intros ->. discriminate. }
  set (argv := prog :: args) in *.
  assert (Hlen : (S k < List.length argv)%nat) by (cbn; lia).
  destruct (nth (optind d1) argv "") as [|a [|b text]] eqn:Earg;
    try (cbn in Hnon; discriminate).
  { destruct a as [[] [] [] [] [] [] [] []]; discriminate. }
  assert (Ea : a = "-"%char).
  { destruct (Ascii.eqb_spec a "-") as [E|E]; [exact E|].
    exfalso. revert Hnon. cbn.
    destruct a as [[] [] [] [] [] [] [] []]; try discriminate; congruence. }
  subst a.
  assert (Earg' : nth (S k) argv "" = String "-" (String b text))
    by (rewrite <- Ho; exact Earg).
  assert (Hnew : forall p, p = None \/ p = Some "" ->
             unit_flag (String "-" (String b text)) = true ->
             scanned argv
               (with_optind (S (optind d1)) (with_nextchar p d1))).
  { intros p Hp Hflag. unfold scanned, first_option.
    cbn [first_nonopt last_nonopt optind nextchar ordering with_optind
         with_nextchar].
    rewrite Hf, Hl, Ho. cbn [Nat.eqb]. rewrite Earg'.
    repeat split; try lia; auto.
    - destruct Hord as [(Hord & _)|(Hord & Hk0 & _)]; auto.
    - destruct Hp as [-> | ->]; repeat split; try lia; auto. }
  destruct (Ascii.eqb_spec b "-") as [->|Hb'].
  - pose proof (process_long_option_flag argv d1 text) as Hflag.
    cbv zeta in *.
    split.
    + intros Hret. exfalso. revert Hret. unfold process_long_option.
      destruct (split_name text) as [n has_eq].
      destruct (find_option long_options n) as [p|l|] eqn:Efind;
        [destruct has_eq| |]; cbn; try discriminate.
      destruct (find_option_val n p Efind) as [E|[E|E]]; rewrite E;
        discriminate.
    + intros Hret. destruct (Hflag Hret) as (Hfl & Hargv & Hdata).
      rewrite Hargv, Hdata. apply (Hnew None); [now left|exact Hfl].
  - replace (match b with
             | "-"%char => process_long_option argv long_options d1 text
             | _ => short_option argv "cf" d1 b text
             end) with (short_option argv "cf" d1 b text)
      by (destruct b as [[] [] [] [] [] [] [] []]; try reflexivity;
          congruence).
    pose proof (short_option_letter argv d1 b text) as Hletter.
    destruct (short_option_state argv "cf" d1 b text) as [Hargv Hdata].
    cbv zeta in *. rewrite Hargv, Hdata.
    split.
    + intros Hret. exfalso.
      destruct (short_option_cases argv d1 b text) as [Hq|([Hq|Hq] & _)];
        rewrite Hq in Hret; discriminate.
    + intros Hret. specialize (Hletter Hret).
      destruct text as [|c' cs'].
      * apply (Hnew (Some "")); [now right|].
        apply unit_flag_cluster; [discriminate|]. cbn. now rewrite Hletter.
      * unfold scanned, first_option.
        cbn [first_nonopt last_nonopt optind nextchar ordering with_optind
             with_nextchar].
        rewrite Hf, Hl, Ho. cbn [Nat.eqb].
        repeat split; try lia; auto.
        -- destruct Hord as [(Hord & _)|(Hord & Hk0 & _)]; auto.
        -- exists (String b ""). repeat split; [discriminate| |exact Earg'].
           cbn. now rewrite Hletter.
Qed.

(** One call of [getopt_long] from a state as above. *)
Lemma getopt_long_scanned (argv : list string) (d : data) :
  scanned argv d ->
  let r := getopt_long argv "cf" long_options d in
  (ret r = -1 -> unit_flag (nth 1 (argv_out r) "") = true) /\
  (ret r = code "c" \/ ret r = code "f" ->
   scanned (argv_out r) (data_out r)).
Proof.
  intros Hs.
  assert (Hlen : (1 <= List.length argv)%nat).
  { destruct Hs as (H1 & H2 & _ & Hn).
    destruct (nextchar d) as [[|c cs]|]; lia. }
  destruct (nextchar d) as [[|c cs]|] eqn:Hnc.
  - rewrite getopt_long_boundary by auto.
    apply next_element_scanned; auto.
  - rewrite (getopt_long_cluster argv "cf" long_options d c cs Hlen Hnc).
    split; [|now apply short_option_scanned].
    intros Hret. exfalso.
    destruct (short_option_cases argv d c cs) as [Hq|([Hq|Hq] & _)];
      rewrite Hq in Hret; discriminate.
  - rewrite getopt_long_boundary by auto.
    apply next_element_scanned; auto.
Qed.

(** The first call of [getopt_long]. *)
Lemma getopt_long_initial (argv : list string) (pc : bool) :
  let r := getopt_long argv "cf" long_options (initialize "cf" pc) in
  (ret r = -1 ->
   (argv_out r = argv /\ optind (data_out r) = 1%nat /\
    nonoption (nth 1 argv "") = true /\
    (pc = false -> Forall (fun s => nonoption s = true) (tl argv))) \/
   nth 1 (argv_out r) "" = "--") /\
  (ret r = code "c" \/ ret r = code "f" ->
   scanned (argv_out r) (data_out r)).
Proof.
  destruct argv as [|prog args].
  - cbn. split; [intros _; left; auto|intros [H|H]; discriminate].
  - rewrite getopt_long_boundary by (cbn; auto; lia).
    apply next_element_initial. cbn. lia.
Qed.

(** Once a unit has been returned, the loop leaves a unit flag as
    [argv[1]] when it ends by [break]. *)
Lemma option_loop_scanned (catalog : message -> string)
    (L : string) (b : bool) :
  forall (fuel : nat) (argv : list string) (d : data) (u : bool)
         (err : string) (argv' : list string) (d' : data) (u' : bool),
    scanned argv d ->
    option_loop catalog fuel L b argv d u err = Break argv' d' u' ->
    unit_flag (nth 1 argv' "") = true.
Proof.
  induction fuel as [|fuel IH]; intros argv d u err argv' d' u' Hs;
    [discriminate|].
  rewrite option_loop_S. cbv zeta.
  destruct (getopt_long_scanned argv d Hs) as [Hend Hunit].
  cbv zeta in Hend, Hunit.
  destruct (Z.eqb_spec (ret (getopt_long argv "cf" long_options d)) (-1))
    as [E|_].
  { intros H. injection H as <- _ _. auto. }
  destruct (Z.eqb_spec (ret (getopt_long argv "cf" long_options d))
              (code "c")) as [E|_].
  { apply IH. auto. }
  destruct (Z.eqb_spec (ret (getopt_long argv "cf" long_options d))
              (code "f")) as [E|_].
  { apply IH. auto. }
  repeat match goal with
         | |- (if ?c then _ else _) = _ -> _ => destruct c
         end; discriminate.
Qed.

(** No unit flag reads as a number, whatever the decimal point. *)
Lemma unit_flag_not_number (radix : ascii) (s : string) :
  unit_flag s = true -> ReadFloat radix s = None.
Proof.
  intros Hflag. destruct (unit_flag_option s Hflag) as [Hnon _].
  destruct s as [|a [|b text]];
    [discriminate
    |exfalso; revert Hnon; destruct a as [[] [] [] [] [] [] [] []];
     discriminate
    |].
  assert (Ea : a = "-"%char).
  { destruct (Ascii.eqb_spec a "-") as [E|E]; [exact E|].
    exfalso. revert Hnon. cbn.
    destruct a as [[] [] [] [] [] [] [] []]; try discriminate; congruence. }
  subst a.
  destruct (Ascii.eqb_spec b "-") as [->|Hb].
  - destruct (ReadFloat radix (String "-" (String "-" text))) as [f|] eqn:Er;
      [exfalso|reflexivity].
    apply ReadFloat_two_dashes in Er as (c & rest & -> & Hdigit).
    pose proof (find_option_digit c rest Hdigit) as Hnf.
    unfold unit_flag in Hflag.
    destruct (split_name (String c rest)) as [n has_eq].
    cbn [fst] in Hnf. rewrite Hnf in Hflag.
    now rewrite andb_false_r in Hflag.
  - apply ReadFloat_unit_cluster.
    revert Hflag. unfold unit_flag.
    destruct b as [[] [] [] [] [] [] [] []]; try (intros H; exact H).
    congruence.
Qed.

Lemma read_arguments_not_number (env : environment) (argv : list string)
    (n : nat) (u : bool) :
  ReadFloat (decimal_point env) (nth 1 argv "") = None ->
  exists o : outcome, read_arguments env argv n u = Stop o.
Proof.
  intros H. unfold read_arguments. rewrite H.
  destruct (negb _); eauto.
Qed.

(** *** No calculation with options *)

(** [main] reaches the calculator only on a command line of exactly
    two arguments, of which the first is no option (nor is the second,
    unless [POSIXLY_CORRECT] is set): both read as numbers, the second
    is not [<= 0], and the unit is the one of the measurement locale.
    No command line with [-c], [-f] or a long unit option is
    calculated. *)
Theorem calculation_takes_no_option
    (env : environment) (argv : list string) (u : bool)
    (t h : Binary32.float) :
  parse env argv = Calculate u t h ->
  exists prog tt ht : string,
    argv = [prog; tt; ht] /\
    nonoption tt = true /\
    (posixly_correct env = false -> nonoption ht = true) /\
    u = LocaleUsesFahrenheit (measurement_locale_of env) /\
    ReadFloat (decimal_point env) tt = Some t /\
    ReadFloat (decimal_point env) ht = Some h /\
    Binary32.le h Binary32.plus_zero = false.
Proof.
  unfold parse, loop_fuel. rewrite option_loop_S. cbv zeta.
  destruct (getopt_long_initial argv (posixly_correct env)) as [Hend Hunit].
  cbv zeta in Hend, Hunit.
  set (r := getopt_long argv "cf" long_options
              (initialize "cf" (posixly_correct env))) in *.
  assert (Hstop : forall argv' n u',
             ReadFloat (decimal_point env) (nth 1 argv' "") = None ->
             read_arguments env argv' n u' <> Calculate u t h).
  { intros argv' n u' Hnone.
    destruct (read_arguments_not_number env argv' n u' Hnone) as [o Ho].
    rewrite Ho. discriminate. }
  destruct (Z.eqb_spec (ret r) (-1)) as [E|_].
  { destruct (Hend E) as [(Ha & Ho & Hn & Hall)|Hdd].
    - rewrite Ha, Ho. unfold read_arguments.
      destruct (Z.eqb_spec (Z.of_nat 1) (Z.of_nat (List.length argv) - 2))
        as [Hlen|Hlen]; cbn [negb]; [|discriminate].
      destruct argv as [|prog [|tt [|ht [|x argv]]]];
        try (cbn [List.length] in Hlen; lia).
      cbn [nth] in *.
      destruct (ReadFloat (decimal_point env) tt) as [t'|] eqn:Et;
        [|discriminate].
      destruct (ReadFloat (decimal_point env) ht) as [h'|] eqn:Eh;
        [|discriminate].
      destruct (Binary32.le h' Binary32.plus_zero) eqn:Hle; [discriminate|].
      intros H. injection H as <- <- <-.
      exists prog, tt, ht. repeat split; auto.
      intros Hpc. specialize (Hall Hpc). cbn in Hall.
      inversion Hall as [|? ? _ Hrest]. now inversion Hrest.
    - intros H. exfalso. revert H. apply Hstop. rewrite Hdd.
      destruct (ReadFloat (decimal_point env) "--") as [f|] eqn:Er;
        [|reflexivity].
      apply ReadFloat_two_dashes in Er as (c & rest & Er & _).
      discriminate. }
  assert (Hloop : forall n u' err,
             ret r = code "c" \/ ret r = code "f" ->
             match option_loop (messages env) n (measurement_locale_of env)
                     (LocaleUsesFahrenheit (measurement_locale_of env))
                     (argv_out r) (data_out r) u' err with
             | Return o => Stop o
             | Break argv0 d use_fahrenheit =>
                 read_arguments env argv0 (optind d) use_fahrenheit
             end <> Calculate u t h).
  { intros n u' err Hret.
    destruct (option_loop _ _ _ _ _ _ _ _) as [argv' d' u''|o] eqn:El;
      [|discriminate].
    apply Hstop, unit_flag_not_number.
    exact (option_loop_scanned _ _ _ _ _ _ _ _ _ _ _ (Hunit Hret) El). }
  destruct (Z.eqb_spec (ret r) (code "c")) as [E|_].
  { intros H. exfalso. revert H. apply Hloop. now left. }
  destruct (Z.eqb_spec (ret r) (code "f")) as [E|_].
  { intros H. exfalso. revert H. apply Hloop. now right. }
  repeat match goal with
         | |- match (if ?c then _ else _) with _ => _ end = _ -> _ =>
             destruct c
         end; discriminate.
Qed.

Lemma calculation_takes_no_option_witness :
  parse sample_environment ["dewpoint"; "20"; "50"]
  = Calculate true (float_of_Z 20) (float_of_Z 50) /\
  exists prog tt ht : string,
    ["dewpoint"; "20"; "50"] = [prog; tt; ht] /\
    nonoption tt = true /\
    (posixly_correct sample_environment = false -> nonoption ht = true) /\
    true = LocaleUsesFahrenheit (measurement_locale_of sample_environment) /\
    ReadFloat (decimal_point sample_environment) tt
    = Some (float_of_Z 20) /\
    ReadFloat (decimal_point sample_environment) ht
    = Some (float_of_Z 50) /\
    Binary32.le (float_of_Z 50) Binary32.plus_zero = false.
Proof.
  assert (H : parse sample_environment ["dewpoint"; "20"; "50"]
              = Calculate true (float_of_Z 20) (float_of_Z 50))
    by (vm_compute; reflexivity).
  split; [exact H|].
  exact (calculation_takes_no_option sample_environment
           ["dewpoint"; "20"; "50"] true (float_of_Z 20) (float_of_Z 50) H).
Defined.

End OptionProofs.

Section DiagnosticProofs.

Import Getopt.

(** *** What [getopt_long] returns to the loop *)

Lemma process_long_option_values (argv : list string) (d : data)
    (text : string) :
  let r := process_long_option argv long_options d text in
  ret r = code "?" \/ ret r = code "c" \/ ret r = code "f" \/
  ret r = kHelpLongOption.
Proof.
  unfold process_long_option. destruct (split_name text) as [n has_eq].
  destruct (find_option long_options n) as [p|l|] eqn:Efind;
    [destruct has_eq| |]; cbn; auto.
  destruct (find_option_val n p Efind) as [E|[E|E]]; auto.
Qed.

(** With the option string and the table of [main], and in the orders
    [initialize] selects, [getopt_long] returns [-1], a unit letter,
    the value of [--help] or [?], and keeps the order. *)
Lemma getopt_long_values (argv : list string) (d : data) :
  well_formed argv d ->
  ordering d <> RETURN_IN_ORDER ->
  let r := getopt_long argv "cf" long_options d in
  ret r = -1 \/ ret r = code "?" \/ ret r = kHelpLongOption \/
  ((ret r = code "c" \/ ret r = code "f") /\
   ordering (data_out r) = ordering d).
Proof.
  intros (H1 & H2 & Hn) Hord. cbv zeta.
  destruct (Nat.ltb_spec (List.length argv) 1) as [Hlen|Hlen].
  { unfold getopt_long.
    destruct (Nat.ltb_spec (List.length argv) 1); [cbn; auto|lia]. }
  assert (Hshort : forall argv1 d1 c cs,
             ordering d1 = ordering d ->
             let r := short_option argv1 "cf" d1 c cs in
             ret r = -1 \/ ret r = code "?" \/ ret r = kHelpLongOption \/
             ((ret r = code "c" \/ ret r = code "f") /\
              ordering (data_out r) = ordering d)).
  { intros argv1 d1 c cs Ho.
    destruct (short_option_cases argv1 d1 c cs) as [Hq|(Hq & _)];
      cbv zeta; auto.
    right. right. right. split; [exact Hq|].
    destruct (short_option_state argv1 "cf" d1 c cs) as [_ Hd].
    cbv zeta in Hd. rewrite Hd. destruct cs; exact Ho. }
  assert (Hnext : (optind d <= List.length argv)%nat ->
            let r := next_element argv "cf" long_options d in
            ret r = -1 \/ ret r = code "?" \/ ret r = kHelpLongOption \/
            ((ret r = code "c" \/ ret r = code "f") /\
             ordering (data_out r) = ordering d)).
  { intros Ho.
    destruct (next_element_spec argv "cf" long_options d H1 H2 Ho)
      as [Hend|(argv1 & d1 & _ & _ & _ & _ & _ & _ & Hord1 & _ & _ & Hcase)];
      cbv zeta; auto.
    destruct Hcase as [(_ & Hrio & _)|[(text & _ & Hr)|(c & cs & _ & _ & Hr)]].
    - contradiction.
    - cbv zeta in Hr. rewrite Hr.
      destruct (process_long_option_values argv1 d1 text)
        as [E|[E|[E|E]]]; auto;
        (right; right; right; split; [auto|]);
        destruct (process_long_option_state argv1 long_options d1 text)
          as [_ [Hd|Hd]]; cbv zeta in Hd; rewrite Hd; exact Hord1.
    - cbv zeta in Hr. rewrite Hr. now apply Hshort. }
  destruct (nextchar d) as [[|c cs]|] eqn:Hnc.
  - rewrite getopt_long_boundary by auto. now apply Hnext.
  - rewrite (getopt_long_cluster argv "cf" long_options d c cs Hlen Hnc).
    now apply Hshort.
  - rewrite getopt_long_boundary by auto. now apply Hnext.
Qed.

(** *** Failures end with the hint *)

Lemma option_loop_hint (catalog : message -> string)
    (L : string) (b : bool) :
  forall (fuel : nat) (argv : list string) (d : data) (u : bool)
         (err out e : string),
    well_formed argv d ->
    ordering d <> RETURN_IN_ORDER ->
    option_loop catalog fuel L b argv d u err = Return (Exit 1 out e) ->
    exists e' : string, e = e' ++ kAskForHelp.
Proof.
  induction fuel as [|fuel IH]; intros argv d u err out e Hwf Hord;
    [discriminate|].
  rewrite option_loop_S. cbv zeta.
  pose proof (getopt_long_progress argv "cf" long_options d Hwf) as Hprog.
  cbv zeta in Hprog.
  destruct (getopt_long_values argv d Hwf Hord)
    as [E|[E|[E|([E|E] & Ho)]]]; rewrite E; cbn [Z.eqb code]; cbn.
  - discriminate.
  - intros H. injection H as _ <-. eauto.
  - discriminate.
  - destruct Hprog as [Hp|[Hp _]]; [rewrite E in Hp; discriminate|].
    apply IH; [exact Hp|now rewrite Ho].
  - destruct Hprog as [Hp|[Hp _]]; [rewrite E in Hp; discriminate|].
    apply IH; [exact Hp|now rewrite Ho].
Qed.

(** Whatever the arguments and the environment, a run that ends with
    status 1 has written the hint [Try 'dewpoint --help' for more
    information] as the last line of standard error; the branch
    [Internal error; please report.] of the option loop is never
    taken. *)
Theorem failure_ends_with_hint
    (logf : Binary32.float -> Binary32.float) (env : environment)
    (argv : list string) (out err : string) :
  main logf env argv = Exit 1 out err ->
  exists e : string, err = e ++ kAskForHelp.
Proof.
  unfold main, parse.
  destruct (option_loop _ _ _ _ _ _ _ _) as [argv' d' u'|o] eqn:El.
  - unfold read_arguments.
    destruct (negb _); [intros H; exists kShortUsage; congruence|].
    assert (Hinvalid : forall what : string,
              Exit 1 ""
                (what ++ dquote ++ nth 1 argv' "" ++ dquote ++ newline
                 ++ kAskForHelp) = Exit 1 out err ->
              exists e : string, err = e ++ kAskForHelp).
    { intros what H.
      exists (what ++ dquote ++ nth 1 argv' "" ++ dquote ++ newline).
      rewrite !string_app_assoc. congruence. }
    destruct (ReadFloat _ (nth 1 argv' "")); [|apply Hinvalid].
    destruct (ReadFloat _ (nth 2 argv' "")); [|apply Hinvalid].
    destruct (Binary32.le _ _); [apply Hinvalid|].
    unfold report. destruct (Binary32.to_int _); discriminate.
  - intros ->. destruct argv as [|prog args].
    + discriminate.
    + destruct (initialize_well_formed (prog :: args) (posixly_correct env))
        as [Hwf _]; [cbn; lia|].
      apply (option_loop_hint _ _ _ _ _ _ _ _ _ _ Hwf) in El; [exact El|].
      cbn. destruct (posixly_correct env); discriminate.
Qed.

Lemma failure_ends_with_hint_witness :
  main logf_sample sample_environment ["dewpoint"; "-x"]
  = Exit 1 ""
      ("dewpoint: invalid option -- 'x'" ++ newline ++ kAskForHelp) /\
  exists e : string,
    "dewpoint: invalid option -- 'x'" ++ newline ++ kAskForHelp
    = e ++ kAskForHelp.
Proof.
  assert (H : main logf_sample sample_environment ["dewpoint"; "-x"]
              = Exit 1 ""
                  ("dewpoint: invalid option -- 'x'" ++ newline
                   ++ kAskForHelp))
    by (vm_compute; reflexivity).
  split; [exact H|].
  exact (failure_ends_with_hint logf_sample sample_environment
           ["dewpoint"; "-x"] "" _ H).
Defined.

End DiagnosticProofs.

Section NonfiniteProofs.

Import Getopt.

(** *** Temperatures that are no numbers *)

Lemma add_nan_r (x : Binary32.float) :
  Binary32.add x Binary32.nan = Binary32.nan.
Proof. now destruct x. Qed.

Lemma DewPoint32_nonfinite (logf : Binary32.float -> Binary32.float)
    (t h : Binary32.float) :
  nonfinite t -> DewPoint32 logf t h = Binary32.nan.
Proof.
  intros Ht. rewrite DewPoint32_formula. cbv zeta.
  assert (E : Binary32.div
                (Binary32.mul (Binary32.float_literal 17.625) t)
                (Binary32.add (Binary32.float_literal 243.04) t)
              = Binary32.nan).
  { destruct Ht as [->|[->| ->]]; vm_compute; reflexivity. }
  rewrite E, add_nan_r, mul_nan_r. reflexivity.
Qed.

Lemma report_nonfinite (logf : Binary32.float -> Binary32.float)
    (u : bool) (t h : Binary32.float) :
  nonfinite t -> report logf u t h = UndefinedConversion Binary32.nan.
Proof.
  intros Ht. unfold report.
  fold (DewPointFahrenheit32 logf t h). fold (DewPoint32 logf t h).
  rewrite DewPointFahrenheit32_formula.
  assert (Hc : nonfinite
                 (Binary32.mul (Binary32.div (float_of_Z 5) (float_of_Z 9))
                    (Binary32.sub t (float_of_Z 32)))).
  { unfold nonfinite.
    destruct Ht as [->|[->| ->]]; vm_compute; auto. }
  rewrite !DewPoint32_nonfinite by assumption.
  rewrite mul_nan_r. destruct u; reflexivity.
Qed.

(** The token [inf] reads as an infinity; and with two arguments that
    are no options, a temperature that reads as NaN or as an infinity
    and a humidity that passes the test, the dew point is NaN whatever
    the humidity, the unit and [logf] are: the run ends in the
    conversion of NaN to [int], on no error path. *)
Theorem nonfinite_temperature_undefined :
  (forall radix : ascii, ReadFloat radix "inf" = Some Binary32.infinity) /\
  (forall (logf : Binary32.float -> Binary32.float) (env : environment)
          (prog tt ht : string) (t h : Binary32.float),
     nonoption tt = true ->
     nonoption ht = true ->
     ReadFloat (decimal_point env) tt = Some t ->
     ReadFloat (decimal_point env) ht = Some h ->
     Binary32.le h Binary32.plus_zero = false ->
     nonfinite t ->
     main logf env [prog; tt; ht] = UndefinedConversion Binary32.nan).
Proof.
  split.
  { intros radix.
    destruct radix as [[] [] [] [] [] [] [] []]; vm_compute; reflexivity. }
  intros logf env prog tt ht t h Htt Hht Ht Hh Hle Hnf.
  unfold main. rewrite parse_positionals by (repeat constructor; auto).
  unfold read_arguments. cbn [List.length nth].
  change (negb (Z.of_nat 1 =? Z.of_nat 3 - 2)) with false. cbv iota.
  rewrite Ht, Hh, Hle. now apply report_nonfinite.
Qed.

Lemma nonfinite_temperature_undefined_witness :
  nonoption "inf" = true /\ nonoption "50" = true /\
  ReadFloat "." "inf" = Some Binary32.infinity /\
  ReadFloat "." "50" = Some (float_of_Z 50) /\
  Binary32.le (float_of_Z 50) Binary32.plus_zero = false /\
  nonfinite Binary32.infinity /\
  main logf_sample sample_environment ["dewpoint"; "inf"; "50"]
  = UndefinedConversion Binary32.nan.
Proof.
  assert (H3 : ReadFloat "." "inf" = Some Binary32.infinity)
    by (vm_compute; reflexivity).
  assert (H4 : ReadFloat "." "50" = Some (float_of_Z 50))
    by (vm_compute; reflexivity).
  assert (H6 : nonfinite Binary32.infinity) by (right; left; reflexivity).
  split; [reflexivity|]. split; [reflexivity|].
  split; [exact H3|]. split; [exact H4|]. split; [reflexivity|].
  split; [exact H6|].
  exact (proj2 nonfinite_temperature_undefined logf_sample
           sample_environment "dewpoint" "inf" "50" Binary32.infinity
           (float_of_Z 50) eq_refl eq_refl H3 H4 eq_refl H6).
Defined.

End NonfiniteProofs.

Section RefusedOptionProofs.

Import Getopt.

(** *** Options that are refused *)

(** The first call of [getopt_long] when [argv[1]] is an option. *)
Lemma next_element_first_option (prog s : string) (args : list string)
    (pc : bool) :
  nonoption s = false ->
  s <> "--" ->
  next_element (prog :: s :: args) "cf" long_options (initialize "cf" pc)
  = match s with
    | String _ (String "-" text) =>
        process_long_option (prog :: s :: args) long_options
          (initialize "cf" pc) text
    | String _ (String c rest) =>
        short_option (prog :: s :: args) "cf" (initialize "cf" pc) c rest
    | _ => {| ret := -1; argv_out := prog :: s :: args;
              data_out := initialize "cf" pc; diagnostic := None |}
    end.
Proof.
  intros Hnon Hdd. apply String.eqb_neq in Hdd.
  destruct pc; unfold next_element, advance, end_of_options, initialize;
    cbn; rewrite ?Hnon; cbn; rewrite Hdd; cbn; rewrite Hnon; reflexivity.
Qed.

(** The switch of the loop on the value [?]. *)
Ltac question_mark :=
  cbv zeta;
  change (63 =? -1) with false;
  change (63 =? code "c") with false;
  change (63 =? code "f") with false;
  change (63 =? kHelpLongOption) with false;
  change (63 =? code "?") with true;
  cbv iota; change (append "" ?x) with x.

(** An argument [-x...] whose first letter is no unit letter, or
    [--name] for a name that is in no way one of the table, standing
    first, ends the run with status 1: [getopt_long] writes its
    diagnostic for the program and the option to standard error, in the
    text that the message catalog of the process has for it, and [main]
    adds the hint.  Where the diagnostics are not translated, the text
    is [prog: invalid option -- 'x'] or [prog: unrecognized option
    '--name']. *)
Theorem invalid_option_reported :
  (forall (logf : Binary32.float -> Binary32.float) (env : environment)
          (prog : string) (c : ascii) (rest : string)
          (args : list string),
     c <> "-"%char ->
     (Ascii.eqb c "c" || Ascii.eqb c "f") = false ->
     main logf env (prog :: String "-" (String c rest) :: args)
     = Exit 1 "" (messages env (Invalid_option prog c) ++ kAskForHelp)) /\
  (forall (logf : Binary32.float -> Binary32.float) (env : environment)
          (prog text : string) (args : list string),
     text <> "" ->
     find_option long_options (fst (split_name text)) = NotFound ->
     main logf env (prog :: String "-" (String "-" text) :: args)
     = Exit 1 ""
         (messages env (Unrecognized_option prog text) ++ kAskForHelp)).
Proof.
  split.
  - intros logf env prog c rest args Hc Hletter.
    unfold main, parse, loop_fuel. rewrite option_loop_S.
    rewrite getopt_long_boundary by (cbn; auto; lia).
    rewrite next_element_first_option;
      [|reflexivity|intros H; injection H as E _; contradiction].
    replace (match c with
             | "-"%char =>
                 process_long_option
                   (prog :: String "-" (String c rest) :: args)
                   long_options (initialize "cf" (posixly_correct env)) rest
             | _ =>
                 short_option (prog :: String "-" (String c rest) :: args)
                   "cf" (initialize "cf" (posixly_correct env)) c rest
             end)
      with (short_option (prog :: String "-" (String c rest) :: args)
              "cf" (initialize "cf" (posixly_correct env)) c rest)
      by (destruct c as [[] [] [] [] [] [] [] []]; try reflexivity;
          congruence).
    unfold short_option.
    assert (Hh : has_char c (option_letters "cf") = false).
    { change (has_char c (option_letters "cf"))
        with (Ascii.eqb "c" c || (Ascii.eqb "f" c || false)).
      rewrite (Ascii.eqb_sym "c" c), (Ascii.eqb_sym "f" c).
      now rewrite orb_false_r. }
    rewrite Hh. unfold written.
    cbn [negb orb ret diagnostic argv_out data_out nth].
    question_mark. now rewrite string_app_nil_r.
  - intros logf env prog text args Htext Hfind.
    unfold main, parse, loop_fuel. rewrite option_loop_S.
    rewrite getopt_long_boundary by (cbn; auto; lia).
    rewrite next_element_first_option;
      [|reflexivity|intros H; injection H as E; contradiction].
    unfold process_long_option.
    destruct (split_name text) as [n has_eq]. cbn [fst] in Hfind.
    rewrite Hfind. unfold written.
    cbn [ret diagnostic argv_out data_out nth].
    question_mark. now rewrite string_app_nil_r.
Qed.

Lemma invalid_option_reported_witness :
  ("x"%char <> "-"%char /\
   (Ascii.eqb "x" "c" || Ascii.eqb "x" "f") = false /\
   main logf_sample sample_environment ["dewpoint"; "-x"; "20"; "50"]
   = Exit 1 ""
       ("dewpoint: invalid option -- 'x'" ++ newline ++ kAskForHelp)) /\
  ("bogus" <> "" /\
   find_option long_options (fst (split_name "bogus")) = NotFound /\
   main logf_sample sample_environment ["dewpoint"; "--bogus"; "20"; "50"]
   = Exit 1 ""
       ("dewpoint: unrecognized option '--bogus'" ++ newline
        ++ kAskForHelp)).
Proof.
  assert (H1 : "x"%char <> "-"%char) by discriminate.
  assert (H2 : "bogus" <> "") by discriminate.
  split.
  - split; [exact H1|]. split; [reflexivity|].
    exact (proj1 invalid_option_reported logf_sample sample_environment
             "dewpoint" "x"%char "" ["20"; "50"] H1 eq_refl).
  - split; [exact H2|]. split; [reflexivity|].
    exact (proj2 invalid_option_reported logf_sample sample_environment
             "dewpoint" "bogus" ["20"; "50"] H2 eq_refl).
Defined.

(** *** The end of the options *)

(** [--] before the two arguments does not let them through, whatever
    they are: the scan stops after it with two arguments left, and
    [main] reads [--] itself as the temperature. *)
Theorem end_of_options_read_as_temperature
    (logf : Binary32.float -> Binary32.float) (env : environment)
    (prog tt ht : string) :
  main logf env [prog; "--"; tt; ht]
  = Exit 1 ""
      ("dewpoint: invalid temperature " ++ dquote ++ "--" ++ dquote
       ++ newline ++ kAskForHelp).
Proof.
  unfold main, parse, loop_fuel. rewrite option_loop_S.
  assert (Hscan : forall pc : bool,
             getopt_long [prog; "--"; tt; ht] "cf" long_options
               (initialize "cf" pc)
             = {| ret := -1; argv_out := [prog; "--"; tt; ht];
                  data_out :=
                    {| optind := 2; nextchar := None;
                       ordering := ordering (initialize "cf" pc);
                       first_nonopt := 2; last_nonopt := 4 |};
                  diagnostic := None |}).
  { intros pc. destruct pc; reflexivity. }
  rewrite Hscan. cbv zeta. cbn [ret argv_out data_out optind].
  change (-1 =? -1) with true. cbv iota.
  unfold read_arguments. cbn [List.length nth].
  change (negb (Z.of_nat 2 =? Z.of_nat 4 - 2)) with false. cbv iota.
  destruct (ReadFloat (decimal_point env) "--") as [f|] eqn:Er;
    [|reflexivity].
  apply ReadFloat_two_dashes in Er as (c & rest & Er & _). discriminate.
Qed.

End RefusedOptionProofs.

Section WhitespaceProofs.

(** *** White space before a number *)

(** [ReadFloat] passes over white space at the head of a token that
    is not empty: the token reads as it does without it; white space
    alone is refused. *)
Theorem ReadFloat_leading_space (radix c : ascii) (s : string) :
  Strtof.isspace c = true ->
  (Strtof.deref s <> zero ->
   ReadFloat radix (String c s) = ReadFloat radix s) /\
  ReadFloat radix (String c "") = None.
Proof.
  intros Hsp.
  assert (Hc : Ascii.eqb c zero = false).
  { apply Ascii.eqb_neq. intros ->. discriminate. }
  split.
  - intros Hs. apply Ascii.eqb_neq in Hs.
    unfold ReadFloat, Strtof.strtof. cbn [Strtof.skip_spaces].
    rewrite Hsp. cbv zeta.
    destruct (match Strtof.skip_spaces s with
              | String "-" t => (true, t)
              | String "+" t => (false, t)
              | _ => (false, Strtof.skip_spaces s)
              end) as [neg s2].
    destruct (Strtof.read_unsigned radix neg s2) as [[f e]|];
      [reflexivity|].
    cbn [Strtof.deref]. now rewrite Hc, Hs.
  - unfold ReadFloat, Strtof.strtof. cbn [Strtof.skip_spaces].
    rewrite Hsp. cbn. now rewrite Hc.
Qed.

Lemma ReadFloat_leading_space_witness :
  Strtof.isspace " " = true /\
  Strtof.deref "-5" <> zero /\
  ReadFloat "." (String " " "-5") = ReadFloat "." "-5" /\
  ReadFloat "." (String " " "") = None.
Proof.
  assert (H : Strtof.deref "-5" <> zero) by discriminate.
  split; [reflexivity|]. split; [exact H|]. split.
  - exact (proj1 (ReadFloat_leading_space "." " " "-5" eq_refl) H).
  - exact (proj2 (ReadFloat_leading_space "." " " "-5" eq_refl)).
Defined.

End WhitespaceProofs.
